(** * Butterfly factorisations: a shallow embedding of [butterfly.py]

    The development follows the Python module top to bottom:
    the tensor primitives it takes from torch, then [sinkhorn],
    [Butterfly], [MatrixProduct] and [ButterflyProduct].

    Tensor entries are real numbers (the exact-arithmetic reading of torch's
    floats); a complex tensor, which the code stores with a trailing axis of
    size two, has pairs [(re, im)] as entries.  A failed [assert] or a torch
    shape error is [None]. *)

From Stdlib Require Import String.
From Stdlib Require Import List ZArith Lia Bool Ring Reals Lra.
Import ListNotations.

Set Implicit Arguments.

(** ** Fallible computations *)

Definition obind {X Y : Type} (o : option X) (f : X -> option Y) : option Y :=
  match o with
  | Some x => f x
  | None => None
  end.

Notation "x <- c ;; k" := (obind c (fun x => k))
  (at level 61, c at next level, right associativity).

Fixpoint mapM {X Y : Type} (f : X -> option Y) (l : list X) : option (list Y) :=
  match l with
  | [] => Some []
  | x :: l' => y <- f x ;; ys <- mapM f l' ;; Some (y :: ys)
  end.

(** ** Python slices

    [py_bound len i] is the position a slice bound [i] denotes in a sequence
    of length [len]: a negative bound counts from the end, and both are
    clamped to the sequence. *)

Definition py_bound (len : nat) (i : Z) : nat :=
  if (i <? 0)%Z then Z.to_nat (Z.max 0 (Z.of_nat len + i))
  else Z.to_nat (Z.min i (Z.of_nat len)).

(** [l[i:]] *)
Definition slice_from {X : Type} (i : Z) (l : list X) : list X :=
  skipn (py_bound (length l) i) l.

(** [l[:i]] *)
Definition slice_to {X : Type} (i : Z) (l : list X) : list X :=
  firstn (py_bound (length l) i) l.

(** ** torch's elementwise operations, on one axis

    Two operands are combined entry by entry when their lengths agree; an
    operand of length one is broadcast; anything else is a shape error. *)

Definition bzipM {X : Type} (f : X -> X -> option X) (a b : list X)
  : option (list X) :=
  if length a =? length b
  then mapM (fun p => f (fst p) (snd p)) (combine a b)
  else match a, b with
       | [a0], _ => mapM (f a0) b
       | _, [b0] => mapM (fun x => f x b0) a
       | _, _ => None
       end.

(** An in-place update [tgt += rhs] broadcasts the right-hand side only. *)
Definition iaddM {X : Type} (f : X -> X -> option X) (tgt rhs : list X)
  : option (list X) :=
  if length tgt =? length rhs
  then mapM (fun p => f (fst p) (snd p)) (combine tgt rhs)
  else match rhs with
       | [r0] => mapM (fun x => f x r0) tgt
       | _ => None
       end.

Section Torch.

(** The entries: [A] is instantiated with the reals and with pairs of
    reals (complex numbers). *)
Variable A : Type.
Variables (zero : A) (add mul : A -> A -> A).

Definition total2 (f : A -> A -> A) : A -> A -> option A :=
  fun x y => Some (f x y).

(** [a * b] and [a + b] on vectors, [a + b] on matrices. *)
Definition vmul (a b : list A) : option (list A) := bzipM (total2 mul) a b.
Definition vadd (a b : list A) : option (list A) := bzipM (total2 add) a b.
Definition madd (a b : list (list A)) : option (list (list A)) := bzipM vadd a b.

(** [out[i:] += w] and [out[:i] += w] *)
Definition iadd_from (i : Z) (out w : list A) : option (list A) :=
  let b := py_bound (length out) i in
  t <- iaddM (total2 add) (skipn b out) w ;;
  Some (firstn b out ++ t).

Definition iadd_to (i : Z) (out w : list A) : option (list A) :=
  let b := py_bound (length out) i in
  t <- iaddM (total2 add) (firstn b out) w ;;
  Some (t ++ skipn b out).

(** [torch.diag(v, k)]: the square matrix of side [len v + |k|] that holds
    [v] on its [k]-th diagonal. *)
Definition torch_diag (v : list A) (k : Z) : list (list A) :=
  let m := length v + Z.abs_nat k in
  map (fun i =>
         map (fun j =>
                if (Z.of_nat j - Z.of_nat i =? k)%Z
                then nth (if (0 <=? k)%Z then i else j) v zero
                else zero)
             (seq 0 m))
      (seq 0 m).

(** Matrix product and transpose of two-dimensional tensors. *)
Definition dot (a b : list A) : A :=
  fold_right add zero (map (fun p => mul (fst p) (snd p)) (combine a b)).

Definition ncols (m : list (list A)) : nat :=
  match m with
  | [] => 0
  | r :: _ => length r
  end.

Definition transpose (m : list (list A)) : list (list A) :=
  map (fun j => map (fun row => nth j row zero) m) (seq 0 (ncols m)).

(** [a @ b]: the inner dimensions must agree. *)
Definition matmul (a b : list (list A)) : option (list (list A)) :=
  if forallb (fun row => length row =? length b) a
  then Some (map (fun row => map (dot row) (transpose b)) a)
  else None.

(** *** The band matrix and its direct application

    These are the bodies of [Butterfly.matrix] and [Butterfly.forward];
    the real branch runs them on reals with [operator.mul], the complex
    branch on pairs with [complex_mul]. *)

(** [torch.diag(diag) + torch.diag(subdiag, -k) + torch.diag(superdiag, k)] *)
Definition band_matrix (diag subdiag superdiag : list A) (k : Z) : option (list (list A)) :=
  m1 <- madd (torch_diag diag 0) (torch_diag subdiag (- k)) ;;
  madd m1 (torch_diag superdiag k).

(** One row of the input batch:
<<
    output = diag * input_
    output[..., k:] += subdiag * input_[..., :-k]
    output[..., :-k] += superdiag * input_[..., k:]
>> *)
Definition band_forward_row (diag subdiag superdiag : list A) (k : Z) (x : list A)
  : option (list A) :=
  output <- vmul diag x ;;
  lo <- vmul subdiag (slice_to (- k) x) ;;
  output <- iadd_from k output lo ;;
  hi <- vmul superdiag (slice_from k x) ;;
  iadd_to (- k) output hi.

Definition band_forward (diag subdiag superdiag : list A) (k : Z) (x : list (list A))
  : option (list (list A)) :=
  mapM (band_forward_row diag subdiag superdiag k) x.

End Torch.

Arguments total2 {A} f x y /.

(** ** Real and complex tensors *)

Local Open Scope R_scope.

(** A complex number is the pair the code keeps on the trailing axis. *)
Definition C : Type := (R * R)%type.

Definition c0 : C := (0, 0).
Definition c1 : C := (1, 0).
Definition cadd (a b : C) : C := (fst a + fst b, snd a + snd b).
Definition csub (a b : C) : C := (fst a - fst b, snd a - snd b).
Definition copp (a : C) : C := (- fst a, - snd a).

(** Modelled from the spec: the combination rule of [complex_mul] in
    [complex_utils] (not among the sources),
    [(ar*br - ai*bi, ar*bi + ai*br)]. *)
Definition cmul (a b : C) : C :=
  (fst a * fst b - snd a * snd b, fst a * snd b + snd a * fst b).

(** Modelled from the spec: [complex_mul(a, b)] of [complex_utils], the
    elementwise complex product, whose shapes broadcast as in the real case
    with the trailing axis kept. *)
Definition complex_mul (a b : list C) : option (list C) := vmul cmul a b.

(** Modelled from the spec: [complex_matmul(a, b)] of [complex_utils], the
    standard matrix product on complex operands stored as pairs. *)
Definition complex_matmul (a b : list (list C)) : option (list (list C)) :=
  matmul c0 cadd cmul a b.

(** What the methods take and return: a real tensor of two axes, or a
    complex one (three axes, the last of size two). *)
Inductive value : Type :=
| VReal (m : list (list R))
| VCplx (m : list (list C)).

(** A tensor of shape [(p, 2)] read as a real matrix, and back. *)
Definition rows2 (v : list C) : list (list R) :=
  map (fun c => [fst c; snd c]) v.

Definition pairs (m : list (list R)) : option (list C) :=
  mapM (fun r => match r with
                 | [a; b] => Some (a, b)
                 | _ => None
                 end) m.

(** [v.transpose(-1, -2)] on a tensor of shape [(n, 2)], and back. *)
Definition planes (v : list C) : list (list R) := [map fst v; map snd v].

Definition unplanes (m : list (list R)) : option (list C) :=
  match m with
  | [re; im] => if length re =? length im then Some (combine re im) else None
  | _ => None
  end.

(** [a @ b] on real tensors ([operator.matmul]): the last two axes are
    multiplied, a leading axis is a batch.  A trailing complex axis is an
    ordinary axis to this operator. *)
Definition operator_matmul (a b : value) : option value :=
  match a, b with
  | VReal x, VReal y => r <- matmul 0 Rplus Rmult x y ;; Some (VReal r)
  | VCplx x, VReal y =>
      r <- mapM (fun xi => m <- matmul 0 Rplus Rmult (rows2 xi) y ;; pairs m) x ;;
      Some (VCplx r)
  | VReal x, VCplx y =>
      r <- mapM (fun yi => m <- matmul 0 Rplus Rmult x (rows2 yi) ;; pairs m) y ;;
      Some (VCplx r)
  | VCplx x, VCplx y =>
      r <- bzipM (fun xi yi => m <- matmul 0 Rplus Rmult (rows2 xi) (rows2 yi) ;;
                               pairs m) x y ;;
      Some (VCplx r)
  end.

(** [complex_matmul] on values: both operands carry the trailing pair. *)
Definition complex_matmul_value (a b : value) : option value :=
  match a, b with
  | VCplx x, VCplx y => r <- complex_matmul x y ;; Some (VCplx r)
  | _, _ => None
  end.

(** [m.t()] / [m.transpose(0, 1)] *)
Definition value_t (a : value) : value :=
  match a with
  | VReal x => VReal (transpose 0 x)
  | VCplx x => VCplx (transpose c0 x)
  end.

(** ** Random initialisation

    [torch.randn] draws from a stream; a computation that draws threads the
    stream and may fail. *)

Definition rng : Type := nat -> R.

Definition M (X : Type) : Type := rng -> option (X * rng).

Definition ret {X : Type} (x : X) : M X := fun s => Some (x, s).

Definition bind {X Y : Type} (c : M X) (f : X -> M Y) : M Y :=
  fun s => match c s with
           | Some (x, s') => f x s'
           | None => None
           end.

Definition fail {X : Type} : M X := fun _ => None.

Definition assert (b : bool) : M unit := if b then ret tt else fail.

Notation "x <-- c ;;; k" := (bind c (fun x => k))
  (at level 61, c at next level, right associativity).

Definition draw (n : nat) : M (list R) :=
  fun s => Some (map s (seq 0 n), fun i => s (i + n)%nat).

Fixpoint draw_rows (r n : nat) : M (list (list R)) :=
  match r with
  | O => ret []
  | S r' => row <-- draw n ;;; rest <-- draw_rows r' n ;;; ret (row :: rest)
  end.

(** A parameter tensor of a factor: real of shape [(n,)], or complex of shape
    [(n, 2)]. *)
Inductive tensor : Type :=
| TReal (v : list R)
| TCplx (v : list C).

Definition shape (t : tensor) : list Z :=
  match t with
  | TReal v => [Z.of_nat (length v)]
  | TCplx v => [Z.of_nat (length v); 2%Z]
  end.

Definition shape_eqb (a b : list Z) : bool :=
  (length a =? length b)%nat && forallb (fun p => (fst p =? snd p)%Z) (combine a b).

Definition pair_up (l : list R) : list C :=
  map (fun i => (nth (2 * i) l 0, nth (2 * i + 1) l 0)) (seq 0 (length l / 2)).

(** [torch.randn(shape)] for the two shapes a factor asks for; a negative
    dimension is an error. *)
Definition randn (shp : list Z) : M tensor :=
  match shp with
  | [n] => if (n <? 0)%Z then fail
           else v <-- draw (Z.to_nat n) ;;; ret (TReal v)
  | [n; 2%Z] => if (n <? 0)%Z then fail
                else v <-- draw (2 * Z.to_nat n) ;;; ret (TCplx (pair_up v))
  | _ => fail
  end.

(** [torch.randn((r, c))] *)
Definition randn2 (r c : Z) : M (list (list R)) :=
  if ((r <? 0) || (c <? 0))%Z then fail
  else draw_rows (Z.to_nat r) (Z.to_nat c).

(** ** [sinkhorn]

    The function updates its argument in place ([logit -= ...]), so the
    tensors live in a store and the function takes the location of its
    argument. *)

Definition loc : Type := nat.
Definition heap : Type := loc -> list (list R).

Definition store (h : heap) (l : loc) (v : list (list R)) : heap :=
  fun l' => if (l' =? l)%nat then v else h l'.

Definition sumexp (v : list R) : R := fold_right Rplus 0 (map exp v).

(** [torch.logsumexp(logit, dim=-1, keepdim=True)], of shape [(n, 1)] *)
Definition logsumexp_last (m : list (list R)) : list R :=
  map (fun row => ln (sumexp row)) m.

(** [torch.logsumexp(logit, dim=-2, keepdim=True)], of shape [(1, n)] *)
Definition logsumexp_first (m : list (list R)) : list R :=
  map (fun col => ln (sumexp col)) (transpose 0 m).

(** [logit - r] with [r] of shape [(n, 1)], and with [r] of shape [(1, n)] *)
Definition sub_last (m : list (list R)) (r : list R) : list (list R) :=
  map (fun p => map (fun x => x - snd p) (fst p)) (combine m r).

Definition sub_first (m : list (list R)) (r : list R) : list (list R) :=
  map (fun row => map (fun p => fst p - snd p) (combine row r)) m.

Definition is_square (m : list (list R)) : bool :=
  forallb (fun row => (length row =? length m)%nat) m.

(** One turn of the loop: two in-place subtractions. *)
Definition sinkhorn_step (logit : loc) (h : heap) : heap :=
  let h1 := store h logit (sub_last (h logit) (logsumexp_last (h logit))) in
  store h1 logit (sub_first (h1 logit) (logsumexp_first (h1 logit))).

Fixpoint sinkhorn_loop (n : nat) (logit : loc) (h : heap) : heap :=
  match n with
  | O => h
  | S n' => sinkhorn_loop n' logit (sinkhorn_step logit h)
  end.

(** [sinkhorn(logit, n_iters)]: the store after the call and the tensor
    returned, which [torch.exp] allocates afresh.  The argument is a tensor of
    two axes, so [logit.dim() >= 2] holds. *)
Definition sinkhorn (logit : loc) (n_iters : Z) (h : heap)
  : option (heap * list (list R)) :=
  if is_square (h logit)
  then let h' := sinkhorn_loop (Z.to_nat n_iters) logit h in
       Some (h', map (map exp) (h' logit))
  else None.

(** A call on a temporary, as in [sinkhorn(self.perm_logit / temperature)]:
    the quotient is a new tensor that nothing else refers to. *)
Definition sinkhorn_of (m : list (list R)) (n_iters : Z) : option (list (list R)) :=
  r <- sinkhorn 0%nat n_iters (fun _ => m) ;; Some (snd r).

(** [t / temperature]; a zero temperature leaves the reals. *)
Definition div_temperature (m : list (list R)) (T : R) : option (list (list R)) :=
  if Req_dec_T T 0 then None else Some (map (map (fun x => x / T)) m).

(** ** Selection logits and softmax

    The logits of the composer may hold [-inf] (the tests set them so). *)

Inductive ereal : Type :=
| Fin (r : R)
| NegInf.

Definition ediv (T : R) (x : ereal) : option ereal :=
  match x with
  | Fin r => if Req_dec_T T 0 then None else Some (Fin (r / T))
  | NegInf => if Rlt_dec 0 T then Some NegInf else None
  end.

Definition eexp (x : ereal) : R :=
  match x with
  | Fin r => exp r
  | NegInf => 0
  end.

Definition is_neginf (x : ereal) : bool :=
  match x with
  | Fin _ => false
  | NegInf => true
  end.

(** [nn.functional.softmax(logit, dim=-1)] on one row; a row of [-inf] only
    has no softmax (torch answers nan). *)
Definition softmax_row (l : list ereal) : option (list R) :=
  match l with
  | [] => Some []
  | _ => if forallb is_neginf l then None
         else let s := fold_right Rplus 0 (map eexp l) in
              Some (map (fun x => eexp x / s) l)
  end.

Definition softmax (m : list (list ereal)) : option (list (list R)) :=
  mapM softmax_row m.

(** [self.logit / temperature] *)
Definition logit_div (m : list (list ereal)) (T : R) : option (list (list ereal)) :=
  mapM (mapM (ediv T)) m.

(** ** [class Butterfly] *)

(** [torch.diag_embed(v.t(), offset, dim1=0, dim2=1)] for [v] of shape
    [(n, 2)]: the real parts and the imaginary parts are embedded as two
    square slabs, and the slab index becomes the trailing axis. *)
Definition diag_embed_t (v : list C) (offset : Z) : list (list C) :=
  let re := nth 0%nat (planes v) [] in
  let im := nth 1%nat (planes v) [] in
  map (fun p => combine (fst p) (snd p))
      (combine (torch_diag 0 re offset) (torch_diag 0 im offset)).

Module Butterfly.

Record t : Type := mk {
  size : Z;
  diagonal : Z;
  complex : bool;
  diag : tensor;
  subdiag : tensor;
  superdiag : tensor
}.

(** A parameter is drawn when none is given; a given one must have the
    expected shape. *)
Definition param (given : option tensor) (expected : list Z) : M tensor :=
  match given with
  | None => randn expected
  | Some p => _ <-- assert (shape_eqb (shape p) expected) ;;; ret p
  end.

Definition init (size diagonal : Z) (complex : bool)
           (diag subdiag superdiag : option tensor) : M t :=
  _ <-- assert (diagonal <? size)%Z ;;;
  let diag_shape := if complex then [size; 2%Z] else [size] in
  let subdiag_shape :=
    if complex then [(size - diagonal)%Z; 2%Z] else [(size - diagonal)%Z] in
  let superdiag_shape := subdiag_shape in
  d <-- param diag diag_shape ;;;
  s <-- param subdiag subdiag_shape ;;;
  u <-- param superdiag superdiag_shape ;;;
  ret (mk size diagonal complex d s u).

(** [__init__] gives a real factor real parameters and a complex factor
    complex ones; the methods are modelled on such factors. *)
Definition matrix (self : t) : option value :=
  if negb self.(complex) then
    match self.(diag), self.(subdiag), self.(superdiag) with
    | TReal d, TReal s, TReal u =>
        m1 <- madd Rplus (torch_diag 0 d 0) (torch_diag 0 s (- self.(diagonal))) ;;
        m <- madd Rplus m1 (torch_diag 0 u self.(diagonal)) ;;
        Some (VReal m)
    | _, _, _ => None
    end
  else
    match self.(diag), self.(subdiag), self.(superdiag) with
    | TCplx d, TCplx s, TCplx u =>
        m1 <- madd cadd (diag_embed_t d 0) (diag_embed_t s (- self.(diagonal))) ;;
        m <- madd cadd m1 (diag_embed_t u self.(diagonal)) ;;
        Some (VCplx m)
    | _, _, _ => None
    end.

(** The real branch on one row of the batch. *)
Definition forward_real (d s u : list R) (k : Z) (input_ : list R)
  : option (list R) :=
  output <- vmul Rmult d input_ ;;
  lo <- vmul Rmult s (slice_to (- k) input_) ;;
  output <- iadd_from Rplus k output lo ;;
  hi <- vmul Rmult u (slice_from k input_) ;;
  iadd_to Rplus (- k) output hi.

(** The complex branch on one row of the batch; [self.mul_op] is
    [complex_mul], and the slices run over the axis before the pair. *)
Definition forward_complex (d s u : list C) (k : Z) (input_ : list C)
  : option (list C) :=
  output <- complex_mul d input_ ;;
  lo <- complex_mul s (slice_to (- k) input_) ;;
  output <- iadd_from cadd k output lo ;;
  hi <- complex_mul u (slice_from k input_) ;;
  iadd_to cadd (- k) output hi.

(** The input is [(..., size)] for a real factor and [(..., size, 2)] for a
    complex one (the method's docstring); the leading axis is the batch. *)
Definition forward (self : t) (input_ : value) : option value :=
  if negb self.(complex) then
    match self.(diag), self.(subdiag), self.(superdiag), input_ with
    | TReal d, TReal s, TReal u, VReal x =>
        out <- mapM (forward_real d s u self.(diagonal)) x ;; Some (VReal out)
    | _, _, _, _ => None
    end
  else
    match self.(diag), self.(subdiag), self.(superdiag), input_ with
    | TCplx d, TCplx s, TCplx u, VCplx x =>
        out <- mapM (forward_complex d s u self.(diagonal)) x ;; Some (VCplx out)
    | _, _, _, _ => None
    end.

End Butterfly.

(** ** [class MatrixProduct] *)

(** A factor is any object with [matrix()] that can be called on an input. *)
Class Factor (F : Type) : Type := {
  factor_matrix : F -> option value;
  factor_call : F -> value -> option value
}.

#[export] Instance Butterfly_Factor : Factor Butterfly.t := {
  factor_matrix := Butterfly.matrix;
  factor_call := Butterfly.forward
}.

(** [functools.reduce(f, l)] without an initial value: an empty [l] is an
    error. *)
Definition reduce {X : Type} (f : X -> X -> option X) (l : list X) : option X :=
  match l with
  | [] => None
  | x :: l' => fold_left (fun acc y => a <- acc ;; f a y) l' (Some x)
  end.

(** The shape of a value, its entries in row-major order ([reshape(-1)]), and
    the way back ([reshape(shape)]). *)
Definition vshape : Type := (bool * nat * nat)%type.

Definition value_shape (v : value) : vshape :=
  match v with
  | VReal m => (false, length m, ncols m)
  | VCplx m => (true, length m, ncols m)
  end.

Definition vshape_eqb (a b : vshape) : bool :=
  Bool.eqb (fst (fst a)) (fst (fst b))
  && (snd (fst a) =? snd (fst b))%nat && (snd a =? snd b)%nat.

Definition flat (v : value) : list R :=
  match v with
  | VReal m => concat m
  | VCplx m => concat (map (fun row => concat (rows2 row)) m)
  end.

Definition chunks {X : Type} (r c : nat) (l : list X) : list (list X) :=
  map (fun i => firstn c (skipn (i * c) l)) (seq 0 r).

Definition unflat (s : vshape) (l : list R) : option value :=
  let '(cplx, r, c) := s in
  if cplx
  then if (length l =? r * (c * 2))%nat
       then Some (VCplx (map pair_up (chunks r (c * 2) l)))
       else None
  else if (length l =? r * c)%nat
       then Some (VReal (chunks r c l))
       else None.

(** [torch.stack(l).reshape(len(l), -1)] with the shape of the members; the
    list must not be empty and its members must have one shape. *)
Definition stack_flat (l : list value) : option (vshape * list (list R)) :=
  match l with
  | [] => None
  | v :: _ =>
      if forallb (fun w => vshape_eqb (value_shape w) (value_shape v)) l
      then Some (value_shape v, map flat l)
      else None
  end.

Definition softmax_fn_t : Type := list (list ereal) -> option (list (list R)).

Module MatrixProduct.

Section WithFactors.

Context {F : Type} `{Factor F}.

(** [logit] and [softmax_fn] are set in learned-order mode only; in
    fixed-order mode nothing reads them. *)
Record t : Type := mk {
  factors : list F;
  n_terms : Z;
  complex : bool;
  fixed_order : bool;
  logit : list (list ereal);
  softmax_fn : softmax_fn_t
}.

Definition matmul_op (self : t) : value -> value -> option value :=
  if self.(complex) then complex_matmul_value else operator_matmul.

(** [sparsemax] is the function imported from the module of that name,
    which is not among the sources; it is an argument here. *)
Definition init (sparsemax : softmax_fn_t) (factors : list F)
           (n_terms : option Z) (complex fixed_order : bool)
           (softmax_fn : string) : M t :=
  let n_terms := match n_terms with
                 | None => Z.of_nat (length factors)
                 | Some n => n
                 end in
  if negb fixed_order then
    _ <-- assert (existsb (String.eqb softmax_fn)
                          ["softmax"%string; "sparsemax"%string]) ;;;
    lg <-- randn2 n_terms (Z.of_nat (length factors)) ;;;
    ret (mk factors n_terms complex fixed_order (map (map Fin) lg)
            (if String.eqb softmax_fn "softmax" then softmax else sparsemax))
  else
    ret (mk factors n_terms complex fixed_order [] (fun _ => None)).

(** [(prob @ stack.reshape(stack.shape[0], -1)).reshape((-1,) + stack.shape[1:])],
    then the members of the result along its first axis. *)
Definition mix (prob : list (list R)) (stack : vshape * list (list R))
  : option (list value) :=
  p <- matmul 0 Rplus Rmult prob (snd stack) ;;
  mapM (unflat (fst stack)) p.

Definition matrix (self : t) (temperature : R) : option value :=
  if self.(fixed_order) then
    matrices <- mapM factor_matrix self.(factors) ;;
    reduce (matmul_op self) matrices
  else
    lg <- logit_div self.(logit) temperature ;;
    prob <- self.(softmax_fn) lg ;;
    ms <- mapM factor_matrix self.(factors) ;;
    stack <- stack_flat ms ;;
    matrices <- mix prob stack ;;
    reduce (matmul_op self) matrices.

(** [for factor in self.factors[::-1]: output = factor(output)] *)
Definition forward_fixed (fs : list F) (input_ : value) : option value :=
  fold_left (fun out factor => o <- out ;; factor_call factor o)
            (rev fs) (Some input_).

(** One term of the learned-order loop:
<<
    stack = torch.stack([factor(output) for factor in self.factors])
    output = (prob[i:i+1] @ stack.reshape(stack.shape[0], -1)).reshape(stack.shape[1:])
>> *)
Definition forward_term (fs : list F) (prob : list (list R)) (i : nat)
           (output : value) : option value :=
  outs <- mapM (fun factor => factor_call factor output) fs ;;
  stack <- stack_flat outs ;;
  p <- matmul 0 Rplus Rmult (firstn 1 (skipn i prob)) (snd stack) ;;
  unflat (fst stack) (concat p).

Definition forward (self : t) (input_ : value) (temperature : R)
  : option value :=
  if self.(fixed_order) then
    forward_fixed self.(factors) input_
  else
    lg <- logit_div self.(logit) temperature ;;
    prob <- self.(softmax_fn) lg ;;
    fold_left (fun out i => o <- out ;; forward_term self.(factors) prob i o)
              (rev (seq 0 (Z.to_nat self.(n_terms)))) (Some input_).

End WithFactors.

Arguments t F : clear implicits.

End MatrixProduct.

(** ** [class ButterflyProduct] *)

Fixpoint mapM_M {X Y : Type} (f : X -> M Y) (l : list X) : M (list Y) :=
  match l with
  | [] => ret []
  | x :: l' => y <-- f x ;;; ys <-- mapM_M f l' ;;; ret (y :: ys)
  end.

Module ButterflyProduct.

(** The subclass adds two attributes to those of [MatrixProduct];
    [perm_logit] is set when [learn_perm] is. *)
Record t : Type := mk {
  super : MatrixProduct.t Butterfly.t;
  learn_perm : bool;
  perm_logit : list (list R)
}.

(** [m = int(math.log2(size))]: the logarithm is defined on positive sizes;
    on a power of two it is exact, and on any other size the assertion
    that follows fails for whichever integer the rounding gives. *)
Definition log2_int (size : Z) : M Z :=
  if (size <=? 0)%Z then fail else ret (Z.log2 size).

Definition init (sparsemax : softmax_fn_t) (size : Z) (n_terms : option Z)
           (complex fixed_order learn_perm : bool) (softmax_fn : string) : M t :=
  m <-- log2_int size ;;;
  _ <-- assert (size =? Z.shiftl 1 m)%Z ;;;
  factors <-- mapM_M (fun i => Butterfly.init size (Z.shiftl 1 (Z.of_nat i)) complex
                                              None None None)
                     (rev (seq 0 (Z.to_nat m))) ;;;
  base <-- MatrixProduct.init sparsemax factors n_terms complex fixed_order
                              softmax_fn ;;;
  if learn_perm then
    pl <-- randn2 size size ;;;
    ret (mk base learn_perm pl)
  else
    ret (mk base learn_perm []).

Definition matrix (self : t) (temperature : R) : option value :=
  matrix <- MatrixProduct.matrix self.(super) temperature ;;
  if self.(learn_perm) then
    lg <- div_temperature self.(perm_logit) temperature ;;
    perm <- sinkhorn_of lg 5 ;;
    operator_matmul matrix (VReal perm)
  else Some matrix.

(** [(input_.transpose(-1, -2) @ perm.t()).transpose(-1, -2)] *)
Definition permute_complex (input_ : value) (perm_t : list (list R))
  : option value :=
  match input_ with
  | VCplx x =>
      r <- mapM (fun xi => m <- matmul 0 Rplus Rmult (planes xi) perm_t ;;
                           unplanes m) x ;;
      Some (VCplx r)
  | VReal x =>
      r <- matmul 0 Rplus Rmult (transpose 0 x) perm_t ;;
      Some (VReal (transpose 0 r))
  end.

Definition forward (self : t) (input_ : value) (temperature : R)
  : option value :=
  input_ <- (if self.(learn_perm) then
               lg <- div_temperature self.(perm_logit) temperature ;;
               perm <- sinkhorn_of lg 5 ;;
               if negb self.(super).(MatrixProduct.complex) then
                 operator_matmul input_ (VReal (transpose 0 perm))
               else
                 permute_complex input_ (transpose 0 perm)
             else Some input_) ;;
  MatrixProduct.forward self.(super) input_ temperature.

End ButterflyProduct.

Local Close Scope R_scope.

(** ** Shapes and sums used in the statements *)

(** What [__init__] establishes about a factor: the order of size and
    diagonal, and the shapes of the three parameters. *)
Definition well_shaped (b : Butterfly.t) : bool :=
  let n := b.(Butterfly.size) in
  let k := b.(Butterfly.diagonal) in
  (k <? n)%Z
  && shape_eqb (shape b.(Butterfly.diag))
               (if b.(Butterfly.complex) then [n; 2%Z] else [n])
  && shape_eqb (shape b.(Butterfly.subdiag))
               (if b.(Butterfly.complex) then [(n - k)%Z; 2%Z] else [(n - k)%Z])
  && shape_eqb (shape b.(Butterfly.superdiag))
               (if b.(Butterfly.complex) then [(n - k)%Z; 2%Z] else [(n - k)%Z]).

(** A batch of [r] rows of [c] entries. *)
Definition rect {X : Type} (r c : nat) (m : list (list X)) : Prop :=
  length m = r /\ Forall (fun row => length row = c) m.

(** An input of matching size: [(batch, n)] real or [(batch, n, 2)] complex. *)
Definition input_of (cplx : bool) (n : Z) (x : value) : Prop :=
  match x with
  | VReal m => cplx = false /\ Forall (fun row => Z.of_nat (length row) = n) m
  | VCplx m => cplx = true /\ Forall (fun row => Z.of_nat (length row) = n) m
  end.

Definition zipw {X Y Z : Type} (f : X -> Y -> Z) (a : list X) (b : list Y) : list Z :=
  map (fun p => f (fst p) (snd p)) (combine a b).

Section Sums.

Variable A : Type.
Variables (zero : A) (add : A -> A -> A).

(** [sum_n f n] is [f 0 + ... + f (n-1)]. *)
Fixpoint sum_n (f : nat -> A) (n : nat) : A :=
  match n with
  | O => zero
  | S n' => add (sum_n f n') (f n')
  end.

End Sums.

(** ** Matrices entry by entry

    The statements below describe a matrix by its entries: [ent m i j] reads
    one, [tab r c f] builds the matrix whose entry [(i, j)] is [f i j]. *)

Section Tables.

Variable A : Type.
Variables (zero : A) (add mul : A -> A -> A).

Infix ".+" := add (at level 50, left associativity).
Infix ".*" := mul (at level 40, left associativity).

Definition ent (m : list (list A)) (i j : nat) : A := nth j (nth i m []) zero.

Definition tab (r c : nat) (f : nat -> nat -> A) : list (list A) :=
  map (fun i => map (fun j => f i j) (seq 0 c)) (seq 0 r).

(** The entries of the band matrix with diagonals [d], [s] (below, at
    offset [k]) and [u] (above). *)
Definition band_ent (d s u : list A) (k : nat) (i j : nat) : A :=
  (if j =? i then nth i d zero else zero)
  .+ (if i =? j + k then nth j s zero else zero)
  .+ (if j =? i + k then nth i u zero else zero).

(** The entries of its direct application to a row [x] of [n] entries. *)
Definition band_apply (d s u x : list A) (n k : nat) (i : nat) : A :=
  nth i d zero .* nth i x zero
  .+ (if k <=? i then nth (i - k) s zero .* nth (i - k) x zero else zero)
  .+ (if i + k <? n then nth i u zero .* nth (i + k) x zero else zero).

(** [a @ b] and [x @ m.t()] as total functions *)
Definition mmul (a b : list (list A)) : list (list A) :=
  tab (length a) (ncols b)
      (fun i j => sum_n zero add (fun l => ent a i l .* ent b l j) (length b)).

Definition mmulT (x m : list (list A)) : list (list A) :=
  tab (length x) (length m)
      (fun r i => sum_n zero add (fun l => ent x r l .* ent m i l) (ncols m)).

(** [q_0 * ms_0 + q_1 * ms_1 + ...] for matrices of [r] rows and [c]
    columns *)
Definition lincomb (r c : nat) (q : list A) (ms : list (list (list A)))
  : list (list A) :=
  tab r c (fun a b =>
             sum_n zero add (fun j => nth j q zero .* ent (nth j ms []) a b)
                   (length ms)).

End Tables.

(** ** Names used in the statements about construction *)

Definition param_ok (given : option tensor) (expected : list Z) : bool :=
  match given with
  | Some p => shape_eqb (shape p) expected
  | None => forallb (fun d => (0 <=? d)%Z) expected
  end.

Definition diag_shape (size : Z) (complex : bool) : list Z :=
  if complex then [size; 2%Z] else [size].

Definition known_softmax (s : string) : bool :=
  existsb (String.eqb s) ["softmax"%string; "sparsemax"%string].

(** [2^(m-1), ..., 2, 1] *)
Definition descending_offsets (m : nat) : list Z :=
  map (fun i => (2 ^ Z.of_nat i)%Z) (rev (seq 0 m)).

Definition default_terms (n_terms : option Z) (m : nat) : Z :=
  match n_terms with
  | None => Z.of_nat m
  | Some t => t
  end.

(** The tensors of [test_butterfly]. *)
Definition test_diag : list C := [(1, 2); (2, 3); (3, 4); (4, 5)]%R.
Definition test_subdiag : list C := [(11, 12); (12, 13); (13, 14)]%R.

(** ** Names used in the statements about the composers *)

(** A matrix of pairs read as a real matrix of twice the width, and real
    weights read as complex ones. *)
Definition interleave (v : list (list C)) : list (list R) :=
  map (fun row => concat (rows2 row)) v.

Definition cweights (q : list R) : list C := map (fun p => (p, 0%R)) q.

(** The matrix product of the composer's kind *)
Definition vmatmul (cplx : bool) : value -> value -> option value :=
  if cplx then complex_matmul_value else operator_matmul.

(** A square matrix of side [n] of the given kind *)
Definition square_value (cplx : bool) (n : nat) (m : value) : Prop :=
  match m with
  | VReal a => cplx = false /\ rect n n a
  | VCplx a => cplx = true /\ rect n n a
  end.

(** A factor whose call agrees with its matrix: it has a square matrix, and
    applied to an input it returns the input times the transposed matrix. *)
Definition lawful {F : Type} `{Factor F} (cplx : bool) (n : nat) (f : F) : Prop :=
  exists m,
    factor_matrix f = Some m
    /\ square_value cplx n m
    /\ forall x, input_of cplx (Z.of_nat n) x ->
                 exists y, factor_call f x = Some y
                           /\ vmatmul cplx x (value_t m) = Some y.

Section KindDefs.

Context {F : Type} {HF : Factor F}.
Variable E : Type.
Variables (zero : E) (add mul : E -> E -> E).
Variable inj : list (list E) -> value.
Variable emb : list R -> list E.
Variable n : nat.

(** The factor [f] has the matrix [m], with entries of one kind, and its
    call multiplies by the transpose of [m]. *)
Definition factor_has_matrix (f : F) (m : list (list E)) : Prop :=
  factor_matrix f = Some (inj m)
  /\ rect n n m
  /\ forall p x, rect p n x ->
                 factor_call f (inj x) = Some (inj (mmulT zero add mul x m)).

(** The matrix of one term in learned order: the factors' matrices mixed
    with the weights [q]. *)
Definition mixed_matrix (ms : list (list (list E))) (q : list R)
  : list (list E) :=
  lincomb zero add mul n n (emb q) ms.

End KindDefs.

(** The learned-order selection of [test_butterfly_product]: term [i] puts
    its whole weight on factor [i], through logits that are [-inf]
    elsewhere. *)
Definition one_hot_selection {F : Type} (mp : MatrixProduct.t F) : Prop :=
  mp.(MatrixProduct.fixed_order) = false
  /\ mp.(MatrixProduct.n_terms) = 2%Z
  /\ mp.(MatrixProduct.softmax_fn) = softmax
  /\ exists a b, mp.(MatrixProduct.logit) = [[Fin a; NegInf]; [NegInf; Fin b]].

(** The selection of a composer is usable at a temperature: in learned-order
    mode the selection function returns one row of weights per term, each
    with one weight per factor. *)
Definition selection_ok {F : Type} (mp : MatrixProduct.t F) (T : R) : Prop :=
  mp.(MatrixProduct.fixed_order) = true
  \/ (mp.(MatrixProduct.fixed_order) = false
      /\ exists lg q prob,
          logit_div mp.(MatrixProduct.logit) T = Some lg
          /\ mp.(MatrixProduct.softmax_fn) lg = Some (q :: prob)
          /\ Forall (fun r => length r = length mp.(MatrixProduct.factors)) (q :: prob)
          /\ Z.to_nat mp.(MatrixProduct.n_terms) = length (q :: prob)).

(** ** Sums of the rows and of the columns of what [sinkhorn] returns *)

Definition row_sums (m : list (list R)) : list R :=
  map (fold_right Rplus 0%R) m.

Definition col_sums (m : list (list R)) : list R :=
  map (fold_right Rplus 0%R) (transpose 0%R m).

(** What one turn of the loop of [sinkhorn] leaves in the tensor:
    [logit -= logsumexp(logit, dim=-1)], then
    [logit -= logsumexp(logit, dim=-2)]. *)
Definition normalise_once (m : list (list R)) : list (list R) :=
  let m1 := sub_last m (logsumexp_last m) in
  sub_first m1 (logsumexp_first m1).

(** Logits on which the iteration is slow: the entry below the diagonal is
    far smaller than the others. *)
Definition slow_logit : list (list R) := [[0; 0]; [-20; 0]]%R.

(** ** Concrete factors and composers of the examples *)

Definition example_f1 : Butterfly.t :=
  Butterfly.mk 2 1 false (TReal [1; 2]%R) (TReal [3]%R) (TReal [4]%R).

Definition example_f2 : Butterfly.t :=
  Butterfly.mk 2 1 false (TReal [5; 6]%R) (TReal [7]%R) (TReal [8]%R).

(** Two real factors of size 2, selected by the logits of
    [test_butterfly_product]. *)
Definition example_mp : MatrixProduct.t Butterfly.t :=
  MatrixProduct.mk [example_f1; example_f2] 2 false false
                   [[Fin 1%R; NegInf]; [NegInf; Fin 1%R]] softmax.

(** The complex factor of [test_butterfly]. *)
Definition example_cf : Butterfly.t :=
  Butterfly.mk 4 1 true (TCplx test_diag) (TCplx test_subdiag) (TCplx test_subdiag).

(** ** Names used in the statements about [sinkhorn] *)

(** The sum of all the entries of a matrix *)
Definition total_sum (m : list (list R)) : R :=
  fold_right Rplus 0%R (row_sums m).

(** [m] with [a_i] added to every entry of row [i] *)
Definition shift_rows (m : list (list R)) (a : list R) : list (list R) :=
  zipw (fun row c => map (fun x => (x + c)%R) row) m a.

(** A matrix all of whose rows and columns sum to 1 *)
Definition doubly_stochastic (m : list (list R)) : Prop :=
  Forall (fun s => s = 1%R) (row_sums m) /\ Forall (fun s => s = 1%R) (col_sums m).

(** ** Names used in the statements about the factors *)

(** The entry [(i, j)] of a band matrix with diagonal [d], [k]-th
    subdiagonal [s] and [k]-th superdiagonal [u] *)
Definition band_at {A : Type} (zero : A) (d s u : list A) (k i j : nat) : A :=
  if (j =? i)%nat then nth i d zero
  else if (i =? j + k)%nat then nth j s zero
  else if (j =? i + k)%nat then nth i u zero
  else zero.

(** The factor with its subdiagonal and superdiagonal exchanged *)
Definition swap_diagonals (b : Butterfly.t) : Butterfly.t :=
  Butterfly.mk b.(Butterfly.size) b.(Butterfly.diagonal) b.(Butterfly.complex)
               b.(Butterfly.diag) b.(Butterfly.superdiag) b.(Butterfly.subdiag).

(** The number of entries of a tensor ([numel]), and of the three tensors of
    a factor *)
Definition numel (t : tensor) : Z := fold_right Z.mul 1%Z (shape t).

Definition factor_numel (b : Butterfly.t) : Z :=
  (numel b.(Butterfly.diag) + numel b.(Butterfly.subdiag)
   + numel b.(Butterfly.superdiag))%Z.

(** A batch with at least one row *)
Definition has_rows (x : value) : Prop :=
  match x with
  | VReal m => m <> []
  | VCplx m => m <> []
  end.

(** The number of entries held by the factors of a product *)
Definition product_numel (bp : ButterflyProduct.t) : Z :=
  fold_right Z.add 0%Z
             (map factor_numel bp.(ButterflyProduct.super).(MatrixProduct.factors)).

(** ** The tests of the module

    [test_butterfly] and [test_butterfly_product] draw an input, run the
    methods and compare with [torch.allclose]; a failed assertion and an
    error of a method are both [None]. *)

Definition lift {X : Type} (o : option X) : M X :=
  fun s => match o with
           | Some x => Some (x, s)
           | None => None
           end.

(** [|d| <= atol + rtol * |y|] with the default tolerances of
    [torch.allclose], [rtol = 1e-05] and [atol = 1e-08]. *)
Definition close_to (d y : R) : bool :=
  if Rle_dec (Rabs d) (1 / 100000000 + 1 / 100000 * Rabs y)%R then true else false.

(** [torch.allclose(a, b)] on two-dimensional real tensors: the operands are
    broadcast against each other, and every entry of [a - b] is compared
    with the entry of [b]. *)
Definition allclose (a b : list (list R)) : option bool :=
  d <- bzipM (bzipM (total2 Rminus)) a b ;;
  o <- bzipM (bzipM (total2 (fun _ y : R => y))) a b ;;
  Some (forallb (fun p =>
                   forallb (fun q => close_to (fst q) (snd q))
                           (combine (fst p) (snd p)))
                (combine d o)).

(** [torch.allclose] on values of one kind, as the tests call it; a complex
    value is compared through its real entries. *)
Definition allclose_value (a b : value) : option bool :=
  match a, b with
  | VReal x, VReal y => allclose x y
  | VCplx x, VCplx y => allclose (interleave x) (interleave y)
  | _, _ => None
  end.

(** [m[..., 0]] and [m[..., 1]] of a complex tensor *)
Definition slab_re (m : list (list C)) : list (list R) := map (map fst) m.
Definition slab_im (m : list (list C)) : list (list R) := map (map snd) m.

Definition as_cplx (v : value) : option (list (list C)) :=
  match v with
  | VCplx m => Some m
  | VReal _ => None
  end.

(** [torch.stack((a, b), dim=-1)] of two real tensors of one shape *)
Definition stack_last (a b : list (list R)) : option (list (list C)) :=
  if (length a =? length b)%nat
     && forallb (fun p => (length (fst p) =? length (snd p))%nat) (combine a b)
  then Some (zipw (@combine R R) a b)
  else None.

(** [torch.randn((b, n, 2))] *)
Definition randn3 (b n : Z) : M (list (list C)) :=
  m <-- randn2 b (2 * n) ;;; ret (map pair_up m).

Definition test_matrix_real : list (list R) :=
  [[ 1; 11;  0;  0];
   [11;  2; 12;  0];
   [ 0; 12;  3; 13];
   [ 0;  0; 13;  4]]%R.

Definition test_matrix_imag : list (list R) :=
  [[ 2; 12;  0;  0];
   [12;  3; 13;  0];
   [ 0; 13;  4; 14];
   [ 0;  0; 14;  5]]%R.

Definition test_butterfly : M unit :=
  let size := 4%Z in
  let diag := TCplx test_diag in
  let subdiag := TCplx test_subdiag in
  model <-- Butterfly.init size 1 true (Some diag) (Some subdiag) (Some subdiag) ;;;
  let matrix_real := test_matrix_real in
  let matrix_imag := test_matrix_imag in
  m <-- lift (v <- Butterfly.matrix model ;; as_cplx v) ;;;
  ok <-- lift (allclose (slab_re m) matrix_real) ;;;
  _ <-- assert ok ;;;
  m <-- lift (v <- Butterfly.matrix model ;; as_cplx v) ;;;
  ok <-- lift (allclose (slab_im m) matrix_imag) ;;;
  _ <-- assert ok ;;;
  let batch_size := 3%Z in
  x <-- randn3 batch_size size ;;;
  prod <-- lift (rr <- matmul 0%R Rplus Rmult (slab_re x) (transpose 0%R matrix_real) ;;
                 ii <- matmul 0%R Rplus Rmult (slab_im x) (transpose 0%R matrix_imag) ;;
                 re <- bzipM (bzipM (total2 Rminus)) rr ii ;;
                 ri <- matmul 0%R Rplus Rmult (slab_re x) (transpose 0%R matrix_imag) ;;
                 ir <- matmul 0%R Rplus Rmult (slab_im x) (transpose 0%R matrix_real) ;;
                 im <- madd Rplus ri ir ;;
                 stack_last re im) ;;;
  out <-- lift (Butterfly.forward model (VCplx x)) ;;;
  m <-- lift (Butterfly.matrix model) ;;;
  ref <-- lift (complex_matmul_value (VCplx x) (value_t m)) ;;;
  ok <-- lift (allclose_value out ref) ;;;
  assert ok.

(** [model.logit = nn.Parameter(...)] *)
Definition set_logit (model : ButterflyProduct.t) (lg : list (list ereal))
  : ButterflyProduct.t :=
  let mp := model.(ButterflyProduct.super) in
  ButterflyProduct.mk
    (MatrixProduct.mk mp.(MatrixProduct.factors) mp.(MatrixProduct.n_terms)
                      mp.(MatrixProduct.complex) mp.(MatrixProduct.fixed_order)
                      lg mp.(MatrixProduct.softmax_fn))
    model.(ButterflyProduct.learn_perm) model.(ButterflyProduct.perm_logit).

Definition test_butterfly_product (sparsemax : softmax_fn_t) : M unit :=
  let size := 4%Z in
  model <-- ButterflyProduct.init sparsemax size None true false false "softmax" ;;;
  let model := set_logit model [[Fin 1%R; NegInf]; [NegInf; Fin 1%R]] in
  m <-- lift (ButterflyProduct.matrix model 1%R) ;;;
  ref <-- lift (f0 <- nth_error model.(ButterflyProduct.super).(MatrixProduct.factors) 0 ;;
                f1 <- nth_error model.(ButterflyProduct.super).(MatrixProduct.factors) 1 ;;
                m0 <- Butterfly.matrix f0 ;;
                m1 <- Butterfly.matrix f1 ;;
                complex_matmul_value m0 m1) ;;;
  ok <-- lift (allclose_value m ref) ;;;
  _ <-- assert ok ;;;
  let batch_size := 3%Z in
  x <-- randn3 batch_size size ;;;
  out <-- lift (ButterflyProduct.forward model (VCplx x) 1%R) ;;;
  m <-- lift (ButterflyProduct.matrix model 1%R) ;;;
  ref <-- lift (complex_matmul_value (VCplx x) (value_t m)) ;;;
  ok <-- lift (allclose_value out ref) ;;;
  assert ok.

(** * Wide residual networks: [cnn/models/wide_resnet.py]

    The constructors of the module assemble layers; a layer is recorded
    here by the arguments its constructor is called with.  [**kwargs] is an
    association list.  What the constructors of the layers check themselves
    (a dropout probability outside [0, 1], a negative number of channels, a
    keyword that is given twice) is not recorded: [Wide_ResNet_init] is
    [None] where the assertion of [__init__] fails, and holds the attributes
    that [__init__] sets if it runs to its end. *)

Module WideResNet.

Inductive conv_class : Type :=
| Conv2d
| ButterflyConv2d
| LowRankConv2d.

Definition kwargs : Type := list (string * Z).

(** [kwargs.get(key, default)] *)
Fixpoint get (kw : kwargs) (key : string) (default : Z) : Z :=
  match kw with
  | [] => default
  | (k, v) :: kw' => if String.eqb k key then v else get kw' key default
  end.

(** A convolution: its class and the arguments given; [stride] and
    [padding] are [None] when the call leaves them out, [ortho_init] and
    [extra] ([**kwargs]) are given to a [ButterflyConv2d] only, and [rank]
    to a [LowRankConv2d] only. *)
Record conv : Type := mk_conv {
  cls : conv_class;
  in_channels : Z;
  out_channels : Z;
  kernel_size : Z;
  stride : option Z;
  padding : option Z;
  bias : bool;
  ortho_init : bool;
  rank : option Z;
  extra : kwargs
}.

(** [conv3x3(in_planes, out_planes, stride=1)] *)
Definition conv3x3 (in_planes out_planes stride : Z) : conv :=
  mk_conv Conv2d in_planes out_planes 3 (Some stride) (Some 1%Z) true false None [].

(** The three-way choice on [structure_type] made for each convolution of a
    block: ['B'], ['LR'], anything else. *)
Definition structured (structure_type : option string)
           (butterfly low_rank plain : conv) : conv :=
  match structure_type with
  | Some s => if String.eqb s "B" then butterfly
              else if String.eqb s "LR" then low_rank
              else plain
  | None => plain
  end.

(** [class wide_basic]: the attributes set by [__init__]; [shortcut] is an
    [nn.Sequential] of no layer or of one convolution. *)
Record wide_basic : Type := mk_block {
  bn1 : Z;
  conv1 : conv;
  dropout : R;
  bn2 : Z;
  conv2 : conv;
  shortcut : list conv
}.

Definition wide_basic_init (in_planes planes : Z) (dropout_rate : R) (stride : Z)
           (structure_type : option string) (kw : kwargs) : wide_basic :=
  let conv1 :=
    structured structure_type
      (mk_conv ButterflyConv2d in_planes planes 3 (Some stride) (Some 1%Z) true true
               None kw)
      (mk_conv LowRankConv2d in_planes planes 3 (Some stride) (Some 1%Z) true false
               (Some (get kw "rank" 1)) [])
      (mk_conv Conv2d in_planes planes 3 None (Some 1%Z) true false None []) in
  let conv2 :=
    structured structure_type
      (mk_conv ButterflyConv2d planes planes 3 (Some 1%Z) (Some 1%Z) true true
               None kw)
      (mk_conv LowRankConv2d planes planes 3 (Some 1%Z) (Some 1%Z) false false
               (Some (get kw "rank" 1)) [])
      (mk_conv Conv2d planes planes 3 (Some stride) (Some 1%Z) true false None []) in
  let shortcut :=
    if negb (stride =? 1)%Z || negb (in_planes =? planes)%Z
    then [structured structure_type
            (mk_conv ButterflyConv2d in_planes planes 1 (Some stride) None true true
                     None kw)
            (mk_conv LowRankConv2d in_planes planes 1 (Some stride) None false false
                     (Some (get kw "rank" 1)) [])
            (mk_conv Conv2d in_planes planes 1 (Some stride) None true false None [])]
    else [] in
  mk_block in_planes conv1 dropout_rate planes conv2 shortcut.

(** [[x] * n]: no copy when [n] is zero or negative *)
Definition py_repeat {X : Type} (x : X) (n : Z) : list X := repeat x (Z.to_nat n).

(** The loop of [_wide_layer]: [self.in_planes] is the state. *)
Fixpoint wide_layer_loop (planes : Z) (dropout_rate : R)
         (structure_type : option string) (kw : kwargs)
         (strides : list Z) (in_planes : Z) (layers : list wide_basic)
  : list wide_basic * Z :=
  match strides with
  | [] => (layers, in_planes)
  | stride :: strides' =>
      wide_layer_loop planes dropout_rate structure_type kw strides' planes
        (layers ++ [wide_basic_init in_planes planes dropout_rate stride
                                    structure_type kw])
  end.

(** [_wide_layer(block, planes, num_blocks, dropout_rate, stride,
    structure_type, **kwargs)] with [block = wide_basic]: the layers of the
    [nn.Sequential] returned and the new value of [self.in_planes]. *)
Definition _wide_layer (planes num_blocks : Z) (dropout_rate : R) (stride : Z)
           (structure_type : option string) (kw : kwargs) (in_planes : Z)
  : list wide_basic * Z :=
  let strides := stride :: py_repeat 1%Z (num_blocks - 1) in
  wide_layer_loop planes dropout_rate structure_type kw strides in_planes [].

(** [class Wide_ResNet]: the attributes set by [__init__] *)
Record Wide_ResNet : Type := mk_net {
  in_planes : Z;
  net_conv1 : conv;
  layer1 : list wide_basic;
  layer2 : list wide_basic;
  layer3 : list wide_basic;
  net_bn1 : Z;
  linear : Z * Z
}.

Definition Wide_ResNet_init (depth widen_factor : Z) (dropout_rate : R) (num_classes : Z)
           (structure_type : option string) (kw : kwargs) : option Wide_ResNet :=
  let in_planes := 16%Z in
  if negb ((depth - 4) mod 6 =? 0)%Z then None
  else
    let n := ((depth - 4) / 6)%Z in
    let k := widen_factor in
    let nStages := [16; 16 * k; 32 * k; 64 * k]%Z in
    let conv1 := conv3x3 3 (nth 0 nStages 0%Z) 1 in
    let '(layer1, in_planes) :=
      _wide_layer (nth 1 nStages 0%Z) n dropout_rate 1 None [] in_planes in
    let '(layer2, in_planes) :=
      _wide_layer (nth 2 nStages 0%Z) n dropout_rate 2 None [] in_planes in
    let '(layer3, in_planes) :=
      _wide_layer (nth 3 nStages 0%Z) n dropout_rate 2 structure_type kw in_planes in
    Some (mk_net in_planes conv1 layer1 layer2 layer3 (nth 3 nStages 0%Z)
             (nth 3 nStages 0%Z, num_classes)).

(** [WideResNet28(structure_type='B', **kwargs)] *)
Definition WideResNet28 (structure_type : option string) (kw : kwargs) : option Wide_ResNet :=
  Wide_ResNet_init 28 2 0%R 10 structure_type kw.

(** ** Names used in the statements *)

(** All the blocks of a network, in the order [forward] runs them *)
Definition blocks (net : Wide_ResNet) : list wide_basic :=
  net.(layer1) ++ net.(layer2) ++ net.(layer3).

(** The channels a block takes and returns *)
Definition block_in (b : wide_basic) : Z := b.(conv1).(in_channels).
Definition block_out (b : wide_basic) : Z := b.(conv2).(out_channels).

(** Inside a block the layers fit: [bn1] and [conv1] take the block's input
    channels, [bn2] and [conv2] take what [conv1] returns, and a shortcut
    convolution maps the input channels to the output channels. *)
Definition block_fits (b : wide_basic) : Prop :=
  b.(bn1) = b.(conv1).(in_channels)
  /\ b.(bn2) = b.(conv1).(out_channels)
  /\ b.(conv2).(in_channels) = b.(conv1).(out_channels)
  /\ Forall (fun c => c.(in_channels) = block_in b
                      /\ c.(out_channels) = block_out b) b.(shortcut).

(** A sequence of blocks that takes [c_in] channels and returns [c_out],
    each block taking what the one before returns *)
Fixpoint chained (c_in : Z) (bs : list wide_basic) (c_out : Z) : Prop :=
  match bs with
  | [] => c_in = c_out
  | b :: bs' => block_in b = c_in /\ block_fits b /\ chained (block_out b) bs' c_out
  end.




(** The convolutions of a block, and the class that a structure type
    selects *)
Definition block_convs (b : wide_basic) : list conv :=
  b.(conv1) :: b.(conv2) :: b.(shortcut).

Definition structure_class (structure_type : option string) : conv_class :=
  match structure_type with
  | Some s => if String.eqb s "B" then ButterflyConv2d
              else if String.eqb s "LR" then LowRankConv2d
              else Conv2d
  | None => Conv2d
  end.


End WideResNet.

(** * Properties *)

(** ** Fallible computations and lists *)

Lemma mapM_total {X Y : Type} (f : X -> option Y) (g : X -> Y) (l : list X) :
  (forall x, In x l -> f x = Some (g x)) -> mapM f l = Some (map g l).
Proof.
  induction l as [|x l IH]; intros Hf; simpl; [reflexivity|].
  rewrite (Hf x) by (left; reflexivity). simpl.
  rewrite IH by (intros y Hy; apply Hf; right; exact Hy).
  reflexivity.
Qed.

Lemma mapM_length {X Y : Type} (f : X -> option Y) (l : list X) (r : list Y) :
  mapM f l = Some r -> length r = length l.
Proof.
  revert r; induction l as [|x l IH]; intros r; simpl.
  - intros E; inversion E; reflexivity.
  - destruct (f x) as [y|]; simpl; [|discriminate].
    destruct (mapM f l) as [ys|]; simpl; [|discriminate].
    intros E; inversion E; subst; simpl. rewrite (IH ys); reflexivity.
Qed.

Lemma mapM_ext {X Y : Type} (f g : X -> option Y) (l : list X) :
  (forall x, In x l -> f x = g x) -> mapM f l = mapM g l.
Proof.
  induction l as [|x l IH]; intros Hf; simpl; [reflexivity|].
  rewrite (Hf x) by (left; reflexivity).
  rewrite IH by (intros y Hy; apply Hf; right; exact Hy).
  reflexivity.
Qed.

Lemma mapM_map {X Y Z : Type} (f : Y -> option Z) (g : X -> Y) (l : list X) :
  mapM f (map g l) = mapM (fun x => f (g x)) l.
Proof.
  induction l as [|x l IH]; simpl; [reflexivity|]. rewrite IH. reflexivity.
Qed.

Lemma mapM_None {X Y : Type} (f : X -> option Y) (l : list X) (x : X) :
  In x l -> f x = None -> mapM f l = None.
Proof.
  induction l as [|y l IH]; simpl; [tauto|].
  intros [E|Hin] Hx.
  - subst y. rewrite Hx. reflexivity.
  - destruct (f y); simpl; [|reflexivity]. rewrite (IH Hin Hx). reflexivity.
Qed.

Lemma zipw_length {X Y Z : Type} (f : X -> Y -> Z) a b :
  length (zipw f a b) = Nat.min (length a) (length b).
Proof. unfold zipw. rewrite length_map, length_combine. reflexivity. Qed.

Lemma zipw_nth {X Y Z : Type} (f : X -> Y -> Z) a b i dx dy dz :
  i < length a -> i < length b ->
  nth i (zipw f a b) dz = f (nth i a dx) (nth i b dy).
Proof.
  unfold zipw. revert b i.
  induction a as [|x a IH]; intros [|y b] [|i]; simpl; intros Ha Hb;
    try lia; [reflexivity|].
  apply IH; lia.
Qed.

Lemma bzipM_total {X : Type} (f : X -> X -> X) (a b : list X) :
  length a = length b ->
  bzipM (fun x y => Some (f x y)) a b = Some (zipw f a b).
Proof.
  intros E. unfold bzipM. rewrite (proj2 (Nat.eqb_eq _ _) E).
  unfold zipw. apply mapM_total. reflexivity.
Qed.

Lemma iaddM_total {X : Type} (f : X -> X -> X) (a b : list X) :
  length a = length b ->
  iaddM (fun x y => Some (f x y)) a b = Some (zipw f a b).
Proof.
  intros E. unfold iaddM. rewrite (proj2 (Nat.eqb_eq _ _) E).
  unfold zipw. apply mapM_total. reflexivity.
Qed.

(** ** Sums, tables and the band matrix over a ring *)

Section RingFacts.

Variable A : Type.
Variables (zero one : A) (add mul sub : A -> A -> A) (opp : A -> A).
Hypothesis Ath : ring_theory zero one add mul sub opp eq.

Add Ring Aring : Ath.

Infix ".+" := add (at level 50, left associativity).
Infix ".*" := mul (at level 40, left associativity).
Notation "'sum'" := (sum_n zero add).
Notation "m [[ i , j ]]" := (ent zero m i j) (at level 1, format "m [[ i ,  j ]]").

Lemma sum_n_ext (f g : nat -> A) n :
  (forall j, j < n -> f j = g j) -> sum f n = sum g n.
Proof.
  induction n as [|n IH]; intros E; simpl; [reflexivity|].
  rewrite IH by (intros; apply E; lia). rewrite E by lia. reflexivity.
Qed.

Lemma sum_n_zero (f : nat -> A) n :
  (forall j, j < n -> f j = zero) -> sum f n = zero.
Proof.
  induction n as [|n IH]; intros E; simpl; [reflexivity|].
  rewrite IH by (intros; apply E; lia). rewrite E by lia. ring.
Qed.

Lemma sum_n_add (f g : nat -> A) n :
  sum (fun j => f j .+ g j) n = sum f n .+ sum g n.
Proof. induction n as [|n IH]; simpl; [|rewrite IH]; ring. Qed.

Lemma sum_n_mul_l (c : A) (f : nat -> A) n :
  sum (fun j => c .* f j) n = c .* sum f n.
Proof. induction n as [|n IH]; simpl; [|rewrite IH]; ring. Qed.

Lemma sum_n_mul_r (c : A) (f : nat -> A) n :
  sum (fun j => f j .* c) n = sum f n .* c.
Proof. induction n as [|n IH]; simpl; [|rewrite IH]; ring. Qed.

Lemma sum_n_single (f : nat -> A) n c :
  c < n -> (forall j, j < n -> j <> c -> f j = zero) -> sum f n = f c.
Proof.
  induction n as [|n IH]; intros Hc E; [lia|]. simpl.
  destruct (Nat.eq_dec c n) as [->|Hne].
  - rewrite sum_n_zero by (intros; apply E; lia). ring.
  - rewrite IH by (try lia; intros; apply E; lia).
    rewrite (E n) by lia. ring.
Qed.

Lemma sum_n_swap (f : nat -> nat -> A) n m :
  sum (fun i => sum (fun j => f i j) m) n = sum (fun j => sum (fun i => f i j) n) m.
Proof.
  induction n as [|n IH]; simpl.
  - symmetry. apply sum_n_zero. reflexivity.
  - rewrite IH, <- sum_n_add. reflexivity.
Qed.

Lemma sum_n_shift (f : nat -> A) n :
  sum f (S n) = f O .+ sum (fun j => f (S j)) n.
Proof.
  induction n as [|n IH]; [simpl; ring|].
  change (sum f (S (S n))) with (sum f (S n) .+ f (S n)).
  rewrite IH. simpl. ring.
Qed.

Lemma dot_sum (a b : list A) n :
  length a = n -> length b = n ->
  dot zero add mul a b = sum (fun j => nth j a zero .* nth j b zero) n.
Proof.
  revert b n; induction a as [|x a IH]; intros [|y b] [|n] Ha Hb;
    simpl in Ha, Hb; try discriminate; [reflexivity|].
  rewrite sum_n_shift. unfold dot in *. simpl.
  rewrite (IH b n) by lia. reflexivity.
Qed.

(** Matrices as tables of entries *)

Lemma tab_ent r c (f : nat -> nat -> A) i j :
  i < r -> j < c -> (tab r c f)[[i, j]] = f i j.
Proof.
  intros Hi Hj. unfold ent, tab.
  rewrite (nth_indep _ [] (map (fun j => f 0%nat j) (seq 0 c)))
    by (rewrite length_map, length_seq; lia).
  rewrite (map_nth (fun i => map (fun j => f i j) (seq 0 c)) (seq 0 r) 0%nat i).
  rewrite seq_nth by lia. simpl.
  rewrite (nth_indep _ zero (f i 0%nat)) by (rewrite length_map, length_seq; lia).
  rewrite (map_nth (fun j => f i j) (seq 0 c) 0%nat j).
  rewrite seq_nth by lia. reflexivity.
Qed.

Lemma tab_rect r c (f : nat -> nat -> A) : rect r c (tab r c f).
Proof.
  split; unfold tab.
  - rewrite length_map, length_seq. reflexivity.
  - apply Forall_forall. intros row Hin. apply in_map_iff in Hin.
    destruct Hin as (i & <- & _). rewrite length_map, length_seq. reflexivity.
Qed.

Lemma tab_ext r c (f g : nat -> nat -> A) :
  (forall i j, i < r -> j < c -> f i j = g i j) -> tab r c f = tab r c g.
Proof.
  intros E. unfold tab. apply map_ext_in. intros i Hi. apply in_seq in Hi.
  apply map_ext_in. intros j Hj. apply in_seq in Hj. apply E; lia.
Qed.

Lemma list_tab (l : list A) n :
  length l = n -> l = map (fun j => nth j l zero) (seq 0 n).
Proof.
  intros E. apply (nth_ext _ _ zero zero).
  - rewrite length_map, length_seq. exact E.
  - intros i Hi.
    rewrite (nth_indep (map _ _) zero (nth 0%nat l zero))
      by (rewrite length_map, length_seq; lia).
    rewrite (map_nth (fun j => nth j l zero) (seq 0 n) 0%nat i).
    rewrite seq_nth by lia. reflexivity.
Qed.

Lemma list_tab_gen {X Y : Type} (g : X -> Y) (l : list X) n (d : X) :
  length l = n -> map g l = map (fun i => g (nth i l d)) (seq 0 n).
Proof.
  intros E. subst n. induction l as [|x l IH]; simpl; [reflexivity|].
  f_equal. rewrite IH. rewrite <- seq_shift, map_map. reflexivity.
Qed.

Lemma rect_nth r c (m : list (list A)) i :
  rect r c m -> i < r -> length (nth i m []) = c.
Proof.
  intros [Hl Hf] Hi. rewrite Forall_forall in Hf. apply Hf.
  apply nth_In. lia.
Qed.

Lemma mat_tab r c (m : list (list A)) :
  rect r c m -> m = tab r c (fun i j => m[[i, j]]).
Proof.
  intros Hm. pose proof Hm as [Hl Hf]. unfold tab, ent.
  apply (nth_ext _ _ [] []).
  - rewrite length_map, length_seq. exact Hl.
  - intros i Hi.
    rewrite (nth_indep (map _ _) [] (map (fun j => nth j (nth 0%nat m []) zero) (seq 0 c)))
      by (rewrite length_map, length_seq; lia).
    rewrite (map_nth (fun i => map (fun j => nth j (nth i m []) zero) (seq 0 c))
                     (seq 0 r) 0%nat i).
    rewrite seq_nth by lia. simpl.
    apply list_tab. apply (rect_nth Hm). lia.
Qed.


Lemma transpose_tab r c (m : list (list A)) :
  rect r c m -> 0 < r ->
  transpose zero m = tab c r (fun i j => m[[j, i]]).
Proof.
  intros Hm Hr. pose proof Hm as [Hl Hf]. unfold transpose, tab.
  assert (Hc : ncols m = c).
  { destruct m as [|row m']; simpl in *; [lia|]. inversion Hf; assumption. }
  rewrite Hc. apply map_ext. intros j.
  rewrite (list_tab_gen (fun row => nth j row zero) m [] Hl). reflexivity.
Qed.

Lemma matmul_tab p q r (a b : list (list A)) :
  rect p q a -> rect q r b -> 0 < q ->
  matmul zero add mul a b
  = Some (tab p r (fun i j => sum (fun l => a[[i, l]] .* b[[l, j]]) q)).
Proof.
  intros Ha Hb Hq. pose proof Ha as [Hla Hfa]. pose proof Hb as [Hlb Hfb].
  unfold matmul.
  replace (forallb _ a) with true.
  2:{ symmetry. apply forallb_forall. intros row Hin.
      rewrite Forall_forall in Hfa. rewrite (Hfa row Hin), Hlb.
      apply Nat.eqb_refl. }
  f_equal. rewrite (transpose_tab Hb Hq). unfold tab at 2.
  rewrite (list_tab_gen (fun row => map (dot zero add mul row) (tab r q (fun i j => b[[j, i]]))) a [] Hla).
  apply map_ext_in. intros i Hi. apply in_seq in Hi.
  unfold tab. rewrite map_map. apply map_ext_in. intros j Hj. apply in_seq in Hj.
  rewrite (@dot_sum _ _ q).
  - apply sum_n_ext. intros l Hl. f_equal.
    rewrite (nth_indep _ zero (b[[0%nat, j]])) by (rewrite length_map, length_seq; lia).
    rewrite (map_nth (fun j0 => b[[j0, j]]) (seq 0 q) 0%nat l).
    rewrite seq_nth by lia. reflexivity.
  - apply (rect_nth Ha). lia.
  - rewrite length_map, length_seq. reflexivity.
Qed.


Lemma zipw_tab {X Y : Type} (f : X -> Y -> A) (a : list X) (b : list Y) n dx dy :
  length a = n -> length b = n ->
  zipw f a b = map (fun i => f (nth i a dx) (nth i b dy)) (seq 0 n).
Proof.
  intros Ha Hb. apply (nth_ext _ _ zero zero).
  - rewrite zipw_length, length_map, length_seq. lia.
  - intros i Hi. rewrite zipw_length in Hi.
    rewrite (zipw_nth f a b dx dy zero) by lia.
    rewrite (nth_indep (map _ _) zero (f (nth 0%nat a dx) (nth 0%nat b dy)))
      by (rewrite length_map, length_seq; lia).
    rewrite (map_nth (fun i => f (nth i a dx) (nth i b dy)) (seq 0 n) 0%nat i).
    rewrite seq_nth by lia. reflexivity.
Qed.

Lemma vmul_total (a b : list A) :
  length a = length b -> vmul mul a b = Some (zipw mul a b).
Proof. intros E. apply (bzipM_total mul a b E). Qed.

Lemma vadd_total (a b : list A) :
  length a = length b -> vadd add a b = Some (zipw add a b).
Proof. intros E. apply (bzipM_total add a b E). Qed.

Lemma madd_tab r c (a b : list (list A)) :
  rect r c a -> rect r c b ->
  madd add a b = Some (tab r c (fun i j => a[[i, j]] .+ b[[i, j]])).
Proof.
  intros Ha Hb. pose proof Ha as [Hla Hfa]. pose proof Hb as [Hlb Hfb].
  unfold madd, bzipM. replace (length a =? length b) with true
    by (symmetry; apply Nat.eqb_eq; lia).
  rewrite (mapM_total _ (fun p => zipw add (fst p) (snd p))).
  2:{ intros [x y] Hin. simpl. apply vadd_total.
      rewrite Forall_forall in Hfa, Hfb.
      rewrite (Hfa x) by (eapply in_combine_l; eassumption).
      rewrite (Hfb y) by (eapply in_combine_r; eassumption). reflexivity. }
  f_equal. change (map (fun p => zipw add (fst p) (snd p)) (combine a b))
    with (zipw (zipw add) a b).
  unfold tab. apply (nth_ext _ _ [] []).
  - rewrite zipw_length, length_map, length_seq. lia.
  - intros i Hi. rewrite zipw_length in Hi.
    rewrite (zipw_nth (zipw add) a b [] [] []) by lia.
    rewrite (nth_indep (map _ _) [] (map (fun j => a[[0%nat, j]] .+ b[[0%nat, j]]) (seq 0 c)))
      by (rewrite length_map, length_seq; lia).
    rewrite (map_nth (fun i => map (fun j => a[[i, j]] .+ b[[i, j]]) (seq 0 c))
                     (seq 0 r) 0%nat i).
    rewrite seq_nth by lia. simpl.
    apply zipw_tab; [apply (rect_nth Ha)|apply (rect_nth Hb)]; lia.
Qed.

(** The band matrix, entry by entry *)

Lemma band_matrix_tab (d s u : list A) n k :
  0 < k -> k < n -> length d = n -> length s = n - k -> length u = n - k ->
  band_matrix zero add d s u (Z.of_nat k) = Some (tab n n (band_ent zero add d s u k)).
Proof.
  intros Hk Hkn Hd Hs Hu. unfold band_matrix.
  assert (E1 : torch_diag zero d 0 = tab n n (fun i j => if j =? i then nth i d zero else zero)).
  { unfold torch_diag. rewrite Hd. simpl Z.abs_nat. rewrite Nat.add_0_r.
    apply tab_ext. intros i j Hi Hj.
    destruct (Z.eqb_spec (Z.of_nat j - Z.of_nat i) 0), (Nat.eqb_spec j i);
      try lia; reflexivity. }
  assert (E2 : torch_diag zero s (- Z.of_nat k)
               = tab n n (fun i j => if i =? j + k then nth j s zero else zero)).
  { unfold torch_diag. rewrite Hs.
    replace (n - k + Z.abs_nat (- Z.of_nat k)) with n by lia.
    apply tab_ext. intros i j Hi Hj.
    destruct (Z.eqb_spec (Z.of_nat j - Z.of_nat i) (- Z.of_nat k)),
      (Nat.eqb_spec i (j + k)); try lia; [|reflexivity].
    destruct (Z.leb_spec 0 (- Z.of_nat k)); [lia|reflexivity]. }
  assert (E3 : torch_diag zero u (Z.of_nat k)
               = tab n n (fun i j => if j =? i + k then nth i u zero else zero)).
  { unfold torch_diag. rewrite Hu.
    replace (n - k + Z.abs_nat (Z.of_nat k)) with n by lia.
    apply tab_ext. intros i j Hi Hj.
    destruct (Z.eqb_spec (Z.of_nat j - Z.of_nat i) (Z.of_nat k)),
      (Nat.eqb_spec j (i + k)); try lia; [|reflexivity].
    destruct (Z.leb_spec 0 (Z.of_nat k)); [reflexivity|lia]. }
  rewrite E1, E2, E3.
  rewrite (madd_tab (tab_rect n n _) (tab_rect n n _)). simpl.
  rewrite (madd_tab (tab_rect n n _) (tab_rect n n _)). f_equal.
  apply tab_ext. intros i j Hi Hj. rewrite !tab_ent by lia. reflexivity.
Qed.


Lemma py_bound_nat len k : k <= len -> py_bound len (Z.of_nat k) = k.
Proof.
  intros H. unfold py_bound.
  destruct (Z.ltb_spec (Z.of_nat k) 0); lia.
Qed.

Lemma py_bound_neg len k :
  0 < k -> k <= len -> py_bound len (- Z.of_nat k) = len - k.
Proof.
  intros H0 H. unfold py_bound.
  destruct (Z.ltb_spec (- Z.of_nat k) 0); lia.
Qed.

(** The direct application, entry by entry *)

Lemma band_forward_row_tab (d s u x : list A) n k :
  0 < k -> k < n -> length d = n -> length s = n - k -> length u = n - k ->
  length x = n ->
  band_forward_row add mul d s u (Z.of_nat k) x
  = Some (map (band_apply zero add mul d s u x n k) (seq 0 n)).
Proof.
  intros Hk Hkn Hd Hs Hu Hx. unfold band_forward_row, slice_to, slice_from.
  rewrite Hx, py_bound_nat, py_bound_neg by lia.
  rewrite (vmul_total d x) by lia. simpl.
  rewrite (vmul_total s (firstn (n - k) x)) by (rewrite length_firstn; lia). simpl.
  set (out0 := zipw mul d x). set (lo := zipw mul s (firstn (n - k) x)).
  assert (L0 : length out0 = n) by (unfold out0; rewrite zipw_length; lia).
  assert (Llo : length lo = n - k)
    by (unfold lo; rewrite zipw_length, length_firstn; lia).
  unfold iadd_from. rewrite L0, py_bound_nat by lia.
  rewrite (iaddM_total add) by (rewrite length_skipn; lia). simpl.
  set (out1 := firstn k out0 ++ zipw add (skipn k out0) lo).
  assert (L1 : length out1 = n).
  { unfold out1. rewrite length_app, length_firstn, zipw_length, length_skipn. lia. }
  rewrite (vmul_total u (skipn k x)) by (rewrite length_skipn; lia). simpl.
  set (hi := zipw mul u (skipn k x)).
  assert (Lhi : length hi = n - k)
    by (unfold hi; rewrite zipw_length, length_skipn; lia).
  unfold iadd_to. rewrite L1, py_bound_neg by lia.
  rewrite (iaddM_total add) by (rewrite length_firstn; lia). simpl.
  f_equal.
  assert (N0 : forall i, i < n -> nth i out0 zero = nth i d zero .* nth i x zero).
  { intros i Hi. unfold out0. apply zipw_nth; lia. }
  assert (N1 : forall i, i < n ->
             nth i out1 zero
             = if k <=? i
               then nth i d zero .* nth i x zero
                    .+ nth (i - k) s zero .* nth (i - k) x zero
               else nth i d zero .* nth i x zero).
  { intros i Hi. unfold out1. destruct (Nat.leb_spec k i).
    - rewrite app_nth2 by (rewrite length_firstn; lia).
      rewrite length_firstn. replace (Nat.min k (length out0)) with k by lia.
      rewrite (zipw_nth add _ _ zero zero zero)
        by (rewrite ?length_skipn; lia).
      rewrite nth_skipn. replace (k + (i - k)) with i by lia.
      rewrite N0 by lia. unfold lo.
      rewrite (zipw_nth mul _ _ zero zero zero)
        by (rewrite ?length_firstn; lia).
      rewrite nth_firstn.
      destruct (Nat.ltb_spec (i - k) (n - k)); [reflexivity|lia].
    - rewrite app_nth1 by (rewrite length_firstn; lia).
      rewrite nth_firstn. destruct (Nat.ltb_spec i k); [|lia].
      apply N0; lia. }
  apply (nth_ext _ _ zero zero).
  - rewrite length_app, zipw_length, length_firstn, length_skipn,
      length_map, length_seq. lia.
  - intros i Hi.
    rewrite length_app, zipw_length, length_firstn, length_skipn in Hi.
    assert (Hin : i < n) by lia.
    rewrite (nth_indep (map _ _) zero (band_apply zero add mul d s u x n k 0%nat))
      by (rewrite length_map, length_seq; lia).
    rewrite (map_nth (band_apply zero add mul d s u x n k) (seq 0 n) 0%nat i).
    rewrite seq_nth by lia. simpl. unfold band_apply.
    destruct (Nat.ltb_spec (i + k) n).
    + rewrite app_nth1 by (rewrite zipw_length, length_firstn; lia).
      rewrite (zipw_nth add _ _ zero zero zero)
        by (rewrite ?length_firstn; lia).
      rewrite nth_firstn. destruct (Nat.ltb_spec i (n - k)); [|lia].
      rewrite N1 by lia. unfold hi.
      rewrite (zipw_nth mul _ _ zero zero zero)
        by (rewrite ?length_skipn; lia).
      rewrite nth_skipn. replace (k + i) with (i + k) by lia.
      destruct (k <=? i); ring.
    + rewrite app_nth2 by (rewrite zipw_length, length_firstn; lia).
      rewrite zipw_length, length_firstn, nth_skipn.
      replace (n - k + (i - Nat.min (Nat.min (n - k) (length out1)) (length hi)))
        with i by lia.
      rewrite N1 by lia. destruct (k <=? i); ring.
Qed.

(** The direct application of a band factor to a row is the product of the
    row with the transposed band matrix. *)
Ltac delta_side :=
  solve [ lia
        | intros; cbv beta;
          match goal with
          | |- context [Nat.eqb ?a ?b] => destruct (Nat.eqb_spec a b)
          end; [lia | ring] ].

Lemma band_apply_dot (d s u x : list A) n k i :
  0 < k -> k < n -> i < n ->
  band_apply zero add mul d s u x n k i
  = sum (fun l => nth l x zero .* band_ent zero add d s u k i l) n.
Proof.
  intros Hk Hkn Hi. unfold band_apply, band_ent.
  rewrite (sum_n_ext _ (fun l =>
     (nth l x zero .* (if l =? i then nth i d zero else zero))
     .+ (nth l x zero .* (if i =? l + k then nth l s zero else zero))
     .+ (nth l x zero .* (if l =? i + k then nth i u zero else zero))))
    by (intros; ring).
  rewrite !sum_n_add.
  rewrite (sum_n_single _ (c := i)) by
    delta_side.
  rewrite Nat.eqb_refl.
  destruct (Nat.leb_spec k i).
  - rewrite (sum_n_single _ (c := i - k)) by
      delta_side.
    replace (i =? i - k + k) with true by (symmetry; apply Nat.eqb_eq; lia).
    destruct (Nat.ltb_spec (i + k) n).
    + rewrite (sum_n_single _ (c := i + k)) by
        delta_side.
      rewrite Nat.eqb_refl. ring.
    + rewrite (sum_n_zero (fun l => _ .* (if l =? i + k then _ else _))) by
        delta_side.
      ring.
  - rewrite (sum_n_zero (fun l => _ .* (if i =? l + k then _ else _))) by
      delta_side.
    destruct (Nat.ltb_spec (i + k) n).
    + rewrite (sum_n_single _ (c := i + k)) by
        delta_side.
      rewrite Nat.eqb_refl. ring.
    + rewrite (sum_n_zero (fun l => _ .* (if l =? i + k then _ else _))) by
        delta_side.
      ring.
Qed.


Lemma band_forward_tab (d s u : list A) n k b (x : list (list A)) :
  0 < k -> k < n -> length d = n -> length s = n - k -> length u = n - k ->
  rect b n x ->
  band_forward add mul d s u (Z.of_nat k) x
  = Some (tab b n (fun r i =>
                     sum (fun l => x[[r, l]] .* band_ent zero add d s u k i l) n)).
Proof.
  intros Hk Hkn Hd Hs Hu [Hb Hx]. unfold band_forward.
  rewrite (mapM_total _ (fun row => map (band_apply zero add mul d s u row n k) (seq 0 n))).
  2:{ intros row Hin. rewrite Forall_forall in Hx.
      apply band_forward_row_tab; auto. }
  f_equal. rewrite (list_tab_gen _ x [] Hb). unfold tab.
  apply map_ext_in. intros r Hr. apply map_ext_in. intros i Hi.
  apply in_seq in Hi. apply band_apply_dot; lia.
Qed.

Lemma matmul_transpose_tab p n (x m : list (list A)) :
  rect p n x -> rect n n m -> 0 < n ->
  matmul zero add mul x (transpose zero m)
  = Some (tab p n (fun r i => sum (fun l => x[[r, l]] .* m[[i, l]]) n)).
Proof.
  intros Hx Hm Hn. rewrite (transpose_tab Hm Hn).
  rewrite (matmul_tab Hx (tab_rect n n _) Hn). f_equal.
  apply tab_ext. intros r i Hr Hi. apply sum_n_ext. intros l Hl.
  rewrite tab_ent by lia. reflexivity.
Qed.

(** A band factor applied directly is the input times its transposed
    matrix. *)
Lemma band_forward_matmul (d s u : list A) n k b (x : list (list A)) :
  0 < k -> k < n -> length d = n -> length s = n - k -> length u = n - k ->
  rect b n x ->
  exists m y,
    band_matrix zero add d s u (Z.of_nat k) = Some m
    /\ rect n n m
    /\ band_forward add mul d s u (Z.of_nat k) x = Some y
    /\ rect b n y
    /\ matmul zero add mul x (transpose zero m) = Some y.
Proof.
  intros Hk Hkn Hd Hs Hu Hx.
  exists (tab n n (band_ent zero add d s u k)).
  exists (tab b n (fun r i => sum (fun l => x[[r, l]] .* band_ent zero add d s u k i l) n)).
  split; [apply band_matrix_tab; assumption|].
  split; [apply tab_rect|].
  split; [apply band_forward_tab; assumption|].
  split; [apply tab_rect|].
  rewrite (matmul_transpose_tab Hx (tab_rect n n _)) by lia. f_equal.
  apply tab_ext. intros r i Hr Hi. apply sum_n_ext. intros l Hl.
  rewrite tab_ent by lia. reflexivity.
Qed.

(** *** Products of matrices *)

Notation "'mm'" := (mmul zero add mul).
Notation "'mmT'" := (mmulT zero add mul).

Lemma rect_ncols r c (m : list (list A)) : rect r c m -> 0 < r -> ncols m = c.
Proof.
  intros [Hl Hf] Hr. destruct m as [|row m]; simpl in *; [lia|].
  inversion Hf; assumption.
Qed.

Lemma matmul_mmul p q r (a b : list (list A)) :
  rect p q a -> rect q r b -> 0 < q ->
  matmul zero add mul a b = Some (mm a b).
Proof.
  intros Ha Hb Hq. rewrite (matmul_tab Ha Hb Hq). unfold mmul.
  destruct Ha as [-> _]. rewrite (rect_ncols Hb Hq). destruct Hb as [-> _].
  reflexivity.
Qed.

Lemma matmul_mmulT p n k (x m : list (list A)) :
  rect p n x -> rect k n m -> 0 < n -> 0 < k ->
  matmul zero add mul x (transpose zero m) = Some (mmT x m).
Proof.
  intros Hx Hm Hn Hk. rewrite (transpose_tab Hm Hk).
  rewrite (matmul_tab Hx (tab_rect n k _) Hn). unfold mmulT.
  rewrite (rect_ncols Hm Hk). destruct Hx as [-> _]. destruct Hm as [-> _].
  f_equal. apply tab_ext. intros r i Hr Hi. apply sum_n_ext. intros l Hl.
  rewrite tab_ent by lia. reflexivity.
Qed.

Lemma mmulT_ent p n k (x m : list (list A)) r i :
  rect p n x -> rect k n m -> 0 < k -> r < p -> i < k ->
  (mmT x m)[[r, i]] = sum (fun l => x[[r, l]] .* m[[i, l]]) n.
Proof.
  intros [Hx _] Hm Hk Hr Hi. unfold mmulT.
  rewrite (rect_ncols Hm Hk). destruct Hm as [Hm _].
  rewrite tab_ent by lia. reflexivity.
Qed.

Lemma mmul_ent p q r (a b : list (list A)) i j :
  rect p q a -> rect q r b -> 0 < q -> i < p -> j < r ->
  (mm a b)[[i, j]] = sum (fun l => a[[i, l]] .* b[[l, j]]) q.
Proof.
  intros [Ha _] Hb Hq Hi Hj. unfold mmul.
  rewrite (rect_ncols Hb Hq). destruct Hb as [Hb _].
  rewrite tab_ent by lia. rewrite Hb. reflexivity.
Qed.

Lemma mmulT_rect p n k (x m : list (list A)) :
  rect p n x -> rect k n m -> rect p k (mmT x m).
Proof. intros [<- _] [<- _]. apply tab_rect. Qed.

Lemma mmul_rect p q r (a b : list (list A)) :
  rect p q a -> rect q r b -> 0 < q -> rect p r (mm a b).
Proof.
  intros [<- _] Hb Hq. unfold mmul. rewrite (rect_ncols Hb Hq). apply tab_rect.
Qed.

(** [(x @ m2.t()) @ m1.t() = x @ (m1 @ m2).t()] *)
Lemma mmulT_mmul p n (x m1 m2 : list (list A)) :
  rect p n x -> rect n n m1 -> rect n n m2 -> 0 < n ->
  mmT (mmT x m2) m1 = mmT x (mm m1 m2).
Proof.
  intros Hx H1 H2 Hn.
  pose proof (mmulT_rect Hx H2) as Hy.
  pose proof (mmul_rect H1 H2 Hn) as Hp.
  rewrite (mat_tab (mmulT_rect Hy H1)).
  rewrite (mat_tab (mmulT_rect Hx Hp)).
  apply tab_ext. intros r i Hr Hi.
  rewrite (mmulT_ent Hy H1), (mmulT_ent Hx Hp) by lia.
  rewrite (sum_n_ext _ (fun l => sum (fun j => x[[r, j]] .* m2[[l, j]] .* m1[[i, l]]) n)).
  2:{ intros l Hl. rewrite (mmulT_ent Hx H2) by lia.
      rewrite <- sum_n_mul_r. reflexivity. }
  rewrite sum_n_swap. apply sum_n_ext. intros j Hj.
  rewrite (mmul_ent H1 H2) by lia.
  rewrite <- sum_n_mul_l. apply sum_n_ext. intros l Hl. ring.
Qed.

(** [x @ (q_0 m_0 + q_1 m_1 + ...).t() = q_0 (x @ m_0.t()) + ...] *)
Lemma mmulT_lincomb p n (x : list (list A)) (q : list A)
      (ms : list (list (list A))) :
  rect p n x -> Forall (rect n n) ms -> 0 < n ->
  mmT x (lincomb zero add mul n n q ms)
  = lincomb zero add mul p n q (map (mmT x) ms).
Proof.
  intros Hx Hms Hn.
  assert (HL : rect n n (lincomb zero add mul n n q ms)) by apply tab_rect.
  rewrite (mat_tab (mmulT_rect Hx HL)).
  unfold lincomb at 2. rewrite length_map.
  apply tab_ext. intros r i Hr Hi.
  rewrite (mmulT_ent Hx HL) by lia.
  rewrite (sum_n_ext _ (fun l => sum (fun j => x[[r, l]]
               .* (nth j q zero .* (nth j ms [])[[i, l]])) (length ms))).
  2:{ intros l Hl. unfold lincomb. rewrite tab_ent by lia.
      rewrite <- sum_n_mul_l. reflexivity. }
  rewrite sum_n_swap. apply sum_n_ext. intros j Hj.
  rewrite (nth_indep (map (mmT x) ms) [] (mmT x []))
    by (rewrite length_map; lia).
  rewrite (map_nth (mmT x) ms [] j).
  assert (Hj' : rect n n (nth j ms [])).
  { rewrite Forall_forall in Hms. apply Hms. apply nth_In. exact Hj. }
  rewrite (mmulT_ent Hx Hj') by lia. rewrite <- sum_n_mul_l.
  apply sum_n_ext. intros l Hl. ring.
Qed.

(** The product of a list of matrices applied factor by factor, last
    factor first, is the application of the product. *)
Lemma fold_mmulT p n (x m : list (list A)) (ms : list (list (list A))) :
  rect p n x -> rect n n m -> Forall (rect n n) ms -> 0 < n ->
  rect n n (fold_left mm ms m)
  /\ fold_left (fun out a => mmT out a) (rev (m :: ms)) x
     = mmT x (fold_left mm ms m).
Proof.
  intros Hx Hm Hms Hn. revert x Hx.
  induction ms as [|a ms IH] using rev_ind; intros x Hx.
  - simpl. split; [exact Hm|reflexivity].
  - apply Forall_app in Hms. destruct Hms as [Hms Ha].
    inversion Ha as [|a' l' Ha' _]; subst.
    rewrite fold_left_app. cbn [fold_left].
    destruct (IH Hms x Hx) as [Hp _]. split.
    + apply (mmul_rect Hp Ha' Hn).
    + change (m :: ms ++ [a]) with ((m :: ms) ++ [a]).
      rewrite rev_app_distr. cbn [rev app fold_left].
      change (rev ms ++ [m]) with (rev (m :: ms)).
      destruct (IH Hms (mmT x a) (mmulT_rect Hx Ha')) as [_ ->].
      apply (mmulT_mmul Hx Hp Ha' Hn).
Qed.

End RingFacts.

(** ** Complex numbers form a ring *)

Lemma Cth : ring_theory c0 c1 cadd cmul csub copp eq.
Proof.
  constructor; intros; repeat match goal with x : C |- _ => destruct x end;
    unfold c0, c1, cadd, cmul, csub, copp; simpl; f_equal; ring.
Qed.

(** ** Butterfly factors *)

Lemma combine_map {X Y Z : Type} (f : X -> Y) (g : X -> Z) (l : list X) :
  combine (map f l) (map g l) = map (fun x => (f x, g x)) l.
Proof. induction l as [|x l IH]; simpl; [|rewrite IH]; reflexivity. Qed.

Lemma diag_embed_t_diag (v : list C) (k : Z) :
  diag_embed_t v k = torch_diag c0 v k.
Proof.
  unfold diag_embed_t, planes, torch_diag. cbn [nth].
  rewrite !length_map. rewrite combine_map, map_map. cbn [fst snd].
  apply map_ext. intros i. rewrite combine_map. apply map_ext. intros j.
  destruct (Z.of_nat j - Z.of_nat i =? k)%Z; [|reflexivity].
  change 0%R with (fst c0) at 1. change 0%R with (snd c0).
  rewrite !map_nth. symmetry. apply surjective_pairing.
Qed.

Lemma shape_real (t : tensor) (n : Z) :
  shape_eqb (shape t) [n] = true ->
  exists v, t = TReal v /\ Z.of_nat (length v) = n.
Proof.
  destruct t as [v|v]; unfold shape_eqb; simpl; [|discriminate].
  rewrite andb_true_r. intros E. apply Z.eqb_eq in E. eauto.
Qed.

Lemma shape_cplx (t : tensor) (n : Z) :
  shape_eqb (shape t) [n; 2%Z] = true ->
  exists v, t = TCplx v /\ Z.of_nat (length v) = n.
Proof.
  destruct t as [v|v]; unfold shape_eqb; simpl; [discriminate|].
  rewrite andb_true_r. intros E. apply Z.eqb_eq in E. eauto.
Qed.

Lemma Forall_length_nat {X : Type} (m : list (list X)) (n : Z) :
  Forall (fun row => Z.of_nat (length row) = n) m ->
  Forall (fun row => length row = Z.to_nat n) m.
Proof. apply Forall_impl. intros row E. lia. Qed.

(** ** Construction *)

Lemma pair_up_length (l : list R) (n : nat) :
  length l = 2 * n -> length (pair_up l) = n.
Proof.
  intros E. unfold pair_up. rewrite length_map, length_seq, E.
  rewrite Nat.mul_comm. apply Nat.div_mul. lia.
Qed.

Lemma shape_eqb_refl (s : list Z) : shape_eqb s s = true.
Proof.
  unfold shape_eqb. rewrite Nat.eqb_refl. simpl.
  induction s as [|x s IH]; simpl; [reflexivity|].
  rewrite Z.eqb_refl. exact IH.
Qed.

Lemma param_spec (given : option tensor) (n : Z) (cplx : bool) (g : rng) :
  match Butterfly.param given (diag_shape n cplx) g with
  | Some (p, _) =>
      param_ok given (diag_shape n cplx) = true
      /\ shape_eqb (shape p) (diag_shape n cplx) = true
      /\ (forall q, given = Some q -> p = q)
  | None => param_ok given (diag_shape n cplx) = false
  end.
Proof.
  destruct given as [p|]; unfold Butterfly.param, param_ok.
  - unfold bind, assert.
    destruct (shape_eqb (shape p) (diag_shape n cplx)) eqn:E; cbn.
    + split; [reflexivity|]. split; [exact E|]. intros q Hq. inversion Hq. reflexivity.
    + reflexivity.
  - destruct cplx; unfold diag_shape, randn; cbn [forallb];
      destruct (Z.ltb_spec n 0); destruct (Z.leb_spec 0 n); try lia;
      unfold bind, draw, ret, fail; cbn [andb]; try reflexivity.
    + split; [reflexivity|]. split; [|discriminate].
      unfold shape_eqb, shape.
      rewrite pair_up_length with (n := Z.to_nat n)
        by (rewrite length_map, length_seq; reflexivity).
      cbn [length combine forallb fst snd Nat.eqb andb map].
      rewrite Z2Nat.id by lia. rewrite !Z.eqb_refl. reflexivity.
    + split; [reflexivity|]. split; [|discriminate].
      unfold shape_eqb, shape. rewrite length_map, length_seq.
      cbn [length combine forallb fst snd Nat.eqb andb map].
      rewrite Z2Nat.id by lia. rewrite !Z.eqb_refl. reflexivity.
Qed.

Lemma Butterfly_init_spec size k cplx dg sb sp (g : rng) :
  match Butterfly.init size k cplx dg sb sp g with
  | Some (b, _) =>
      ((k < size)%Z
       /\ param_ok dg (diag_shape size cplx) = true
       /\ param_ok sb (diag_shape (size - k) cplx) = true
       /\ param_ok sp (diag_shape (size - k) cplx) = true)
      /\ (b.(Butterfly.size) = size /\ b.(Butterfly.diagonal) = k
          /\ b.(Butterfly.complex) = cplx)
      /\ well_shaped b = true
      /\ ((forall q, dg = Some q -> b.(Butterfly.diag) = q)
          /\ (forall q, sb = Some q -> b.(Butterfly.subdiag) = q)
          /\ (forall q, sp = Some q -> b.(Butterfly.superdiag) = q))
  | None =>
      (size <= k)%Z
      \/ param_ok dg (diag_shape size cplx) = false
      \/ param_ok sb (diag_shape (size - k) cplx) = false
      \/ param_ok sp (diag_shape (size - k) cplx) = false
  end.
Proof.
  unfold Butterfly.init.
  change (if cplx then [size; 2%Z] else [size]) with (diag_shape size cplx).
  change (if cplx then [(size - k)%Z; 2%Z] else [(size - k)%Z])
    with (diag_shape (size - k) cplx).
  unfold bind at 1. unfold assert.
  destruct (Z.ltb_spec k size) as [Hk|Hk]; cbn [ret fail]; [|left; exact Hk].
  cbv zeta. unfold bind at 1.
  pose proof (param_spec dg size cplx g) as H1.
  destruct (Butterfly.param dg (diag_shape size cplx) g) as [[d g1]|];
    [|right; left; exact H1].
  unfold bind at 1.
  pose proof (param_spec sb (size - k) cplx g1) as H2.
  destruct (Butterfly.param sb (diag_shape (size - k) cplx) g1) as [[s g2]|];
    [|right; right; left; exact H2].
  unfold bind at 1.
  pose proof (param_spec sp (size - k) cplx g2) as H3.
  destruct (Butterfly.param sp (diag_shape (size - k) cplx) g2) as [[u g3]|];
    [|right; right; right; exact H3].
  unfold ret.
  destruct H1 as (O1 & S1 & Q1), H2 as (O2 & S2 & Q2), H3 as (O3 & S3 & Q3).
  split; [auto|]. split; [auto|]. split; [|auto].
  unfold well_shaped. cbn [Butterfly.size Butterfly.diagonal Butterfly.complex
    Butterfly.diag Butterfly.subdiag Butterfly.superdiag].
  change (if cplx then [size; 2%Z] else [size]) with (diag_shape size cplx).
  change (if cplx then [(size - k)%Z; 2%Z] else [(size - k)%Z])
    with (diag_shape (size - k) cplx).
  rewrite S1, S2, S3. rewrite (proj2 (Z.ltb_lt _ _) Hk). reflexivity.
Qed.

(** Claim C8, amended.  Construction of a Butterfly factor succeeds exactly
    when [diagonal < size] and each parameter tensor fits: a supplied tensor
    has the expected shape, a drawn one has non-negative dimensions.  The
    factor built has the size and the offset given, and its parameters have
    the expected shapes.  No lower bound on the offset is checked. *)
Theorem Butterfly_init_succeeds_iff size k cplx dg sb sp (g : rng) :
  ((exists b g', Butterfly.init size k cplx dg sb sp g = Some (b, g'))
   <-> ((k < size)%Z
        /\ param_ok dg (diag_shape size cplx) = true
        /\ param_ok sb (diag_shape (size - k) cplx) = true
        /\ param_ok sp (diag_shape (size - k) cplx) = true))
  /\ (forall b g', Butterfly.init size k cplx dg sb sp g = Some (b, g') ->
        b.(Butterfly.size) = size /\ b.(Butterfly.diagonal) = k
        /\ (b.(Butterfly.diagonal) < b.(Butterfly.size))%Z
        /\ well_shaped b = true).
Proof.
  pose proof (Butterfly_init_spec size k cplx dg sb sp g) as H.
  destruct (Butterfly.init size k cplx dg sb sp g) as [[b g1]|].
  - destruct H as (Hc & (Es & Ek & Ec) & Hw & _). split.
    + split; [intros _; exact Hc|intros _; eauto].
    + intros b' g' E. inversion E; subst b' g'. rewrite Es, Ek.
      repeat split; auto. tauto.
  - split.
    + split.
      * intros (b & g' & E). discriminate.
      * intros (Hk & O1 & O2 & O3).
        destruct H as [H|[H|[H|H]]]; [lia|congruence..].
    + intros b g' E. discriminate.
Qed.

(** Against claim C8 as stated: the offset 0 is accepted. *)
Lemma Butterfly_init_zero_diagonal :
  exists b g',
    Butterfly.init 4 0 false None None None (fun _ => 0%R) = Some (b, g')
    /\ ~ (0 < b.(Butterfly.diagonal) < b.(Butterfly.size))%Z.
Proof.
  eexists. eexists. split.
  - cbv -[Rplus Rmult IZR]. reflexivity.
  - cbn. lia.
Qed.

(** Claim C9, amended.  With a [softmax_fn] other than ['softmax'] and
    ['sparsemax'], constructing a composer fails in learned-order mode,
    whatever the other arguments; in fixed-order mode the name is not looked
    at and construction succeeds. *)
Theorem MatrixProduct_init_unknown_softmax
  (F : Type) (HF : Factor F) (sparsemax : softmax_fn_t) (factors : list F)
  (n_terms : option Z) (complex : bool) (softmax_fn : string) (g : rng) :
  known_softmax softmax_fn = false ->
  MatrixProduct.init sparsemax factors n_terms complex false softmax_fn g = None
  /\ exists mp,
      MatrixProduct.init sparsemax factors n_terms complex true softmax_fn g
      = Some (mp, g)
      /\ mp.(MatrixProduct.factors) = factors
      /\ mp.(MatrixProduct.fixed_order) = true.
Proof.
  intros Hs. unfold MatrixProduct.init. cbn [negb]. split.
  - unfold bind, assert. fold (known_softmax softmax_fn). rewrite Hs. reflexivity.
  - eexists. split; [reflexivity|]. split; reflexivity.
Qed.

Lemma MatrixProduct_init_unknown_softmax_witness :
  known_softmax "tanh" = false
  /\ MatrixProduct.init (fun _ => None) ([] : list Butterfly.t) None false false
                        "tanh" (fun _ => 0%R) = None
  /\ exists mp,
      MatrixProduct.init (fun _ => None) ([] : list Butterfly.t) None false true
                         "tanh" (fun _ => 0%R) = Some (mp, fun _ => 0%R)
      /\ mp.(MatrixProduct.factors) = []
      /\ mp.(MatrixProduct.fixed_order) = true.
Proof.
  split; [reflexivity|].
  apply (@MatrixProduct_init_unknown_softmax Butterfly.t _ (fun _ => None) []
           None false "tanh" (fun _ => 0%R)).
  reflexivity.
Defined.

(** Against claim C9 as stated: a fixed-order composer is built with an
    unknown [softmax_fn]. *)
Lemma MatrixProduct_init_fixed_order_unknown_softmax :
  known_softmax "tanh" = false
  /\ exists mp g',
      MatrixProduct.init (fun _ => None) ([] : list Butterfly.t) None false true
                         "tanh" (fun _ => 0%R) = Some (mp, g').
Proof.
  split; [reflexivity|]. eexists. eexists. reflexivity.
Qed.

Lemma mapM_M_Forall2 {X Y : Type} (f : X -> M Y) (l : list X) :
  forall g ys g',
    mapM_M f l g = Some (ys, g') ->
    Forall2 (fun x y => exists g1 g2, f x g1 = Some (y, g2)) l ys.
Proof.
  induction l as [|x l IH]; intros g ys g'; simpl.
  - unfold ret. intros E. inversion E. constructor.
  - unfold bind at 1. destruct (f x g) as [[y g1]|] eqn:Ef; [|discriminate].
    unfold bind at 1. destruct (mapM_M f l g1) as [[ys' g2]|] eqn:El; [|discriminate].
    unfold ret. intros E. inversion E; subst. constructor; eauto.
Qed.

Lemma mapM_M_total {X Y : Type} (f : X -> M Y) (l : list X) :
  (forall x g, In x l -> f x g <> None) ->
  forall g, mapM_M f l g <> None.
Proof.
  induction l as [|x l IH]; intros Hf g; simpl; [discriminate|].
  unfold bind at 1. destruct (f x g) as [[y g1]|] eqn:Ef.
  - unfold bind at 1.
    destruct (mapM_M f l g1) as [[ys g2]|] eqn:El; [discriminate|].
    exfalso. apply (IH (fun x g H => Hf x g (or_intror H)) g1). exact El.
  - exfalso. apply (Hf x g (or_introl eq_refl)). exact Ef.
Qed.

Lemma param_ok_None_diag_shape n cplx :
  (0 <= n)%Z -> param_ok None (diag_shape n cplx) = true.
Proof.
  intros H. destruct cplx; cbn; rewrite ?andb_true_r;
    apply Z.leb_le; exact H.
Qed.

Lemma randn2_Some r c (g : rng) :
  (0 <= r)%Z -> (0 <= c)%Z -> exists m g', randn2 r c g = Some (m, g').
Proof.
  intros Hr Hc. unfold randn2.
  destruct (Z.ltb_spec r 0); [lia|]. destruct (Z.ltb_spec c 0); [lia|].
  cbn [orb]. generalize (Z.to_nat c) as cc. generalize (Z.to_nat r) as rr.
  intros rr cc. revert g. induction rr as [|rr IH]; intros g; simpl.
  - eexists; eexists; reflexivity.
  - unfold bind at 1. cbn [draw]. unfold bind at 1.
    destruct (IH (fun i => g (i + cc))) as (m & g' & E). rewrite E.
    eexists; eexists; reflexivity.
Qed.

Lemma bind_Some {X Y : Type} (c : M X) (f : X -> M Y) (g : rng) y g' :
  bind c f g = Some (y, g') ->
  exists x g1, c g = Some (x, g1) /\ f x g1 = Some (y, g').
Proof.
  unfold bind. destruct (c g) as [[x g1]|]; [|discriminate]. eauto.
Qed.

Lemma assert_Some (b : bool) (g : rng) u g' :
  assert b g = Some (u, g') -> b = true /\ g' = g.
Proof.
  unfold assert. destruct b; unfold ret, fail; [|discriminate].
  intros E. inversion E. auto.
Qed.

Lemma log2_int_Some size (g : rng) m g' :
  ButterflyProduct.log2_int size g = Some (m, g') ->
  g' = g /\ m = Z.log2 size /\ (0 < size)%Z.
Proof.
  unfold ButterflyProduct.log2_int. destruct (Z.leb_spec size 0); unfold ret, fail;
    [discriminate|]. intros E. inversion E. auto.
Qed.

Lemma factors_spec size cplx (m : nat) (g : rng) :
  size = (2 ^ Z.of_nat m)%Z ->
  exists fs g',
    mapM_M (fun i => Butterfly.init size (Z.shiftl 1 (Z.of_nat i)) cplx None None None)
           (rev (seq 0 m)) g = Some (fs, g')
    /\ map Butterfly.diagonal fs = descending_offsets m
    /\ length fs = m
    /\ Forall (fun b => b.(Butterfly.size) = size /\ b.(Butterfly.complex) = cplx
                        /\ well_shaped b = true) fs.
Proof.
  intros Es.
  set (f := fun i => Butterfly.init size (Z.shiftl 1 (Z.of_nat i)) cplx None None None).
  assert (Hin : forall i, In i (rev (seq 0 m)) -> i < m).
  { intros i Hi. apply in_rev, in_seq in Hi. lia. }
  assert (Hf : forall i g0, In i (rev (seq 0 m)) -> f i g0 <> None).
  { intros i g0 Hi E. apply Hin in Hi. unfold f in E.
    pose proof (Butterfly_init_spec size (Z.shiftl 1 (Z.of_nat i)) cplx None None None g0) as H.
    rewrite E in H. rewrite Z.shiftl_1_l in H.
    assert (2 ^ Z.of_nat i < 2 ^ Z.of_nat m)%Z by (apply Z.pow_lt_mono_r; lia).
    assert (0 < 2 ^ Z.of_nat i)%Z by (apply Z.pow_pos_nonneg; lia).
    destruct H as [H|[H|[H|H]]]; [lia|..];
      rewrite param_ok_None_diag_shape in H by lia; discriminate. }
  destruct (mapM_M f (rev (seq 0 m)) g) as [[fs g']|] eqn:E;
    [|exfalso; exact (mapM_M_total f _ Hf g E)].
  exists fs, g'. split; [reflexivity|].
  apply mapM_M_Forall2 in E.
  assert (P : Forall2 (fun i b => b.(Butterfly.diagonal) = (2 ^ Z.of_nat i)%Z
                                  /\ b.(Butterfly.size) = size
                                  /\ b.(Butterfly.complex) = cplx
                                  /\ well_shaped b = true) (rev (seq 0 m)) fs).
  { eapply Forall2_impl; [|exact E]. intros i b (g1 & g2 & Eb). unfold f in Eb.
    pose proof (Butterfly_init_spec size (Z.shiftl 1 (Z.of_nat i)) cplx None None None g1) as H.
    rewrite Eb in H. destruct H as (_ & (H1 & H2 & H3) & H4 & _).
    rewrite Z.shiftl_1_l in H2. auto. }
  clear E. unfold descending_offsets.
  assert (L : length fs = m).
  { apply Forall2_length in P. rewrite length_rev, length_seq in P. lia. }
  split; [|split; [exact L|]]; clear L Hin Hf; revert P;
    generalize (rev (seq 0 m)); intros l P.
  - induction P as [|i b l fs' Hb P IH]; simpl; [reflexivity|].
    destruct Hb as (Hd & _). rewrite Hd. f_equal. exact IH.
  - induction P as [|i b l fs' Hb P IH]; constructor; [tauto|exact IH].
Qed.

(** Claim C4, amended.  Constructing a Butterfly Product fails when the size
    is not a power of two; when it succeeds the size is [2^m], the factors
    are [m] Butterfly factors of that size with diagonal offsets
    [2^(m-1), ..., 2, 1] in this order, and the term count is [m] when
    [n_terms] is not given and the given [n_terms] otherwise. *)
Theorem ButterflyProduct_init_spec
  (sparsemax : softmax_fn_t) (size : Z) (n_terms : option Z)
  (cplx fixed_order learn_perm : bool) (softmax_fn : string) (g : rng) :
  ((forall m : nat, size <> (2 ^ Z.of_nat m)%Z) ->
   ButterflyProduct.init sparsemax size n_terms cplx fixed_order learn_perm
                         softmax_fn g = None)
  /\ (forall bp g',
        ButterflyProduct.init sparsemax size n_terms cplx fixed_order learn_perm
                              softmax_fn g = Some (bp, g') ->
        exists m : nat,
          size = (2 ^ Z.of_nat m)%Z
          /\ map Butterfly.diagonal bp.(ButterflyProduct.super).(MatrixProduct.factors)
             = descending_offsets m
          /\ length bp.(ButterflyProduct.super).(MatrixProduct.factors) = m
          /\ Forall (fun b => b.(Butterfly.size) = size
                              /\ b.(Butterfly.complex) = cplx
                              /\ well_shaped b = true)
                    bp.(ButterflyProduct.super).(MatrixProduct.factors)
          /\ bp.(ButterflyProduct.super).(MatrixProduct.n_terms)
             = default_terms n_terms m).
Proof.
  assert (Main : forall bp g',
        ButterflyProduct.init sparsemax size n_terms cplx fixed_order learn_perm
                              softmax_fn g = Some (bp, g') ->
        exists m : nat,
          size = (2 ^ Z.of_nat m)%Z
          /\ map Butterfly.diagonal bp.(ButterflyProduct.super).(MatrixProduct.factors)
             = descending_offsets m
          /\ length bp.(ButterflyProduct.super).(MatrixProduct.factors) = m
          /\ Forall (fun b => b.(Butterfly.size) = size
                              /\ b.(Butterfly.complex) = cplx
                              /\ well_shaped b = true)
                    bp.(ButterflyProduct.super).(MatrixProduct.factors)
          /\ bp.(ButterflyProduct.super).(MatrixProduct.n_terms)
             = default_terms n_terms m).
  { intros bp g' E. unfold ButterflyProduct.init in E.
    apply bind_Some in E. destruct E as (m & g0 & E0 & E).
    apply log2_int_Some in E0. destruct E0 as (-> & -> & Hs).
    apply bind_Some in E. destruct E as (u & g1 & E1 & E).
    apply assert_Some in E1. destruct E1 as (Ep & ->).
    apply Z.eqb_eq in Ep. pose proof (Z.log2_nonneg size) as Hl.
    rewrite Z.shiftl_1_l in Ep.
    assert (Es : size = (2 ^ Z.of_nat (Z.to_nat (Z.log2 size)))%Z)
      by (rewrite Z2Nat.id by lia; exact Ep).
    exists (Z.to_nat (Z.log2 size)). split; [exact Es|].
    apply bind_Some in E. destruct E as (fs & g2 & Ef & E).
    destruct (factors_spec cplx (Z.to_nat (Z.log2 size)) g Es)
      as (fs' & g2' & Ef' & Hd & Hlen & Hp).
    rewrite Ef in Ef'. inversion Ef'; subst fs' g2'. clear Ef'.
    apply bind_Some in E. destruct E as (base & g3 & Eb & E).
    assert (Hb : base.(MatrixProduct.factors) = fs
                 /\ base.(MatrixProduct.n_terms)
                    = default_terms n_terms (Z.to_nat (Z.log2 size))).
    { unfold MatrixProduct.init in Eb. destruct fixed_order; cbn [negb] in Eb.
      - unfold ret in Eb. inversion Eb; subst. cbn. rewrite Hlen.
        destruct n_terms; auto.
      - apply bind_Some in Eb. destruct Eb as (u1 & g4 & _ & Eb).
        apply bind_Some in Eb. destruct Eb as (lg & g5 & _ & Eb).
        unfold ret in Eb. inversion Eb; subst. cbn. rewrite Hlen.
        destruct n_terms; auto. }
    assert (Hbp : bp.(ButterflyProduct.super) = base).
    { destruct learn_perm.
      - apply bind_Some in E. destruct E as (pl & g4 & _ & E).
        unfold ret in E. inversion E. reflexivity.
      - unfold ret in E. inversion E. reflexivity. }
    rewrite Hbp. destruct Hb as [-> ->]. auto. }
  split; [|exact Main].
  intros Hn.
  destruct (ButterflyProduct.init sparsemax size n_terms cplx fixed_order
              learn_perm softmax_fn g) as [[bp g']|] eqn:E; [|reflexivity].
  destruct (Main bp g' eq_refl) as (m & Es & _). exfalso. exact (Hn m Es).
Qed.

(** Against claim C4 as stated: with [n_terms=3] a product of size 4 has two
    factors and term count 3. *)
Lemma ButterflyProduct_init_explicit_terms :
  exists bp g',
    ButterflyProduct.init (fun _ => None) 4 (Some 3%Z) false false false "softmax"
                          (fun _ => 0%R) = Some (bp, g')
    /\ length bp.(ButterflyProduct.super).(MatrixProduct.factors) = 2
    /\ bp.(ButterflyProduct.super).(MatrixProduct.n_terms) = 3%Z.
Proof.
  eexists. eexists. split; [cbv -[Rplus Rmult IZR]; reflexivity|].
  split; reflexivity.
Qed.

(** Construction does succeed on a power of two. *)
Lemma ButterflyProduct_init_succeeds
  (sparsemax : softmax_fn_t) (m : nat) (n_terms : option Z)
  (cplx fixed_order learn_perm : bool) (softmax_fn : string) (g : rng) :
  (fixed_order = true \/ known_softmax softmax_fn = true) ->
  (0 <= default_terms n_terms m)%Z ->
  exists bp g',
    ButterflyProduct.init sparsemax (2 ^ Z.of_nat m) n_terms cplx fixed_order
                          learn_perm softmax_fn g = Some (bp, g').
Proof.
  intros Hs Ht. unfold ButterflyProduct.init.
  assert (Hp : (0 < 2 ^ Z.of_nat m)%Z) by (apply Z.pow_pos_nonneg; lia).
  unfold bind at 1. unfold ButterflyProduct.log2_int.
  destruct (Z.leb_spec (2 ^ Z.of_nat m) 0); [lia|]. unfold ret at 1.
  rewrite Z.log2_pow2 by lia. unfold bind at 1.
  rewrite Z.shiftl_1_l, Z.eqb_refl. cbn [assert]. unfold ret at 1.
  rewrite Nat2Z.id.
  destruct (factors_spec cplx m g (eq_refl (2 ^ Z.of_nat m)%Z))
    as (fs & g2 & Ef & Hd & Hlen & Hpp).
  unfold bind at 1. rewrite Ef.
  assert (Hb : exists base g3,
             MatrixProduct.init sparsemax fs n_terms cplx fixed_order softmax_fn g2
             = Some (base, g3)).
  { unfold MatrixProduct.init. destruct fixed_order; cbn [negb].
    - eexists; eexists; reflexivity.
    - destruct Hs as [Hs|Hs]; [discriminate|].
      unfold bind at 1. fold (known_softmax softmax_fn). rewrite Hs.
      cbn [assert]. unfold ret at 1.
      destruct (@randn2_Some (match n_terms with
                              | Some n => n
                              | None => Z.of_nat (length fs)
                              end) (Z.of_nat (length fs)) g2)
        as (lg & g4 & El); [rewrite Hlen; exact Ht|lia|].
      unfold bind at 1. rewrite El. eexists; eexists; reflexivity. }
  destruct Hb as (base & g3 & Eb). unfold bind at 1. rewrite Eb.
  destruct learn_perm.
  - destruct (@randn2_Some (2 ^ Z.of_nat m) (2 ^ Z.of_nat m) g3) as (pl & g4 & El);
      [lia|lia|].
    unfold bind. rewrite El. eexists; eexists; reflexivity.
  - eexists; eexists; reflexivity.
Qed.

(** ** Reshaping *)

Lemma map_nth_eq {X Y : Type} (f : X -> Y) (l : list X) (d : X) (d' : Y) i :
  f d = d' -> nth i (map f l) d' = f (nth i l d).
Proof. intros <-. apply map_nth. Qed.

Lemma concat_rect_length {X : Type} r c (m : list (list X)) :
  rect r c m -> length (concat m) = r * c.
Proof.
  intros [Hl Hf]. subst r. induction m as [|row m IH]; simpl; [reflexivity|].
  inversion Hf; subst. rewrite length_app, IH by assumption. reflexivity.
Qed.

Lemma concat_rect_nth {X : Type} r c (m : list (list X)) a b (d : X) :
  rect r c m -> a < r -> b < c ->
  nth (a * c + b) (concat m) d = nth b (nth a m []) d.
Proof.
  intros [Hl Hf]. subst r. revert a. induction m as [|row m IH]; intros a Ha Hb;
    simpl in Ha; [lia|].
  inversion Hf; subst. simpl concat. destruct a as [|a].
  - simpl. apply app_nth1. lia.
  - rewrite app_nth2 by (simpl; lia).
    replace (S a * length row + b - length row) with (a * length row + b)
      by (simpl; lia).
    simpl nth. apply IH; [assumption|lia|assumption].
Qed.

Lemma firstn_skipn_seq {X : Type} (l : list X) s c (d : X) :
  s + c <= length l ->
  firstn c (skipn s l) = map (fun b => nth (s + b) l d) (seq 0 c).
Proof.
  intros H. apply (nth_ext _ _ d d).
  - rewrite length_firstn, length_skipn, length_map, length_seq. lia.
  - intros i Hi. rewrite length_firstn, length_skipn in Hi.
    rewrite nth_firstn. destruct (Nat.ltb_spec i c); [|lia].
    rewrite nth_skipn.
    rewrite (nth_indep (map _ _) d (nth (s + 0) l d))
      by (rewrite length_map, length_seq; lia).
    rewrite (map_nth (fun b => nth (s + b) l d) (seq 0 c) 0 i).
    rewrite seq_nth by lia. reflexivity.
Qed.

Lemma chunks_tab {X : Type} r c (l : list X) (d : X) :
  length l = r * c ->
  chunks r c l = tab r c (fun a b => nth (a * c + b) l d).
Proof.
  intros H. unfold chunks, tab. apply map_ext_in. intros a Ha. apply in_seq in Ha.
  apply firstn_skipn_seq. rewrite H. nia.
Qed.

Lemma tab_0 {X : Type} c (f : nat -> nat -> X) : tab 0 c f = [].
Proof. reflexivity. Qed.

Local Open Scope R_scope.

Notation "'rsum'" := (sum_n 0 Rplus).

(** The weighted row [q @ flats] that both [matrix] and [forward] compute *)
Lemma weights_matmul (q : list R) (flats : list (list R)) m L :
  rect m L flats -> length q = m -> (0 < m)%nat ->
  map (dot 0 Rplus Rmult q) (transpose 0 flats)
  = map (fun e => rsum (fun j => nth j q 0 * ent 0 flats j e) m) (seq 0 L).
Proof.
  intros Hf Hq Hm. rewrite (transpose_tab 0 Hf Hm). unfold tab.
  rewrite map_map. apply map_ext_in. intros e He.
  rewrite (dot_sum RTheory q _ (n := m)); [|exact Hq|rewrite length_map, length_seq; reflexivity].
  apply sum_n_ext. intros j Hj. f_equal.
  rewrite (nth_indep _ 0 (ent 0 flats 0%nat e)) by (rewrite length_map, length_seq; lia).
  rewrite (map_nth (fun j0 => ent 0 flats j0 e) (seq 0 m) 0%nat j).
  rewrite seq_nth by lia. reflexivity.
Qed.

Lemma matmul_rows (p : list (list R)) (flats : list (list R)) :
  Forall (fun q => length q = length flats) p ->
  matmul 0 Rplus Rmult p flats
  = Some (map (fun q => map (dot 0 Rplus Rmult q) (transpose 0 flats)) p).
Proof.
  intros H. unfold matmul. replace (forallb _ p) with true; [reflexivity|].
  symmetry. apply forallb_forall. intros q Hq. rewrite Forall_forall in H.
  apply Nat.eqb_eq. apply H. exact Hq.
Qed.

Lemma stack_flat_real (v : list (list R)) (vs : list (list (list R))) r c :
  Forall (rect r c) (v :: vs) ->
  stack_flat (map VReal (v :: vs))
  = Some ((false, r, ncols v), map (@concat R) (v :: vs))
  /\ rect (S (length vs)) (r * c) (map (@concat R) (v :: vs)).
Proof.
  intros H. split.
  - unfold stack_flat. cbn [map].
    assert (Hr : length v = r) by (inversion H as [|? ? [Hv _] _]; exact Hv).
    replace (forallb _ _) with true.
    + cbn [value_shape]. rewrite Hr. rewrite map_map. reflexivity.
    + symmetry. apply forallb_forall. intros w Hw.
      change (VReal v :: map VReal vs) with (map VReal (v :: vs)) in Hw.
      apply in_map_iff in Hw. destruct Hw as (w' & <- & Hin).
      rewrite Forall_forall in H. pose proof (H w' Hin) as Hw'.
      pose proof (H v (or_introl eq_refl)) as Hv.
      unfold vshape_eqb. cbn [value_shape fst snd Bool.eqb].
      destruct Hw' as [Lw Fw], Hv as [Lv Fv]. rewrite Lw, Lv, Nat.eqb_refl.
      cbn [andb]. apply Nat.eqb_eq.
      destruct w' as [|rw w'], v as [|rv v']; simpl in *; try lia.
      inversion Fw; inversion Fv; lia.
  - split; [simpl; rewrite length_map; reflexivity|].
    apply Forall_forall. intros l Hl. apply in_map_iff in Hl.
    destruct Hl as (w & <- & Hin). rewrite Forall_forall in H.
    apply concat_rect_length. apply H. exact Hin.
Qed.

Lemma unflat_mix_real (v : list (list R)) (vs : list (list (list R))) r c
      (q : list R) :
  Forall (rect r c) (v :: vs) -> length q = S (length vs) ->
  unflat (false, r, ncols v)
         (map (dot 0 Rplus Rmult q) (transpose 0 (map (@concat R) (v :: vs))))
  = Some (VReal (lincomb 0 Rplus Rmult r c q (v :: vs))).
Proof.
  intros H Hq. destruct (stack_flat_real H) as [_ Hf].
  rewrite (weights_matmul q Hf Hq) by lia.
  unfold unflat.
  assert (Hv : rect r c v) by (inversion H; assumption).
  assert (Hc : (r * ncols v = r * c)%nat).
  { destruct r as [|r']; [reflexivity|].
    rewrite (rect_ncols Hv) by lia. reflexivity. }
  rewrite length_map, length_seq, Hc, Nat.eqb_refl. f_equal. f_equal.
  rewrite (chunks_tab r (ncols v) _ 0)
    by (rewrite length_map, length_seq; lia).
  destruct r as [|r']; [reflexivity|].
  rewrite (rect_ncols Hv) by lia. unfold lincomb.
  apply tab_ext. intros a b Ha Hb.
  assert (Hab : (a * c + b < S r' * c)%nat) by nia.
  rewrite (nth_indep _ 0 (rsum (fun j => nth j q 0
             * ent 0 (map (@concat R) (v :: vs)) j 0%nat) (S (length vs))))
    by (rewrite length_map, length_seq; lia).
  rewrite (map_nth (fun e => rsum (fun j => nth j q 0
             * ent 0 (map (@concat R) (v :: vs)) j e) (S (length vs)))
             (seq 0 (S r' * c)) 0%nat (a * c + b)).
  rewrite seq_nth by lia. cbn [plus length].
  apply sum_n_ext. intros j Hj. f_equal. unfold ent.
  rewrite (map_nth_eq (@concat R) (v :: vs) [] j (d' := [])) by reflexivity.
  apply (@concat_rect_nth R (S r') c); try lia.
  rewrite Forall_forall in H. apply H. apply nth_In. simpl. lia.
Qed.

Lemma concat_rows2_length (row : list C) :
  length (concat (rows2 row)) = (length row * 2)%nat.
Proof. induction row as [|z row IH]; simpl; [reflexivity|]. rewrite IH. reflexivity. Qed.

Lemma concat_rows2_nth (row : list C) b :
  nth (2 * b) (concat (rows2 row)) 0 = fst (nth b row c0)
  /\ nth (2 * b + 1) (concat (rows2 row)) 0 = snd (nth b row c0).
Proof.
  revert b. induction row as [|z row IH]; intros b.
  - simpl. destruct b; simpl; split; try reflexivity;
      destruct (b + S (b + 0) + 1)%nat; reflexivity.
  - destruct b as [|b].
    + simpl. split; reflexivity.
    + replace (2 * S b)%nat with (S (S (2 * b))) by lia.
      replace (S (S (2 * b)) + 1)%nat with (S (S (2 * b + 1))) by lia.
      cbn [rows2 map concat app nth]. apply IH.
Qed.

Lemma interleave_rect r c (v : list (list C)) :
  rect r c v -> rect r (c * 2) (interleave v).
Proof.
  intros [Hl Hf]. split; unfold interleave.
  - rewrite length_map. exact Hl.
  - apply Forall_forall. intros l Hl'. apply in_map_iff in Hl'.
    destruct Hl' as (row & <- & Hin). rewrite Forall_forall in Hf.
    rewrite concat_rows2_length, (Hf row Hin). reflexivity.
Qed.

Lemma interleave_ent (v : list (list C)) a b :
  ent 0 (interleave v) a (2 * b) = fst (ent c0 v a b)
  /\ ent 0 (interleave v) a (2 * b + 1) = snd (ent c0 v a b).
Proof.
  unfold ent, interleave.
  rewrite (map_nth_eq (fun row => concat (rows2 row)) v [] a (d' := []))
    by reflexivity.
  apply concat_rows2_nth.
Qed.

Lemma csum_weights (q : nat -> R) (z : nat -> C) m :
  sum_n c0 cadd (fun j => cmul (q j, 0) (z j)) m
  = (rsum (fun j => q j * fst (z j)) m, rsum (fun j => q j * snd (z j)) m).
Proof.
  induction m as [|m IH]; simpl; [reflexivity|]. rewrite IH.
  unfold cadd, cmul. simpl. f_equal; ring.
Qed.

Lemma flat_cplx (v : list (list C)) : flat (VCplx v) = concat (interleave v).
Proof. reflexivity. Qed.

Lemma pair_up_tab (f : nat -> R) c :
  pair_up (map f (seq 0 (c * 2))) = map (fun b => (f (2 * b), f (2 * b + 1))%nat) (seq 0 c).
Proof.
  unfold pair_up. rewrite length_map, length_seq, Nat.div_mul by lia.
  apply map_ext_in. intros b Hb. apply in_seq in Hb.
  rewrite (nth_indep _ 0 (f 0%nat)) by (rewrite length_map, length_seq; lia).
  rewrite (nth_indep (map f _) 0 (f 0%nat)) by (rewrite length_map, length_seq; lia).
  rewrite !(map_nth f), !seq_nth by lia. reflexivity.
Qed.

Lemma stack_flat_cplx (v : list (list C)) (vs : list (list (list C))) r c :
  Forall (rect r c) (v :: vs) ->
  stack_flat (map VCplx (v :: vs))
  = Some ((true, r, ncols v), map (@concat R) (map interleave (v :: vs)))
  /\ Forall (rect r (c * 2)) (map interleave (v :: vs)).
Proof.
  intros H. split.
  - unfold stack_flat. cbn [map].
    assert (Hr : length v = r) by (inversion H as [|? ? [Hv _] _]; exact Hv).
    replace (forallb _ _) with true.
    + cbn [value_shape]. rewrite Hr. rewrite !map_map. reflexivity.
    + symmetry. apply forallb_forall. intros w Hw.
      change (VCplx v :: map VCplx vs) with (map VCplx (v :: vs)) in Hw.
      apply in_map_iff in Hw. destruct Hw as (w' & <- & Hin).
      rewrite Forall_forall in H. pose proof (H w' Hin) as Hw'.
      pose proof (H v (or_introl eq_refl)) as Hv.
      unfold vshape_eqb. cbn [value_shape fst snd Bool.eqb].
      destruct Hw' as [Lw Fw], Hv as [Lv Fv]. rewrite Lw, Lv, Nat.eqb_refl.
      cbn [andb]. apply Nat.eqb_eq.
      destruct w' as [|rw w'], v as [|rv v']; simpl in *; try lia.
      inversion Fw; inversion Fv; lia.
  - apply Forall_forall. intros l Hl. apply in_map_iff in Hl.
    destruct Hl as (w & <- & Hin). rewrite Forall_forall in H.
    apply interleave_rect. apply H. exact Hin.
Qed.

Lemma unflat_mix_cplx (v : list (list C)) (vs : list (list (list C))) r c
      (q : list R) :
  Forall (rect r c) (v :: vs) -> length q = S (length vs) ->
  unflat (true, r, ncols v)
         (map (dot 0 Rplus Rmult q)
              (transpose 0 (map (@concat R) (map interleave (v :: vs)))))
  = Some (VCplx (lincomb c0 cadd cmul r c (cweights q) (v :: vs))).
Proof.
  intros H Hq. destruct (stack_flat_cplx H) as [_ Hi].
  cbn [map] in Hi.
  pose proof (unflat_mix_real q Hi) as E. rewrite length_map in E.
  specialize (E Hq). cbn [map] in *.
  assert (Hv : rect r c v) by (inversion H; assumption).
  assert (Hiv : rect r (c * 2) (interleave v)) by (inversion Hi; assumption).
  unfold unflat in *.
  assert (Hc : (r * (ncols v * 2) = r * ncols (interleave v))%nat).
  { destruct r as [|r']; [reflexivity|].
    rewrite (rect_ncols Hv), (rect_ncols Hiv) by lia. reflexivity. }
  rewrite Hc.
  destruct (length _ =? r * ncols (interleave v))%nat; [|discriminate].
  f_equal. f_equal. inversion E as [E']. clear E.
  destruct r as [|r']; [reflexivity|].
  rewrite (rect_ncols Hv) by lia. rewrite (rect_ncols Hiv) in E' by lia.
  rewrite E'. unfold lincomb. unfold tab at 1. rewrite map_map.
  unfold tab. apply map_ext_in. intros a Ha. apply in_seq in Ha.
  rewrite pair_up_tab. apply map_ext_in. intros b Hb. apply in_seq in Hb.
  cbn [length]. rewrite length_map.
  rewrite (sum_n_ext c0 cadd _
             (fun j => cmul (nth j q 0, 0) (ent c0 (nth j (v :: vs) []) a b))).
  2:{ intros j Hj. f_equal. unfold cweights.
      exact (@map_nth_eq R C (fun p => (p, 0)) q 0 c0 j eq_refl). }
  rewrite csum_weights.
  change (interleave v :: map interleave vs) with (map interleave (v :: vs)).
  f_equal; apply sum_n_ext; intros j Hj; f_equal.
  - rewrite (map_nth_eq interleave (v :: vs) [] j (d' := [])) by reflexivity.
    apply interleave_ent.
  - rewrite (map_nth_eq interleave (v :: vs) [] j (d' := [])) by reflexivity.
    apply interleave_ent.
Qed.

(** What [reshape] returns has the shape asked for. *)
Lemma unflat_real_shape (v : list (list R)) r c l w :
  rect r c v ->
  unflat (false, r, ncols v) l = Some w -> exists a, w = VReal a /\ rect r c a.
Proof.
  intros Hv. unfold unflat.
  destruct (Nat.eqb_spec (length l) (r * ncols v)) as [El|]; [|discriminate].
  intros E. inversion E. eexists. split; [reflexivity|].
  rewrite (chunks_tab r (ncols v) l 0 El).
  destruct r as [|r']; [split; [reflexivity|constructor]|].
  rewrite (rect_ncols Hv) by lia. apply tab_rect.
Qed.

Lemma unflat_cplx_shape (v : list (list C)) r c l w :
  rect r c v ->
  unflat (true, r, ncols v) l = Some w -> exists a, w = VCplx a /\ rect r c a.
Proof.
  intros Hv. unfold unflat.
  destruct (Nat.eqb_spec (length l) (r * (ncols v * 2))) as [El|]; [|discriminate].
  intros E. inversion E. eexists. split; [reflexivity|].
  rewrite (chunks_tab r (ncols v * 2) l 0 El).
  destruct r as [|r']; [split; [reflexivity|constructor]|].
  rewrite (rect_ncols Hv) by lia. unfold tab. split.
  - rewrite !length_map, length_seq. reflexivity.
  - apply Forall_forall. intros row Hin. apply in_map_iff in Hin.
    destruct Hin as (row' & <- & Hin). apply in_map_iff in Hin.
    destruct Hin as (i & <- & _). rewrite pair_up_tab, length_map, length_seq.
    reflexivity.
Qed.

(** ** The matrix of [test_butterfly] *)


(** Claim C7.  The complex Butterfly factor of [test_butterfly] (size 4,
    offset 1, [diag = [[1,2],[2,3],[3,4],[4,5]]],
    [subdiag = superdiag = [[11,12],[12,13],[13,14]]]) is accepted by the
    constructor, and the real and imaginary slabs of its [matrix()] are the
    two matrices of the test. *)
Theorem test_butterfly_matrix (g : rng) :
  exists b m,
    Butterfly.init 4 1 true (Some (TCplx test_diag)) (Some (TCplx test_subdiag))
                   (Some (TCplx test_subdiag)) g = Some (b, g)
    /\ Butterfly.matrix b = Some (VCplx m)
    /\ map (map fst) m = [[ 1; 11;  0;  0];
                          [11;  2; 12;  0];
                          [ 0; 12;  3; 13];
                          [ 0;  0; 13;  4]]
    /\ map (map snd) m = [[ 2; 12;  0;  0];
                          [12;  3; 13;  0];
                          [ 0; 13;  4; 14];
                          [ 0;  0; 14;  5]].
Proof.
  eexists. eexists. split; [cbv -[Rplus Rmult Rminus Ropp IZR]; reflexivity|].
  split.
  - cbv -[Rplus Rmult Rminus Ropp IZR]. reflexivity.
  - cbv -[Rplus Rmult Rminus Ropp IZR]. split; repeat f_equal; ring.
Qed.

Local Close Scope R_scope.

(** ** The composer, for one kind of value *)

Lemma Forall2_rev {X Y : Type} (P : X -> Y -> Prop) l l' :
  Forall2 P l l' -> Forall2 P (rev l) (rev l').
Proof.
  induction 1; simpl; [constructor|].
  apply Forall2_app; [assumption|]. constructor; [assumption|constructor].
Qed.

Section Kind.

Context {F : Type} {HF : Factor F}.

(** The entries of one kind of value *)
Variable E : Type.
Variables (zero one : E) (add mul sub : E -> E -> E) (opp : E -> E).
Hypothesis Eth : ring_theory zero one add mul sub opp eq.

Add Ring Ering : Eth.

Variable inj : list (list E) -> value.
Variable cplx : bool.
Variable emb : list R -> list E.

Hypothesis K_emb : emb [1%R; 0%R] = [one; zero] /\ emb [0%R; 1%R] = [zero; one].
Hypothesis K_matmul : forall a b,
    vmatmul cplx (inj a) (inj b) = (r <- matmul zero add mul a b ;; Some (inj r)).
Hypothesis K_t : forall m, value_t (inj m) = inj (transpose zero m).
Hypothesis K_square : forall n m,
    square_value cplx n m -> exists a, m = inj a /\ rect n n a.
Hypothesis K_input : forall n x,
    Forall (fun row => length row = n) x -> input_of cplx (Z.of_nat n) (inj x).
Hypothesis K_stack : forall v vs r c,
    Forall (rect r c) (v :: vs) ->
    exists sh flats,
      stack_flat (map inj (v :: vs)) = Some (sh, flats)
      /\ length flats = S (length vs)
      /\ (forall q, length q = S (length vs) ->
                    unflat sh (map (dot 0%R Rplus Rmult q) (transpose 0%R flats))
                    = Some (inj (lincomb zero add mul r c (emb q) (v :: vs))))
      /\ (forall l w, unflat sh l = Some w -> exists a, w = inj a /\ rect r c a).

Notation "'mm'" := (mmul zero add mul).
Notation "'mmT'" := (mmulT zero add mul).

Variable n : nat.
Hypothesis n_pos : 0 < n.

Notation "'has_matrix'" := (@factor_has_matrix F HF E zero add mul inj n).
Notation "'mixed'" := (@mixed_matrix E zero add mul emb n).

Lemma lawful_has_matrix (f : F) :
  lawful cplx n f -> exists m, has_matrix f m.
Proof.
  intros (v & Hv & Hs & Hc). destruct (K_square _ _ Hs) as (m & -> & Hm).
  exists m. split; [exact Hv|]. split; [exact Hm|].
  intros p x Hx. destruct (Hc (inj x)) as (y & Ey & Ez).
  { apply K_input. destruct Hx as [_ Hx]. exact Hx. }
  rewrite Ey. rewrite K_t, K_matmul in Ez.
  rewrite (matmul_mmulT Eth Hx Hm n_pos n_pos) in Ez. simpl in Ez.
  symmetry. exact Ez.
Qed.

Lemma lawful_matrices (fs : list F) :
  Forall (lawful cplx n) fs -> exists ms, Forall2 has_matrix fs ms.
Proof.
  induction 1 as [|f fs Hf _ IH].
  - exists []. constructor.
  - destruct (lawful_has_matrix Hf) as (m & Hm). destruct IH as (ms & Hms).
    exists (m :: ms). constructor; assumption.
Qed.

Lemma factor_matrices (fs : list F) (ms : list (list (list E))) :
  Forall2 has_matrix fs ms ->
  mapM factor_matrix fs = Some (map inj ms) /\ Forall (rect n n) ms.
Proof.
  induction 1 as [|f m fs ms (Hm & Hr & _) _ [IH1 IH2]]; simpl.
  - split; [reflexivity|constructor].
  - rewrite Hm. simpl. rewrite IH1. simpl. split; [reflexivity|].
    constructor; assumption.
Qed.

Lemma factor_calls (fs : list F) (ms : list (list (list E))) p x :
  Forall2 has_matrix fs ms -> rect p n x ->
  mapM (fun f => factor_call f (inj x)) fs = Some (map inj (map (mmT x) ms)).
Proof.
  intros H Hx. induction H as [|f m fs ms (_ & _ & Hc) _ IH]; simpl.
  - reflexivity.
  - rewrite (Hc p x Hx). simpl. rewrite IH. reflexivity.
Qed.

(** [functools.reduce(matmul_op, matrices)] on square matrices *)
Lemma reduce_matmul (m : list (list E)) (ms : list (list (list E))) :
  rect n n m -> Forall (rect n n) ms ->
  reduce (vmatmul cplx) (map inj (m :: ms)) = Some (inj (fold_left mm ms m))
  /\ rect n n (fold_left mm ms m).
Proof.
  intros Hm Hms. unfold reduce. cbn [map].
  revert m Hm. induction Hms as [|a ms Ha _ IH]; intros m Hm.
  - simpl. split; [reflexivity|exact Hm].
  - cbn [map fold_left obind]. rewrite K_matmul.
    rewrite (matmul_mmul Eth Hm Ha n_pos). cbn [obind].
    apply IH. apply (mmul_rect zero add mul Hm Ha n_pos).
Qed.

(** Fixed order: the factors applied in reverse list order *)
Lemma forward_fixed_matmul f fs m ms p x :
  Forall2 has_matrix (f :: fs) (m :: ms) -> rect p n x ->
  MatrixProduct.forward_fixed (f :: fs) (inj x)
  = Some (inj (mmT x (fold_left mm ms m))).
Proof.
  intros Hfs Hx.
  assert (Hr : Forall (rect n n) (m :: ms)) by (apply (factor_matrices Hfs)).
  inversion Hr as [|? ? Hm Hms]; subst.
  destruct (fold_mmulT Eth Hx Hm Hms n_pos) as [_ <-].
  unfold MatrixProduct.forward_fixed.
  assert (G : forall gs ns y q,
             Forall2 has_matrix gs ns -> rect q n y ->
             fold_left (fun out factor => o <- out ;; factor_call factor o)
                       gs (Some (inj y))
             = Some (inj (fold_left (fun out a => mmT out a) ns y))).
  { intros gs ns y q Hg. revert y.
    induction Hg as [|g a gs ns (_ & Ha & Hc) _ IH]; intros y Hy;
      [reflexivity|].
    cbn [fold_left obind]. rewrite (Hc q y Hy).
    apply IH. apply (mmulT_rect zero add mul Hy Ha). }
  apply (G (rev (f :: fs)) (rev (m :: ms)) x p); [|exact Hx].
  apply Forall2_rev. exact Hfs.
Qed.

(** Learned order: the mixed matrices *)

Lemma mix_matrices m ms (prob : list (list R)) :
  Forall (rect n n) (m :: ms) ->
  Forall (fun q => length q = S (length ms)) prob ->
  (stack <- stack_flat (map inj (m :: ms)) ;; MatrixProduct.mix prob stack)
  = Some (map inj (map (mixed (m :: ms)) prob)).
Proof.
  intros Hms Hp. destruct (@K_stack _ _ _ _ Hms) as (sh & flats & -> & Hl & Hq & _).
  cbn [obind]. unfold MatrixProduct.mix. cbn [fst snd].
  rewrite matmul_rows by (rewrite Hl; exact Hp). cbn [obind].
  rewrite mapM_map, map_map. apply mapM_total.
  intros q Hin. rewrite Forall_forall in Hp. apply Hq. apply Hp. exact Hin.
Qed.

Lemma forward_term_matmul f fs m ms (prob : list (list R)) i p o :
  Forall2 has_matrix (f :: fs) (m :: ms) ->
  Forall (fun q => length q = S (length ms)) prob ->
  i < length prob -> rect p n o ->
  MatrixProduct.forward_term (f :: fs) prob i (inj o)
  = Some (inj (mmT o (mixed (m :: ms) (nth i prob [])))).
Proof.
  intros Hfs Hp Hi Ho. unfold MatrixProduct.forward_term.
  rewrite (factor_calls Hfs Ho). cbn [obind].
  assert (Hr : Forall (rect n n) (m :: ms)) by (apply (factor_matrices Hfs)).
  assert (Ho' : Forall (rect p n) (map (mmT o) (m :: ms))).
  { apply Forall_forall. intros y Hy. apply in_map_iff in Hy.
    destruct Hy as (a & <- & Ha). rewrite Forall_forall in Hr.
    apply (mmulT_rect zero add mul Ho (Hr a Ha)). }
  cbn [map] in Ho' |- *.
  destruct (@K_stack _ _ _ _ Ho') as (sh & flats & Est & Hl & Hq & _).
  cbn [map] in Est. rewrite Est. cbn [obind fst snd].
  assert (Es : firstn 1 (skipn i prob) = [nth i prob []]).
  { clear - Hi. revert i Hi. induction prob as [|q prob IH]; intros i Hi;
      simpl in Hi; [lia|]. destruct i as [|i]; simpl.
    - reflexivity.
    - apply IH. lia. }
  rewrite Es.
  assert (Hqi : length (nth i prob []) = S (length ms)).
  { rewrite Forall_forall in Hp. apply Hp. apply nth_In. exact Hi. }
  rewrite matmul_rows
    by (constructor; [rewrite Hl, length_map; exact Hqi|constructor]).
  cbn [obind map concat]. rewrite app_nil_r.
  rewrite Hq by (rewrite length_map; exact Hqi).
  f_equal. f_equal. unfold mixed_matrix.
  symmetry. apply (mmulT_lincomb Eth (emb (nth i prob [])) Ho Hr n_pos).
Qed.

Lemma forward_learned_matmul f fs m ms (q : list R) (prob : list (list R)) p x :
  Forall2 has_matrix (f :: fs) (m :: ms) ->
  Forall (fun q => length q = S (length ms)) (q :: prob) ->
  rect p n x ->
  fold_left (fun out i => o <- out ;;
                          MatrixProduct.forward_term (f :: fs) (q :: prob) i o)
            (rev (seq 0 (length (q :: prob)))) (Some (inj x))
  = Some (inj (mmT x (fold_left mm (map (mixed (m :: ms)) prob)
                                (mixed (m :: ms) q)))).
Proof.
  intros Hfs Hp Hx.
  assert (Hr : Forall (rect n n) (map (mixed (m :: ms)) (q :: prob))).
  { apply Forall_forall. intros a Ha. apply in_map_iff in Ha.
    destruct Ha as (q' & <- & _). apply tab_rect. }
  cbn [map] in Hr. inversion Hr as [|? ? H0 Hrest]; subst.
  destruct (fold_mmulT Eth Hx H0 Hrest n_pos) as [_ <-].
  change (mixed (m :: ms) q :: map (mixed (m :: ms)) prob)
    with (map (mixed (m :: ms)) (q :: prob)).
  rewrite (list_tab_gen (mixed (m :: ms)) (q :: prob) [] eq_refl).
  rewrite <- map_rev.
  assert (G : forall l y r,
             Forall (fun i => i < length (q :: prob)) l -> rect r n y ->
             fold_left (fun out i => o <- out ;;
                          MatrixProduct.forward_term (f :: fs) (q :: prob) i o)
                       l (Some (inj y))
             = Some (inj (fold_left (fun out a => mmT out a)
                            (map (fun i => mixed (m :: ms) (nth i (q :: prob) [])) l)
                            y))).
  { induction l as [|i l IH]; intros y r Hl Hy; [reflexivity|].
    inversion Hl; subst. cbn [fold_left map obind].
    rewrite (@forward_term_matmul f fs m ms (q :: prob) i r y Hfs Hp)
      by assumption.
    apply (IH _ r); [assumption|].
    apply (mmulT_rect zero add mul Hy). apply tab_rect. }
  apply (G _ x p); [|exact Hx].
  apply Forall_forall. intros i Hi. apply in_rev, in_seq in Hi. lia.
Qed.

(** The composer: [forward] is the input times the transposed [matrix]. *)
Theorem composer_forward_matmul (mp : MatrixProduct.t F) f fs p x (T : R) :
  mp.(MatrixProduct.factors) = f :: fs ->
  Forall (lawful cplx n) (f :: fs) ->
  mp.(MatrixProduct.complex) = cplx ->
  rect p n x ->
  (mp.(MatrixProduct.fixed_order) = true
   \/ (mp.(MatrixProduct.fixed_order) = false
       /\ exists lg q prob,
           logit_div mp.(MatrixProduct.logit) T = Some lg
           /\ mp.(MatrixProduct.softmax_fn) lg = Some (q :: prob)
           /\ Forall (fun r => length r = S (length fs)) (q :: prob)
           /\ Z.to_nat mp.(MatrixProduct.n_terms) = length (q :: prob))) ->
  exists P,
    rect n n P
    /\ MatrixProduct.matrix mp T = Some (inj P)
    /\ MatrixProduct.forward mp (inj x) T = Some (inj (mmT x P))
    /\ vmatmul cplx (inj x) (value_t (inj P)) = Some (inj (mmT x P)).
Proof.
  intros Ef Hl Ec Hx Hmode.
  destruct (lawful_matrices Hl) as (ms0 & Hfs).
  inversion Hfs as [|? m ? ms Hm Hrest]; subst ms0.
  assert (Hfs' : Forall2 has_matrix (f :: fs) (m :: ms)) by (constructor; assumption).
  destruct (factor_matrices Hfs') as [Em Hr].
  assert (Hlen : length ms = length fs)
    by (apply Forall2_length in Hrest; lia).
  assert (Fin : forall P, rect n n P ->
            vmatmul cplx (inj x) (value_t (inj P)) = Some (inj (mmT x P))).
  { intros P HP. rewrite K_t, K_matmul.
    rewrite (matmul_mmulT Eth Hx HP n_pos n_pos). reflexivity. }
  unfold MatrixProduct.matrix, MatrixProduct.forward, MatrixProduct.matmul_op.
  rewrite Ef, Ec. fold (vmatmul cplx).
  destruct Hmode as [Hfix|(Hfix & lg & q & prob & Elg & Eprob & Hp & Ht)];
    rewrite Hfix.
  - pose proof (Forall_inv Hr) as Hm0. pose proof (Forall_inv_tail Hr) as Hms.
    destruct (reduce_matmul Hm0 Hms) as [Ered HP].
    exists (fold_left mm ms m). split; [exact HP|].
    rewrite Em. cbn [obind]. split; [exact Ered|].
    split; [apply (forward_fixed_matmul Hfs' Hx)|apply Fin; exact HP].
  - rewrite Elg. cbn [obind]. rewrite Eprob. cbn [obind]. rewrite Em. cbn [obind].
    rewrite <- Hlen in Hp.
    pose proof (mix_matrices Hr Hp) as Emix.
    destruct (stack_flat (map inj (m :: ms))) as [stack|]; [|discriminate].
    cbn [obind] in Emix |- *. rewrite Emix. cbn [obind].
    assert (HA : Forall (rect n n) (map (mixed (m :: ms)) (q :: prob))).
    { apply Forall_forall. intros a Ha. apply in_map_iff in Ha.
      destruct Ha as (q' & <- & _). apply tab_rect. }
    cbn [map] in HA. pose proof (Forall_inv HA) as HA0.
    pose proof (Forall_inv_tail HA) as Hrest'.
    destruct (reduce_matmul HA0 Hrest') as [Ered HP].
    exists (fold_left mm (map (mixed (m :: ms)) prob) (mixed (m :: ms) q)).
    split; [exact HP|]. split; [exact Ered|].
    split; [|apply Fin; exact HP].
    rewrite Ht. apply (forward_learned_matmul Hfs' Hp Hx).
Qed.

(** Two factors: [matrix()] is the product of the two matrices, in fixed
    order and when the selection puts all weight of term [i] on factor
    [i]. *)
Lemma mixed_one_hot m1 m2 :
  rect n n m1 -> rect n n m2 ->
  mixed [m1; m2] [1%R; 0%R] = m1 /\ mixed [m1; m2] [0%R; 1%R] = m2.
Proof.
  intros H1 H2. destruct K_emb as [E0 E1]. unfold mixed_matrix, lincomb.
  rewrite E0, E1. cbn [length sum_n nth].
  split.
  - transitivity (tab n n (fun i j => ent zero m1 i j));
      [|symmetry; apply mat_tab; exact H1].
    apply tab_ext. intros a b Ha Hb. ring.
  - transitivity (tab n n (fun i j => ent zero m2 i j));
      [|symmetry; apply mat_tab; exact H2].
    apply tab_ext. intros a b Ha Hb. ring.
Qed.

Theorem composer_two_factors (mp : MatrixProduct.t F) f1 f2 v1 v2 p x (T : R) :
  mp.(MatrixProduct.factors) = [f1; f2] ->
  lawful cplx n f1 -> lawful cplx n f2 ->
  factor_matrix f1 = Some v1 -> factor_matrix f2 = Some v2 ->
  mp.(MatrixProduct.complex) = cplx ->
  rect p n x ->
  (mp.(MatrixProduct.fixed_order) = true
   \/ (mp.(MatrixProduct.fixed_order) = false
       /\ mp.(MatrixProduct.n_terms) = 2%Z
       /\ exists lg,
           logit_div mp.(MatrixProduct.logit) T = Some lg
           /\ mp.(MatrixProduct.softmax_fn) lg
              = Some [[1%R; 0%R]; [0%R; 1%R]])) ->
  exists P,
    vmatmul cplx v1 v2 = Some (inj P)
    /\ MatrixProduct.matrix mp T = Some (inj P)
    /\ MatrixProduct.forward mp (inj x) T = Some (inj (mmT x P))
    /\ vmatmul cplx (inj x) (value_t (inj P)) = Some (inj (mmT x P)).
Proof.
  intros Ef L1 L2 E1 E2 Ec Hx Hmode.
  destruct (lawful_has_matrix L1) as (m1 & H1).
  destruct (lawful_has_matrix L2) as (m2 & H2).
  assert (Hfs : Forall2 has_matrix [f1; f2] [m1; m2])
    by (constructor; [exact H1|constructor; [exact H2|constructor]]).
  pose proof H1 as (E1' & R1 & _). pose proof H2 as (E2' & R2 & _).
  rewrite E1 in E1'. rewrite E2 in E2'.
  inversion E1'; subst v1. inversion E2'; subst v2. clear E1' E2'.
  exists (mm m1 m2).
  assert (HP : rect n n (mm m1 m2)) by (apply (mmul_rect zero add mul R1 R2 n_pos)).
  split; [rewrite K_matmul, (matmul_mmul Eth R1 R2 n_pos); reflexivity|].
  assert (Fin : vmatmul cplx (inj x) (value_t (inj (mm m1 m2)))
                = Some (inj (mmT x (mm m1 m2)))).
  { rewrite K_t, K_matmul.
    rewrite (matmul_mmulT Eth Hx HP n_pos n_pos). reflexivity. }
  split; [|split; [|exact Fin]].
  - unfold MatrixProduct.matrix, MatrixProduct.matmul_op.
    rewrite Ef, Ec. fold (vmatmul cplx).
    destruct (factor_matrices Hfs) as [Em Hr]. rewrite Em.
    destruct Hmode as [Hfix|(Hfix & Ht & lg & Elg & Eprob)]; rewrite Hfix.
    + cbn [obind]. apply (reduce_matmul R1 (Forall_inv_tail Hr)).
    + rewrite Elg. cbn [obind]. rewrite Eprob. cbn [obind].
      assert (Hp : Forall (fun q : list R => length q = 2) [[1%R; 0%R]; [0%R; 1%R]])
        by (repeat constructor).
      pose proof (mix_matrices Hr Hp) as Emix.
      destruct (stack_flat (map inj [m1; m2])) as [stack|]; [|discriminate].
      cbn [obind] in Emix |- *. rewrite Emix. cbn [obind map].
      destruct (mixed_one_hot R1 R2) as [-> ->].
      apply (reduce_matmul R1 (Forall_inv_tail Hr)).
  - unfold MatrixProduct.forward. rewrite Ef.
    destruct Hmode as [Hfix|(Hfix & Ht & lg & Elg & Eprob)]; rewrite Hfix.
    + apply (forward_fixed_matmul Hfs Hx).
    + rewrite Elg. cbn [obind]. rewrite Eprob. cbn [obind]. rewrite Ht.
      assert (Hp : Forall (fun q : list R => length q = 2) [[1%R; 0%R]; [0%R; 1%R]])
        by (repeat constructor).
      change (Z.to_nat 2) with (length [[1%R; 0%R]; [0%R; 1%R]]).
      rewrite (forward_learned_matmul Hfs Hp Hx). cbn [map fold_left].
      destruct (mixed_one_hot R1 R2) as [-> ->]. reflexivity.
Qed.

(** Whatever the selection function returns, a matrix that [matrix()]
    returns is square of side [n] and of the composer's kind. *)
Lemma mapM_unflat_shape sh (rows : list (list R)) (ws : list value) r c :
  (forall l w, unflat sh l = Some w -> exists a, w = inj a /\ rect r c a) ->
  mapM (unflat sh) rows = Some ws ->
  exists ms, ws = map inj ms /\ Forall (rect r c) ms.
Proof.
  intros Hu. revert ws. induction rows as [|l rows IH]; intros ws; simpl.
  - intros Ews. inversion Ews. exists []. split; [reflexivity|constructor].
  - destruct (unflat sh l) as [w|] eqn:Ew; [|discriminate]. cbn [obind].
    destruct (mapM (unflat sh) rows) as [ws'|]; [|discriminate]. cbn [obind].
    intros Ews. inversion Ews; subst ws. clear Ews.
    destruct (Hu l w Ew) as (a & -> & Ha).
    destruct (IH ws' eq_refl) as (ms & -> & Hms).
    exists (a :: ms). split; [reflexivity|constructor; assumption].
Qed.

Lemma matrix_shape (mp : MatrixProduct.t F) (T : R) (w : value) :
  Forall (lawful cplx n) mp.(MatrixProduct.factors) ->
  mp.(MatrixProduct.complex) = cplx ->
  MatrixProduct.matrix mp T = Some w ->
  exists P, w = inj P /\ rect n n P.
Proof.
  intros Hl Ec. destruct (lawful_matrices Hl) as (ms & Hfs).
  destruct (factor_matrices Hfs) as [Em Hr].
  unfold MatrixProduct.matrix, MatrixProduct.matmul_op. rewrite Ec, Em.
  fold (vmatmul cplx).
  assert (Red : forall ms', Forall (rect n n) ms' ->
            reduce (vmatmul cplx) (map inj ms') = Some w ->
            exists P, w = inj P /\ rect n n P).
  { intros [|m' ms'] Hms'; [discriminate|]. intros Ered.
    destruct (reduce_matmul (Forall_inv Hms') (Forall_inv_tail Hms')) as [Ered' HP].
    rewrite Ered' in Ered. inversion Ered. eauto. }
  destruct (MatrixProduct.fixed_order mp).
  - cbn [obind]. apply Red. exact Hr.
  - destruct (logit_div _ T) as [lg|]; [|discriminate]. cbn [obind].
    destruct (MatrixProduct.softmax_fn mp lg) as [prob|]; [|discriminate].
    cbn [obind].
    destruct ms as [|m ms]; [discriminate|].
    destruct (@K_stack _ _ _ _ Hr) as (sh & flats & -> & _ & _ & Hu).
    cbn [obind]. unfold MatrixProduct.mix. cbn [fst snd].
    destruct (matmul 0%R Rplus Rmult prob flats) as [rows|]; [|discriminate].
    cbn [obind].
    destruct (mapM (unflat sh) rows) as [ws|] eqn:Ews; [|discriminate].
    cbn [obind]. destruct (@mapM_unflat_shape sh rows ws n n Hu Ews) as (ms' & -> & Hms').
    apply Red. exact Hms'.
Qed.

End Kind.

Local Open Scope R_scope.


(** ** The two kinds of values *)

Lemma real_matmul a b :
  vmatmul false (VReal a) (VReal b) = (r <- matmul 0 Rplus Rmult a b ;; Some (VReal r)).
Proof. reflexivity. Qed.

Lemma cplx_matmul a b :
  vmatmul true (VCplx a) (VCplx b) = (r <- matmul c0 cadd cmul a b ;; Some (VCplx r)).
Proof. reflexivity. Qed.

Lemma real_square n m :
  square_value false n m -> exists a, m = VReal a /\ rect n n a.
Proof. destruct m as [a|a]; intros [E H]; [eauto|discriminate]. Qed.

Lemma cplx_square n m :
  square_value true n m -> exists a, m = VCplx a /\ rect n n a.
Proof. destruct m as [a|a]; intros [E H]; [discriminate|eauto]. Qed.

Lemma real_input n (x : list (list R)) :
  Forall (fun row => length row = n) x -> input_of false (Z.of_nat n) (VReal x).
Proof.
  intros H. split; [reflexivity|]. eapply Forall_impl; [|exact H].
  intros row E. simpl in E. rewrite E. reflexivity.
Qed.

Lemma cplx_input n (x : list (list C)) :
  Forall (fun row => length row = n) x -> input_of true (Z.of_nat n) (VCplx x).
Proof.
  intros H. split; [reflexivity|]. eapply Forall_impl; [|exact H].
  intros row E. simpl in E. rewrite E. reflexivity.
Qed.

Lemma real_stack (v : list (list R)) vs r c :
  Forall (rect r c) (v :: vs) ->
  exists sh flats,
    stack_flat (map VReal (v :: vs)) = Some (sh, flats)
    /\ length flats = S (length vs)
    /\ (forall q, length q = S (length vs) ->
                  unflat sh (map (dot 0 Rplus Rmult q) (transpose 0 flats))
                  = Some (VReal (lincomb 0 Rplus Rmult r c ((fun q => q) q) (v :: vs))))
    /\ (forall l w, unflat sh l = Some w -> exists a, w = VReal a /\ rect r c a).
Proof.
  intros H. destruct (stack_flat_real H) as [E _].
  eexists. eexists. split; [exact E|]. split; [|split].
  - simpl. rewrite length_map. reflexivity.
  - intros q Hq. apply unflat_mix_real; assumption.
  - intros l w. apply unflat_real_shape. apply (Forall_inv H).
Qed.

Lemma cplx_stack (v : list (list C)) vs r c :
  Forall (rect r c) (v :: vs) ->
  exists sh flats,
    stack_flat (map VCplx (v :: vs)) = Some (sh, flats)
    /\ length flats = S (length vs)
    /\ (forall q, length q = S (length vs) ->
                  unflat sh (map (dot 0 Rplus Rmult q) (transpose 0 flats))
                  = Some (VCplx (lincomb c0 cadd cmul r c (cweights q) (v :: vs))))
    /\ (forall l w, unflat sh l = Some w -> exists a, w = VCplx a /\ rect r c a).
Proof.
  intros H. destruct (stack_flat_cplx H) as [E _].
  eexists. eexists. split; [exact E|]. split; [|split].
  - simpl. rewrite !length_map. reflexivity.
  - intros q Hq. apply unflat_mix_cplx; assumption.
  - intros l w. apply unflat_cplx_shape. apply (Forall_inv H).
Qed.

Lemma input_of_real n x :
  input_of false (Z.of_nat n) x ->
  exists a, x = VReal a /\ rect (length a) n a.
Proof.
  destruct x as [a|a]; intros [E H]; [|discriminate].
  exists a. split; [reflexivity|]. split; [reflexivity|].
  eapply Forall_impl; [|exact H]. simpl. intros row Hr. lia.
Qed.

Lemma input_of_cplx n x :
  input_of true (Z.of_nat n) x ->
  exists a, x = VCplx a /\ rect (length a) n a.
Proof.
  destruct x as [a|a]; intros [E H]; [discriminate|].
  exists a. split; [reflexivity|]. split; [reflexivity|].
  eapply Forall_impl; [|exact H]. simpl. intros row Hr. lia.
Qed.

(** ** Softmax on degenerate logits *)

Lemma softmax_one_hot (a b T : R) :
  0 < T ->
  (lg <- logit_div [[Fin a; NegInf]; [NegInf; Fin b]] T ;; softmax lg)
  = Some [[1; 0]; [0; 1]].
Proof.
  intros HT. unfold logit_div. cbn [mapM ediv obind].
  destruct (Req_dec_T T 0) as [E|_]; [lra|].
  destruct (Rlt_dec 0 T) as [_|N]; [|contradiction].
  cbn [obind mapM]. unfold softmax. cbn [mapM softmax_row forallb is_neginf andb obind
    map fold_right eexp].
  pose proof (exp_pos (a / T)). pose proof (exp_pos (b / T)).
  repeat f_equal; field; lra.
Qed.

(** ** Butterfly factors are lawful *)

Lemma Butterfly_lawful (b : Butterfly.t) (n : nat) :
  well_shaped b = true ->
  (0 < b.(Butterfly.diagonal))%Z ->
  b.(Butterfly.size) = Z.of_nat n ->
  lawful b.(Butterfly.complex) n b.
Proof.
  destruct b as [sz k cplx dg sb sp]. unfold well_shaped. cbn [Butterfly.size
    Butterfly.diagonal Butterfly.complex Butterfly.diag Butterfly.subdiag
    Butterfly.superdiag].
  intros Hw Hk ->.
  apply andb_prop in Hw; destruct Hw as [Hw H3].
  apply andb_prop in Hw; destruct Hw as [Hw H2].
  apply andb_prop in Hw; destruct Hw as [H0 H1].
  apply Z.ltb_lt in H0.
  assert (Ek : k = Z.of_nat (Z.to_nat k)) by lia.
  unfold lawful. cbn [factor_matrix factor_call Butterfly_Factor].
  destruct cplx.
  - apply shape_cplx in H1, H2, H3.
    destruct H1 as (d & -> & Hd), H2 as (s & -> & Hs), H3 as (u & -> & Hu).
    destruct (@band_forward_matmul C c0 c1 cadd cmul csub copp Cth d s u
                n (Z.to_nat k) 0 [])
      as (m & _ & Hm & Rm & _); try lia; [split; [reflexivity|constructor]|].
    exists (VCplx m).
    unfold Butterfly.matrix, Butterfly.forward. cbn [negb Butterfly.complex
      Butterfly.diag Butterfly.subdiag Butterfly.superdiag Butterfly.diagonal].
    rewrite !diag_embed_t_diag. rewrite Ek.
    pose proof Hm as Hm0. unfold band_matrix in Hm0.
    destruct (madd cadd (torch_diag c0 d 0)
                   (torch_diag c0 s (- Z.of_nat (Z.to_nat k)))) as [m1|];
      [|discriminate].
    cbn [obind] in Hm0 |- *. rewrite Hm0. cbn [obind].
    split; [reflexivity|]. split; [split; [reflexivity|exact Rm]|].
    intros x Hx. apply input_of_cplx in Hx. destruct Hx as (a & -> & Ha).
    destruct (@band_forward_matmul C c0 c1 cadd cmul csub copp Cth d s u
                n (Z.to_nat k) (length a) a)
      as (m' & y & Hm' & _ & Hy & _ & E); try lia; [exact Ha|].
    rewrite Hm in Hm'. inversion Hm'; subst m'.
    exists (VCplx y).
    change (mapM (Butterfly.forward_complex d s u (Z.of_nat (Z.to_nat k))) a)
      with (band_forward cadd cmul d s u (Z.of_nat (Z.to_nat k)) a).
    rewrite Hy. split; [reflexivity|].
    unfold vmatmul, complex_matmul_value, value_t, complex_matmul. rewrite E.
    reflexivity.
  - apply shape_real in H1, H2, H3.
    destruct H1 as (d & -> & Hd), H2 as (s & -> & Hs), H3 as (u & -> & Hu).
    destruct (@band_forward_matmul R 0 1 Rplus Rmult Rminus Ropp RTheory d s u
                n (Z.to_nat k) 0 [])
      as (m & _ & Hm & Rm & _); try lia; [split; [reflexivity|constructor]|].
    exists (VReal m).
    unfold Butterfly.matrix, Butterfly.forward. cbn [negb Butterfly.complex
      Butterfly.diag Butterfly.subdiag Butterfly.superdiag Butterfly.diagonal].
    rewrite Ek.
    pose proof Hm as Hm0. unfold band_matrix in Hm0.
    destruct (madd Rplus (torch_diag 0 d 0)
                   (torch_diag 0 s (- Z.of_nat (Z.to_nat k)))) as [m1|];
      [|discriminate].
    cbn [obind] in Hm0 |- *. rewrite Hm0. cbn [obind].
    split; [reflexivity|]. split; [split; [reflexivity|exact Rm]|].
    intros x Hx. apply input_of_real in Hx. destruct Hx as (a & -> & Ha).
    destruct (@band_forward_matmul R 0 1 Rplus Rmult Rminus Ropp RTheory d s u
                n (Z.to_nat k) (length a) a)
      as (m' & y & Hm' & _ & Hy & _ & E); try lia; [exact Ha|].
    rewrite Hm in Hm'. inversion Hm'; subst m'.
    exists (VReal y).
    change (mapM (Butterfly.forward_real d s u (Z.of_nat (Z.to_nat k))) a)
      with (band_forward Rplus Rmult d s u (Z.of_nat (Z.to_nat k)) a).
    rewrite Hy. split; [reflexivity|].
    unfold vmatmul, operator_matmul, value_t. rewrite E. reflexivity.
Qed.

(** Claim C3.  For a composer over two factors [F1] and [F2] whose calls agree
    with their matrices: in fixed-order mode, and in learned-order mode with
    the one-hot logits of [test_butterfly_product] (term [i] has a finite
    logit for factor [i] and [-inf] elsewhere, under softmax at a positive
    temperature), [matrix()] is the product [F1 @ F2] of the two matrices,
    and [forward(x)] is [x @ matrix().transpose()]. *)
Theorem MatrixProduct_two_factors
  (F : Type) (HF : Factor F) (mp : MatrixProduct.t F) (f1 f2 : F)
  (M1 M2 x : value) (n : nat) (T : R) :
  (0 < n)%nat ->
  mp.(MatrixProduct.factors) = [f1; f2] ->
  lawful mp.(MatrixProduct.complex) n f1 ->
  lawful mp.(MatrixProduct.complex) n f2 ->
  factor_matrix f1 = Some M1 ->
  factor_matrix f2 = Some M2 ->
  input_of mp.(MatrixProduct.complex) (Z.of_nat n) x ->
  mp.(MatrixProduct.fixed_order) = true \/ (one_hot_selection mp /\ 0 < T) ->
  exists P y,
    vmatmul mp.(MatrixProduct.complex) M1 M2 = Some P
    /\ MatrixProduct.matrix mp T = Some P
    /\ MatrixProduct.forward mp x T = Some y
    /\ vmatmul mp.(MatrixProduct.complex) x (value_t P) = Some y.
Proof.
  intros Hn Ef L1 L2 E1 E2 Hx Hmode.
  assert (Hmode' :
    mp.(MatrixProduct.fixed_order) = true
    \/ (mp.(MatrixProduct.fixed_order) = false
        /\ mp.(MatrixProduct.n_terms) = 2%Z
        /\ exists lg,
            logit_div mp.(MatrixProduct.logit) T = Some lg
            /\ mp.(MatrixProduct.softmax_fn) lg = Some [[1; 0]; [0; 1]])).
  { destruct Hmode as [Hf|[(Hf & Ht & Es & a & b & El) HT]]; [left; exact Hf|].
    right. split; [exact Hf|]. split; [exact Ht|].
    pose proof (softmax_one_hot a b HT) as S. rewrite El, Es.
    destruct (logit_div [[Fin a; NegInf]; [NegInf; Fin b]] T) as [lg|];
      [|discriminate].
    exists lg. split; [reflexivity|exact S]. }
  destruct (MatrixProduct.complex mp) eqn:Ec.
  - apply input_of_cplx in Hx. destruct Hx as (a & -> & Ha).
    destruct (@composer_two_factors F HF C c0 c1 cadd cmul csub copp Cth VCplx true
                cweights (conj eq_refl eq_refl) cplx_matmul (fun m => eq_refl)
                cplx_square cplx_input cplx_stack n Hn mp f1 f2 M1 M2
                (length a) a T Ef L1 L2 E1 E2 Ec Ha Hmode')
      as (P & Q1 & Q2 & Q3 & Q4).
    exists (VCplx P), (VCplx (mmulT c0 cadd cmul a P)). auto.
  - apply input_of_real in Hx. destruct Hx as (a & -> & Ha).
    destruct (@composer_two_factors F HF R 0 1 Rplus Rmult Rminus Ropp RTheory VReal
                false (fun q => q) (conj eq_refl eq_refl) real_matmul
                (fun m => eq_refl) real_square real_input real_stack n Hn mp f1 f2
                M1 M2 (length a) a T Ef L1 L2 E1 E2 Ec Ha Hmode')
      as (P & Q1 & Q2 & Q3 & Q4).
    exists (VReal P), (VReal (mmulT 0 Rplus Rmult a P)). auto.
Qed.

Lemma MatrixProduct_two_factors_witness :
  exists M1 M2 P y,
    Butterfly.matrix example_f1 = Some M1
    /\ Butterfly.matrix example_f2 = Some M2
    /\ vmatmul false M1 M2 = Some P
    /\ MatrixProduct.matrix example_mp 1 = Some P
    /\ MatrixProduct.forward example_mp (VReal [[9; 10]]) 1 = Some y
    /\ vmatmul false (VReal [[9; 10]]) (value_t P) = Some y.
Proof.
  assert (L1 : lawful false 2 example_f1)
    by (apply (Butterfly_lawful example_f1 2); [reflexivity|reflexivity|reflexivity]).
  assert (L2 : lawful false 2 example_f2)
    by (apply (Butterfly_lawful example_f2 2); [reflexivity|reflexivity|reflexivity]).
  pose proof L1 as (M1 & E1 & _).
  change (Butterfly.matrix example_f1 = Some M1) in E1.
  pose proof L2 as (M2 & E2 & _).
  change (Butterfly.matrix example_f2 = Some M2) in E2.
  assert (Hx : input_of false (Z.of_nat 2) (VReal [[9; 10]]))
    by (split; [reflexivity|constructor; [reflexivity|constructor]]).
  assert (Hs : MatrixProduct.fixed_order example_mp = true
               \/ (one_hot_selection example_mp /\ 0 < 1)).
  { right. split; [|lra]. split; [reflexivity|]. split; [reflexivity|].
    split; [reflexivity|]. exists 1, 1. reflexivity. }
  destruct (@MatrixProduct_two_factors Butterfly.t _ example_mp example_f1 example_f2
              M1 M2 (VReal [[9; 10]]) 2 1 Nat.lt_0_2 eq_refl L1 L2 E1 E2 Hx Hs)
    as (P & y & H).
  exists M1, M2, P, y. tauto.
Defined.


(** ** Sinkhorn *)

Lemma is_square_rect (m : list (list R)) :
  is_square m = true <-> rect (length m) (length m) m.
Proof.
  unfold is_square, rect. rewrite forallb_forall, Forall_forall. split.
  - intros H. split; [reflexivity|]. intros row Hr. apply Nat.eqb_eq. auto.
  - intros [_ H] row Hr. apply Nat.eqb_eq. auto.
Qed.

Lemma sub_last_rect r c (m : list (list R)) (v : list R) :
  rect r c m -> length v = r -> rect r c (sub_last m v).
Proof.
  intros [Hl Hf] Hv. unfold sub_last. split.
  - rewrite length_map, length_combine. lia.
  - apply Forall_forall. intros row Hin. apply in_map_iff in Hin.
    destruct Hin as ([row' x] & <- & Hin). cbn [fst snd]. rewrite length_map.
    rewrite Forall_forall in Hf. apply Hf. eapply in_combine_l. exact Hin.
Qed.

Lemma sub_first_rect r c (m : list (list R)) (v : list R) :
  rect r c m -> length v = c -> rect r c (sub_first m v).
Proof.
  intros [Hl Hf] Hv. unfold sub_first. split.
  - rewrite length_map. exact Hl.
  - apply Forall_forall. intros row Hin. apply in_map_iff in Hin.
    destruct Hin as (row' & <- & Hin). rewrite length_map, length_combine.
    rewrite Forall_forall in Hf. rewrite (Hf row' Hin). lia.
Qed.

Lemma logsumexp_first_length r c (m : list (list R)) :
  rect r c m -> (0 < r)%nat -> length (logsumexp_first m) = c.
Proof.
  intros Hm Hr. unfold logsumexp_first, transpose.
  rewrite !length_map, length_seq. apply (rect_ncols Hm Hr).
Qed.

Lemma sinkhorn_step_rect n logit (h : heap) :
  rect n n (h logit) -> rect n n (sinkhorn_step logit h logit).
Proof.
  intros Hm. unfold sinkhorn_step, store. rewrite !Nat.eqb_refl.
  set (m1 := sub_last (h logit) (logsumexp_last (h logit))).
  assert (H1 : rect n n m1).
  { apply sub_last_rect; [exact Hm|]. unfold logsumexp_last.
    rewrite length_map. apply Hm. }
  destruct n as [|n'].
  - destruct H1 as [L1 _]. destruct m1; [|discriminate]. split; [reflexivity|constructor].
  - apply sub_first_rect; [exact H1|].
    apply (logsumexp_first_length H1). lia.
Qed.

Lemma sinkhorn_step_frame logit (h : heap) l :
  l <> logit -> sinkhorn_step logit h l = h l.
Proof.
  intros Hl. unfold sinkhorn_step, store.
  destruct (Nat.eqb_spec l logit); [contradiction|reflexivity].
Qed.

Lemma sinkhorn_loop_rect k n logit (h : heap) :
  rect n n (h logit) -> rect n n (sinkhorn_loop k logit h logit).
Proof.
  revert h. induction k as [|k IH]; intros h Hm; simpl; [exact Hm|].
  apply IH. apply sinkhorn_step_rect. exact Hm.
Qed.

Lemma sinkhorn_loop_frame k logit (h : heap) l :
  l <> logit -> sinkhorn_loop k logit h l = h l.
Proof.
  intros Hl. revert h. induction k as [|k IH]; intros h; simpl; [reflexivity|].
  rewrite IH. apply sinkhorn_step_frame. exact Hl.
Qed.

Lemma map_map_rect {X Y : Type} (f : X -> Y) r c (m : list (list X)) :
  rect r c m -> rect r c (map (map f) m).
Proof.
  intros [Hl Hf]. split; [rewrite length_map; exact Hl|].
  apply Forall_forall. intros row Hin. apply in_map_iff in Hin.
  destruct Hin as (row' & <- & Hin). rewrite length_map.
  rewrite Forall_forall in Hf. auto.
Qed.

(** The normaliser returns a square matrix of the size of its argument. *)
Lemma sinkhorn_of_rect n (m : list (list R)) k :
  rect n n m -> exists perm, sinkhorn_of m k = Some perm /\ rect n n perm.
Proof.
  intros Hm. unfold sinkhorn_of, sinkhorn.
  assert (Hs : is_square m = true).
  { apply is_square_rect. destruct Hm as [Hl Hf]. rewrite Hl. split; assumption. }
  rewrite Hs. cbn [obind snd]. eexists. split; [reflexivity|].
  apply map_map_rect. apply (sinkhorn_loop_rect (Z.to_nat k) 0%nat (fun _ => m)).
  exact Hm.
Qed.

Lemma div_temperature_rect n (m : list (list R)) T :
  T <> 0 -> rect n n m ->
  exists lg, div_temperature m T = Some lg /\ rect n n lg.
Proof.
  intros HT Hm. unfold div_temperature.
  destruct (Req_dec_T T 0); [contradiction|]. eexists. split; [reflexivity|].
  apply map_map_rect. exact Hm.
Qed.

Lemma sumexp_pos (v : list R) : v <> [] -> 0 < sumexp v.
Proof.
  unfold sumexp. destruct v as [|x v]; [congruence|]. intros _. simpl.
  assert (H : 0 <= fold_right Rplus 0 (map exp v)).
  { induction v as [|y v IH]; simpl; [lra|]. pose proof (exp_pos y). lra. }
  pose proof (exp_pos x). lra.
Qed.

Lemma sumexp_shift (v : list R) (c : R) :
  sumexp (map (fun x => x - c) v) = sumexp v / exp c.
Proof.
  unfold sumexp. pose proof (exp_pos c) as Hc.
  induction v as [|x v IH]; simpl; [field; lra|].
  rewrite IH. unfold Rminus at 1. rewrite exp_plus, exp_Ropp. field. lra.
Qed.

Lemma logsumexp_first_tab n (m : list (list R)) :
  rect n n m -> (0 < n)%nat ->
  logsumexp_first m
  = map (fun j => ln (sumexp (map (fun row => nth j row 0) m))) (seq 0 n).
Proof.
  intros Hm Hn. unfold logsumexp_first, transpose.
  rewrite (rect_ncols Hm Hn), map_map. reflexivity.
Qed.

(** After the second subtraction every column has log-sum-exp zero. *)
Lemma logsumexp_first_normalised n (m : list (list R)) :
  rect n n m -> (0 < n)%nat ->
  Forall (fun c => c = 0) (logsumexp_first (sub_first m (logsumexp_first m))).
Proof.
  intros Hm Hn.
  assert (Hl : length (logsumexp_first m) = n)
    by (apply (logsumexp_first_length Hm Hn)).
  rewrite (logsumexp_first_tab (sub_first_rect _ Hm Hl) Hn).
  apply Forall_forall. intros c Hc. apply in_map_iff in Hc.
  destruct Hc as (j & <- & Hj). apply in_seq in Hj.
  unfold sub_first. rewrite map_map.
  set (cj := nth j (logsumexp_first m) 0).
  rewrite (map_ext_in _ (fun row => nth j row 0 - cj)).
  2:{ intros row Hin. destruct Hm as [_ Hf]. rewrite Forall_forall in Hf.
      change (map (fun p => fst p - snd p) (combine row (logsumexp_first m)))
        with (zipw Rminus row (logsumexp_first m)).
      apply zipw_nth; [rewrite (Hf row Hin)|rewrite Hl]; lia. }
  rewrite <- (map_map (fun row => nth j row 0) (fun x => x - cj)).
  rewrite sumexp_shift.
  assert (Ecj : cj = ln (sumexp (map (fun row => nth j row 0) m))).
  { unfold cj. rewrite (logsumexp_first_tab Hm Hn).
    rewrite (nth_indep _ 0 (ln (sumexp (map (fun row => nth 0%nat row 0) m))))
      by (rewrite length_map, length_seq; lia).
    rewrite (map_nth (fun j => ln (sumexp (map (fun row => nth j row 0) m)))
                     (seq 0 n) 0%nat j).
    rewrite seq_nth by lia. reflexivity. }
  assert (Hp : 0 < sumexp (map (fun row => nth j row 0) m)).
  { apply sumexp_pos. destruct Hm as [Hlen _]. destruct m; simpl in *; [lia|discriminate]. }
  rewrite Ecj, exp_ln by exact Hp.
  unfold Rdiv. rewrite Rinv_r by lra. apply ln_1.
Qed.

Lemma sinkhorn_loop_S k logit (h : heap) :
  sinkhorn_loop (S k) logit h = sinkhorn_step logit (sinkhorn_loop k logit h).
Proof.
  revert h. induction k as [|k IH]; intros h; [reflexivity|].
  change (sinkhorn_loop (S (S k)) logit h)
    with (sinkhorn_loop (S k) logit (sinkhorn_step logit h)).
  rewrite IH. reflexivity.
Qed.

(** After at least one turn of the loop every column has log-sum-exp zero. *)
Lemma sinkhorn_loop_normalised k n logit (h : heap) :
  rect n n (h logit) -> (0 < n)%nat -> (0 < k)%nat ->
  Forall (fun c => c = 0) (logsumexp_first (sinkhorn_loop k logit h logit)).
Proof.
  intros Hs Hn Hk. destruct k as [|k]; [lia|].
  rewrite sinkhorn_loop_S.
  pose proof (@sinkhorn_loop_rect k _ logit h Hs) as Hr.
  unfold sinkhorn_step, store. rewrite !Nat.eqb_refl.
  apply (@logsumexp_first_normalised n); [|exact Hn].
  apply sub_last_rect; [exact Hr|].
  unfold logsumexp_last. rewrite length_map. apply Hr.
Qed.

Lemma map_ln_exp (m : list (list R)) : map (map ln) (map (map exp) m) = m.
Proof.
  rewrite map_map. rewrite <- (map_id m) at 2. apply map_ext. intros row.
  rewrite map_map. rewrite <- (map_id row) at 2. apply map_ext. intros x.
  apply ln_exp.
Qed.

(** Claim C10, amended.  A call of [sinkhorn] writes into the tensor it is
    given: afterwards that tensor holds the logarithm of the matrix returned,
    and no other tensor has changed.  With at least one iteration on a
    non-empty tensor, every column of the tensor left behind has
    log-sum-exp zero, so the caller's values have changed whenever some
    column of the original had a log-sum-exp other than zero. *)
Theorem sinkhorn_in_place (logit : loc) (n_iters : Z) (h h' : heap)
        (out : list (list R)) :
  sinkhorn logit n_iters h = Some (h', out) ->
  out = map (map exp) (h' logit)
  /\ map (map ln) out = h' logit
  /\ (forall l, l <> logit -> h' l = h l)
  /\ ((1 <= n_iters)%Z -> h logit <> [] ->
      Forall (fun c => c = 0) (logsumexp_first (h' logit))
      /\ (Exists (fun c => c <> 0) (logsumexp_first (h logit)) ->
          h' logit <> h logit)).
Proof.
  unfold sinkhorn. destruct (is_square (h logit)) eqn:Hs; [|discriminate].
  intros E. inversion E; subst h' out. clear E.
  split; [reflexivity|]. split; [apply map_ln_exp|].
  split; [intros l Hl; apply sinkhorn_loop_frame; exact Hl|].
  intros Hn Hne.
  apply is_square_rect in Hs.
  assert (Hpos : (0 < length (h logit))%nat).
  { destruct (h logit); [congruence|simpl; lia]. }
  assert (Hz : Forall (fun c => c = 0)
                 (logsumexp_first (sinkhorn_loop (Z.to_nat n_iters) logit h logit)))
    by (apply (@sinkhorn_loop_normalised _ _ logit h Hs Hpos); lia).
  split; [exact Hz|].
  intros Hex Heq. rewrite Heq in Hz.
  apply Exists_exists in Hex. destruct Hex as (c & Hin & Hc).
  rewrite Forall_forall in Hz. apply Hc. apply Hz. exact Hin.
Qed.

(** Against claim C10 as stated: the tensor [[0]] is already normalised and
    holds the same values after the call. *)
Lemma sinkhorn_fixed_point :
  exists h' out,
    sinkhorn 0%nat 1 (fun _ => [[0]]) = Some (h', out)
    /\ h' 0%nat = [[0]].
Proof.
  eexists. eexists. split; [reflexivity|].
  cbv [sinkhorn_loop Z.to_nat Pos.to_nat Pos.iter_op Nat.add sinkhorn_step store
       Nat.eqb sub_last sub_first logsumexp_last logsumexp_first transpose ncols
       length seq map combine fst snd sumexp fold_right nth].
  rewrite exp_0, Rplus_0_r, ln_1, Rminus_0_r.
  rewrite exp_0, Rplus_0_r, ln_1, Rminus_0_r. reflexivity.
Qed.


Lemma sinkhorn_step_normalise logit (h : heap) :
  sinkhorn_step logit h logit = normalise_once (h logit).
Proof. unfold sinkhorn_step, store, normalise_once. rewrite !Nat.eqb_refl. reflexivity. Qed.

Lemma sinkhorn_loop_iter k logit (h : heap) :
  sinkhorn_loop k logit h logit = Nat.iter k normalise_once (h logit).
Proof.
  induction k as [|k IH]; [reflexivity|].
  rewrite sinkhorn_loop_S, sinkhorn_step_normalise, IH. reflexivity.
Qed.

(** *** Column sums *)

Lemma transpose_map_exp n (m : list (list R)) :
  rect n n m -> (0 < n)%nat ->
  transpose 0 (map (map exp) m) = map (map exp) (transpose 0 m).
Proof.
  intros Hm Hn.
  rewrite (transpose_tab 0 (map_map_rect exp Hm) Hn), (transpose_tab 0 Hm Hn).
  unfold tab. rewrite map_map. apply map_ext_in. intros i Hi. apply in_seq in Hi.
  rewrite map_map. apply map_ext_in. intros j Hj. apply in_seq in Hj.
  unfold ent. rewrite (map_nth_eq (map exp) m [] j (d' := [])) by reflexivity.
  assert (Hrow : length (nth j m []) = n) by (apply (rect_nth Hm); lia).
  rewrite (nth_indep _ 0 (exp 0)) by (rewrite length_map; lia).
  apply map_nth.
Qed.

Lemma col_sums_exp n (m : list (list R)) :
  rect n n m -> (0 < n)%nat ->
  Forall (fun c => c = 0) (logsumexp_first m) ->
  Forall (fun s => s = 1) (col_sums (map (map exp) m)).
Proof.
  intros Hm Hn Hz. unfold col_sums. rewrite (transpose_map_exp Hm Hn).
  rewrite map_map. apply Forall_forall. intros s Hs. apply in_map_iff in Hs.
  destruct Hs as (col & <- & Hcol).
  assert (Hne : col <> []).
  { rewrite (transpose_tab 0 Hm Hn) in Hcol. unfold tab in Hcol.
    apply in_map_iff in Hcol. destruct Hcol as (i & <- & _).
    destruct n; [lia|]. discriminate. }
  change (fold_right Rplus 0 (map exp col)) with (sumexp col).
  rewrite Forall_forall in Hz.
  assert (E : ln (sumexp col) = 0).
  { apply Hz. unfold logsumexp_first.
    apply (in_map (fun c => ln (sumexp c))). exact Hcol. }
  rewrite <- (exp_ln (sumexp col)) by (apply sumexp_pos; exact Hne).
  rewrite E. apply exp_0.
Qed.


Lemma Forall_Forall_exp_pos (m : list (list R)) :
  Forall (Forall (fun x => 0 < x)) (map (map exp) m).
Proof.
  apply Forall_forall. intros row Hrow. apply in_map_iff in Hrow.
  destruct Hrow as (r0 & <- & _). apply Forall_forall. intros x Hx.
  apply in_map_iff in Hx. destruct Hx as (y & <- & _). apply exp_pos.
Qed.

(** *** Row sums: a slow input *)

Lemma exp_minus_ln (x y : R) : 0 < y -> exp (x - ln y) = exp x / y.
Proof.
  intros Hy. unfold Rminus. rewrite exp_plus, exp_Ropp, exp_ln by exact Hy.
  reflexivity.
Qed.

Lemma normalise_once_2x2 (a b c d : R) :
  normalise_once [[a; b]; [c; d]] =
  let u1 := ln (exp a + (exp b + 0)) in
  let u2 := ln (exp c + (exp d + 0)) in
  let v1 := ln (exp (a - u1) + (exp (c - u2) + 0)) in
  let v2 := ln (exp (b - u1) + (exp (d - u2) + 0)) in
  [[a - u1 - v1; b - u1 - v2]; [c - u2 - v1; d - u2 - v2]].
Proof. reflexivity. Qed.

(** One turn on a 2 x 2 tensor whose entries, exponentiated, are
    [p q / r s] with [p <= 1 <= k q] and [e p s = q r]: the same holds with
    [k + 2] afterwards, and the columns sum to 1. *)
Lemma normalise_once_slow (e k a b c d : R) :
  0 <= k ->
  exp a <= 1 -> 1 <= k * exp b -> e * exp a * exp d = exp b * exp c ->
  exists a' b' c' d',
    normalise_once [[a; b]; [c; d]] = [[a'; b']; [c'; d']]
    /\ exp a' <= 1 /\ 1 <= (k + 2) * exp b'
    /\ e * exp a' * exp d' = exp b' * exp c'
    /\ exp a' + exp c' = 1 /\ exp b' + exp d' = 1.
Proof.
  intros Hk Hp Hq He.
  rewrite normalise_once_2x2. cbv zeta.
  do 4 eexists. split; [reflexivity|].
  pose proof (exp_pos a) as Pa. pose proof (exp_pos b) as Pb.
  pose proof (exp_pos c) as Pc. pose proof (exp_pos d) as Pd.
  set (p := exp a) in *. set (q := exp b) in *.
  set (r := exp c) in *. set (s := exp d) in *.
  rewrite !Rplus_0_r.
  assert (Hu1 : 0 < p + q) by lra. assert (Hu2 : 0 < r + s) by lra.
  rewrite !(exp_minus_ln _ Hu1), !(exp_minus_ln _ Hu2).
  fold p q r s.
  set (p1 := p / (p + q)). set (q1 := q / (p + q)).
  set (r1 := r / (r + s)). set (s1 := s / (r + s)).
  assert (Pp1 : 0 < p1) by (apply Rdiv_lt_0_compat; assumption).
  assert (Pq1 : 0 < q1) by (apply Rdiv_lt_0_compat; assumption).
  assert (Pr1 : 0 < r1) by (apply Rdiv_lt_0_compat; assumption).
  assert (Ps1 : 0 < s1) by (apply Rdiv_lt_0_compat; assumption).
  assert (Hv1 : 0 < p1 + r1) by lra. assert (Hv2 : 0 < q1 + s1) by lra.
  rewrite !(exp_minus_ln _ Hv1), !(exp_minus_ln _ Hv2).
  rewrite !(exp_minus_ln _ Hu1), !(exp_minus_ln _ Hu2).
  fold p q r s. fold p1 q1 r1 s1.
  assert (He1 : e * p1 * s1 = q1 * r1).
  { unfold p1, q1, r1, s1. field_simplify_eq; [|lra]. exact He. }
  assert (Hs1 : s1 <= (k + 1) * q1).
  { unfold s1, q1.
    apply (Rmult_le_reg_r ((r + s) * (p + q))); [apply Rmult_lt_0_compat; lra|].
    replace (s / (r + s) * ((r + s) * (p + q))) with (s * (p + q)) by (field; lra).
    replace ((k + 1) * (q / (p + q)) * ((r + s) * (p + q)))
      with ((k + 1) * q * (r + s)) by (field; lra).
    assert (H1 : s * p <= s * (k * q)) by (apply Rmult_le_compat_l; lra).
    assert (H2 : 0 <= (k + 1) * q * r).
    { apply Rmult_le_pos; [apply Rmult_le_pos|]; lra. }
    lra. }
  repeat split.
  - apply (Rmult_le_reg_r (p1 + r1)); [exact Hv1|].
    replace (p1 / (p1 + r1) * (p1 + r1)) with p1 by (field; lra). lra.
  - apply (Rmult_le_reg_r (q1 + s1)); [exact Hv2|].
    replace ((k + 2) * (q1 / (q1 + s1)) * (q1 + s1)) with ((k + 2) * q1)
      by (field; lra).
    lra.
  - field_simplify_eq; [|lra]. rewrite He1. ring.
  - field; lra.
  - field; lra.
Qed.

Lemma exp_20_big : exp (-20) < / 59049.
Proof.
  replace (-20) with (Ropp 20) by lra.
  rewrite exp_Ropp. apply Rinv_lt_contravar.
  - apply Rmult_lt_0_compat; [lra|apply exp_pos].
  - assert (H2 : 3 < exp 2) by (pose proof (exp_ineq1 2); lra).
    replace 20 with (2 + 2 + 2 + 2 + 2 + (2 + 2 + 2 + 2 + 2)) by lra.
    rewrite !exp_plus. generalize dependent (exp 2). intros t H2.
    assert (H4 : 9 < t * t) by nra.
    assert (H8 : 81 < (t * t) * (t * t)) by nra.
    assert (H16 : 6561 < (t * t) * (t * t) * ((t * t) * (t * t))) by nra.
    replace (t * t * t * t * t * (t * t * t * t * t))
      with ((t * t) * (t * t) * ((t * t) * (t * t)) * (t * t)) by ring.
    apply (Rlt_trans _ (6561 * (t * t))); [lra|].
    apply Rmult_lt_compat_r; lra.
Qed.

(** Five turns on [[0, 0], [-20, 0]] leave a first row that sums to more
    than 1.09. *)
Lemma sinkhorn_slow_rows :
  exists out,
    sinkhorn_of slow_logit 5 = Some out
    /\ 109 / 100 < nth 0 (row_sums out) 0.
Proof.
  unfold sinkhorn_of, sinkhorn. change (is_square slow_logit) with true.
  cbn [obind snd]. eexists. split; [reflexivity|].
  rewrite sinkhorn_loop_iter. change (Z.to_nat 5) with 5%nat.
  cbv beta iota delta [Nat.iter nat_rect slow_logit].
  set (e := exp (-20)).
  assert (I0 : exp 0 <= 1 /\ 1 <= 1 * exp 0 /\ e * exp 0 * exp 0 = exp 0 * exp (-20)).
  { rewrite exp_0. unfold e. lra. }
  destruct I0 as (Hp & Hq & He).
  destruct (@normalise_once_slow e 1 0 0 (-20) 0 ltac:(lra) Hp Hq He)
    as (a1 & b1 & c1 & d1 & -> & Hp1 & Hq1 & He1 & _ & _).
  destruct (@normalise_once_slow e (1 + 2) a1 b1 c1 d1 ltac:(lra) Hp1 Hq1 He1)
    as (a2 & b2 & c2 & d2 & -> & Hp2 & Hq2 & He2 & _ & _).
  destruct (@normalise_once_slow e (1 + 2 + 2) a2 b2 c2 d2 ltac:(lra) Hp2 Hq2 He2)
    as (a3 & b3 & c3 & d3 & -> & Hp3 & Hq3 & He3 & _ & _).
  destruct (@normalise_once_slow e (1 + 2 + 2 + 2) a3 b3 c3 d3 ltac:(lra) Hp3 Hq3 He3)
    as (a4 & b4 & c4 & d4 & -> & Hp4 & Hq4 & He4 & _ & _).
  destruct (@normalise_once_slow e (1 + 2 + 2 + 2 + 2) a4 b4 c4 d4 ltac:(lra) Hp4 Hq4 He4)
    as (a5 & b5 & c5 & d5 & -> & Hp5 & Hq5 & He5 & Hc1 & Hc2).
  cbn [row_sums map nth fold_right].
  pose proof exp_20_big as Hd. fold e in Hd.
  pose proof (exp_pos a5) as Pa. pose proof (exp_pos b5) as Pb.
  pose proof (exp_pos c5) as Pc. pose proof (exp_pos d5) as Pd.
  assert (Pe : 0 < e) by apply exp_pos.
  set (p := exp a5) in *. set (q := exp b5) in *.
  set (r := exp c5) in *. set (s := exp d5) in *.
  assert (Hr : r <= 11 * e).
  { assert (H1 : r <= 11 * (q * r)).
    { replace (11 * (q * r)) with ((1 + 2 + 2 + 2 + 2 + 2) * q * r) by ring.
      replace r with (1 * r) at 1 by ring. apply Rmult_le_compat_r; lra. }
    assert (H2 : e * p * s <= e * 1 * 1).
    { apply Rmult_le_compat; try lra.
      - apply Rmult_le_pos; lra.
      - apply Rmult_le_compat_l; lra. }
    lra. }
  lra.
Qed.

(** Claim C1.  For every Butterfly factor, real or complex, whose diagonal
    offset [k] satisfies [0 < k < n], and every input batch of matching
    size, [forward(x)] returns [x @ matrix().transpose()], with the complex
    matrix product in the complex case.  The entries are exact reals, so the
    two sides are equal, not only close. *)
Theorem Butterfly_forward_matrix (b : Butterfly.t) (x : value) :
  well_shaped b = true ->
  (0 < b.(Butterfly.diagonal))%Z ->
  input_of b.(Butterfly.complex) b.(Butterfly.size) x ->
  exists m y,
    Butterfly.matrix b = Some m
    /\ Butterfly.forward b x = Some y
    /\ (if b.(Butterfly.complex)
        then complex_matmul_value x (value_t m)
        else operator_matmul x (value_t m)) = Some y.
Proof.
  intros Hw Hk Hx.
  assert (Hn : b.(Butterfly.size) = Z.of_nat (Z.to_nat b.(Butterfly.size))).
  { unfold well_shaped in Hw. apply andb_prop in Hw. destruct Hw as [Hw _].
    apply andb_prop in Hw. destruct Hw as [Hw _].
    apply andb_prop in Hw. destruct Hw as [Hw _].
    apply Z.ltb_lt in Hw. lia. }
  destruct (Butterfly_lawful b (Z.to_nat b.(Butterfly.size)) Hw Hk Hn)
    as (m & Em & _ & Hc).
  rewrite Hn in Hx. destruct (Hc x Hx) as (y & Ey & Ez).
  exists m, y. split; [exact Em|]. split; [exact Ey|].
  unfold vmatmul in Ez. destruct (Butterfly.complex b); exact Ez.
Qed.

Lemma Butterfly_forward_matrix_witness :
  exists m y,
    Butterfly.matrix example_cf = Some m
    /\ Butterfly.forward example_cf (VCplx [[(1, 0); (0, 1); (2, 3); (4, 5)]]) = Some y
    /\ complex_matmul_value (VCplx [[(1, 0); (0, 1); (2, 3); (4, 5)]]) (value_t m)
       = Some y.
Proof.
  apply (@Butterfly_forward_matrix example_cf
           (VCplx [[(1, 0); (0, 1); (2, 3); (4, 5)]])).
  - reflexivity.
  - reflexivity.
  - split; [reflexivity|]. constructor; [reflexivity|constructor].
Defined.


(** ** The composer in general *)

Lemma MatrixProduct_forward_matmul
  (F : Type) (HF : Factor F) (mp : MatrixProduct.t F) (f : F) (fs : list F)
  (x : value) (n : nat) (T : R) :
  (0 < n)%nat ->
  mp.(MatrixProduct.factors) = f :: fs ->
  Forall (lawful mp.(MatrixProduct.complex) n) (f :: fs) ->
  input_of mp.(MatrixProduct.complex) (Z.of_nat n) x ->
  selection_ok mp T ->
  exists P y,
    MatrixProduct.matrix mp T = Some P
    /\ square_value mp.(MatrixProduct.complex) n P
    /\ MatrixProduct.forward mp x T = Some y
    /\ input_of mp.(MatrixProduct.complex) (Z.of_nat n) y
    /\ vmatmul mp.(MatrixProduct.complex) x (value_t P) = Some y.
Proof.
  intros Hn Ef Hl Hx Hsel.
  assert (Hsel' :
    mp.(MatrixProduct.fixed_order) = true
    \/ (mp.(MatrixProduct.fixed_order) = false
        /\ exists lg q prob,
            logit_div mp.(MatrixProduct.logit) T = Some lg
            /\ mp.(MatrixProduct.softmax_fn) lg = Some (q :: prob)
            /\ Forall (fun r => length r = S (length fs)) (q :: prob)
            /\ Z.to_nat mp.(MatrixProduct.n_terms) = length (q :: prob))).
  { destruct Hsel as [H|(H & lg & q & prob & H1 & H2 & H3 & H4)]; [left; exact H|].
    right. split; [exact H|]. exists lg, q, prob. rewrite Ef in H3. auto. }
  destruct (MatrixProduct.complex mp) eqn:Ec.
  - apply input_of_cplx in Hx. destruct Hx as (a & -> & Ha).
    destruct (@composer_forward_matmul F HF C c0 c1 cadd cmul csub copp Cth VCplx true
                cweights cplx_matmul (fun m => eq_refl)
                cplx_square cplx_input cplx_stack n Hn mp f fs
                (length a) a T Ef Hl Ec Ha Hsel')
      as (P & Q0 & Q1 & Q2 & Q3).
    exists (VCplx P), (VCplx (mmulT c0 cadd cmul a P)).
    split; [exact Q1|]. split; [split; [reflexivity|exact Q0]|].
    split; [exact Q2|]. split; [|exact Q3].
    apply cplx_input. apply (mmulT_rect c0 cadd cmul Ha Q0).
  - apply input_of_real in Hx. destruct Hx as (a & -> & Ha).
    destruct (@composer_forward_matmul F HF R 0 1 Rplus Rmult Rminus Ropp RTheory VReal
                false (fun q => q) real_matmul
                (fun m => eq_refl) real_square real_input real_stack n Hn mp f fs
                (length a) a T Ef Hl Ec Ha Hsel')
      as (P & Q0 & Q1 & Q2 & Q3).
    exists (VReal P), (VReal (mmulT 0 Rplus Rmult a P)).
    split; [exact Q1|]. split; [split; [reflexivity|exact Q0]|].
    split; [exact Q2|]. split; [|exact Q3].
    apply real_input. apply (mmulT_rect 0 Rplus Rmult Ha Q0).
Qed.

(** ** The product with a learned permutation *)

(** [matrix @ perm] on a complex matrix: the operator multiplies over the
    trailing pair, whose size is 2, so it fails unless [perm] has 2 rows. *)
Lemma operator_matmul_cplx_real_fails (m : list (list C)) (perm : list (list R)) n :
  rect n n m -> (0 < n)%nat -> length perm <> 2%nat ->
  operator_matmul (VCplx m) (VReal perm) = None.
Proof.
  intros [Hl Hf] Hn Hp. unfold operator_matmul.
  destruct m as [|row m]; [simpl in Hl; lia|].
  assert (Hrow : length row = n) by (inversion Hf; assumption).
  destruct row as [|z row]; [simpl in Hrow; lia|].
  cbn [mapM rows2 map]. unfold matmul at 1. cbn [forallb length].
  destruct (Nat.eqb_spec 2 (length perm)) as [E|_]; [congruence|].
  reflexivity.
Qed.

Lemma ButterflyProduct_matrix_complex_fails (bp : ButterflyProduct.t) (n : nat) (T : R) :
  (0 < n)%nat -> n <> 2%nat ->
  bp.(ButterflyProduct.super).(MatrixProduct.complex) = true ->
  bp.(ButterflyProduct.learn_perm) = true ->
  Forall (lawful true n) bp.(ButterflyProduct.super).(MatrixProduct.factors) ->
  rect n n bp.(ButterflyProduct.perm_logit) ->
  ButterflyProduct.matrix bp T = None.
Proof.
  intros Hn Hn2 Ec Elp Hl Hp. unfold ButterflyProduct.matrix. rewrite Elp.
  destruct (MatrixProduct.matrix (ButterflyProduct.super bp) T) as [w|] eqn:Ew;
    [|reflexivity].
  cbn [obind].
  destruct (@matrix_shape Butterfly.t _ C c0 c1 cadd cmul csub copp Cth VCplx true
              cweights cplx_matmul (fun m => eq_refl) cplx_square cplx_input
              cplx_stack n Hn (ButterflyProduct.super bp) T w Hl Ec Ew)
    as (P & -> & HP).
  unfold div_temperature. destruct (Req_dec_T T 0); [reflexivity|]. cbn [obind].
  destruct (@sinkhorn_of_rect n (map (map (fun x => x / T)) (ButterflyProduct.perm_logit bp)) 5)
    as (perm & -> & Hperm); [apply map_map_rect; exact Hp|].
  cbn [obind]. apply (@operator_matmul_cplx_real_fails P perm n HP Hn).
  destruct Hperm as [-> _]. exact Hn2.
Qed.

Lemma planes_rect (xi : list C) n : length xi = n -> rect 2 n (planes xi).
Proof.
  intros E. split; [reflexivity|]. unfold planes.
  repeat constructor; rewrite length_map; exact E.
Qed.

Lemma unplanes_tab n (f : nat -> nat -> R) :
  exists r, unplanes (tab 2 n f) = Some r /\ length r = n.
Proof.
  unfold tab. cbn [seq map unplanes]. rewrite !length_map, Nat.eqb_refl.
  exists (combine (map (fun j => f 0%nat j) (seq 0 n)) (map (fun j => f 1%nat j) (seq 0 n))).
  split; [reflexivity|].
  etransitivity; [apply length_combine|].
  rewrite !length_map, length_seq. lia.
Qed.

Lemma permute_complex_Some (a : list (list C)) (perm : list (list R)) p n :
  (0 < n)%nat -> rect p n a -> rect n n perm ->
  exists r, ButterflyProduct.permute_complex (VCplx a) (transpose 0 perm) = Some (VCplx r)
            /\ rect p n r.
Proof.
  intros Hn [Hl Hf] Hperm. unfold ButterflyProduct.permute_complex.
  assert (H : forall xi, In xi a ->
            exists r, (m <- matmul 0 Rplus Rmult (planes xi) (transpose 0 perm) ;;
                       unplanes m) = Some r /\ length r = n).
  { intros xi Hin. rewrite Forall_forall in Hf.
    rewrite (matmul_mmulT RTheory (@planes_rect xi n (Hf xi Hin)) Hperm Hn Hn).
    cbn [obind]. unfold mmulT. cbn [length planes].
    destruct Hperm as [-> _]. apply unplanes_tab. }
  clear Hf. revert p Hl.
  induction a as [|xi a IH]; intros p Hl.
  - exists []. split; [reflexivity|]. split; [exact Hl|constructor].
  - destruct (H xi (or_introl eq_refl)) as (r & Er & Lr).
    destruct (IH (fun y Hy => H y (or_intror Hy)) (length a) eq_refl)
      as (rs & Ers & Hrs).
    cbn [mapM]. rewrite Er. cbn [obind].
    destruct (mapM _ a) as [rs'|]; [|discriminate]. cbn [obind] in Ers |- *.
    inversion Ers; subst rs'. exists (r :: rs). split; [reflexivity|].
    destruct Hrs as [Lrs Frs]. split; [simpl in *; lia|constructor; assumption].
Qed.

(** The real product with a learned permutation: [forward] is the input
    times the transposed [matrix]. *)
Lemma ButterflyProduct_forward_matmul_real
  (bp : ButterflyProduct.t) (f : Butterfly.t) (fs : list Butterfly.t)
  (x : value) (n : nat) (T : R) :
  (0 < n)%nat ->
  bp.(ButterflyProduct.super).(MatrixProduct.factors) = f :: fs ->
  bp.(ButterflyProduct.super).(MatrixProduct.complex) = false ->
  Forall (lawful false n) (f :: fs) ->
  input_of false (Z.of_nat n) x ->
  selection_ok bp.(ButterflyProduct.super) T ->
  (bp.(ButterflyProduct.learn_perm) = true ->
   T <> 0 /\ rect n n bp.(ButterflyProduct.perm_logit)) ->
  exists P y,
    ButterflyProduct.matrix bp T = Some P
    /\ ButterflyProduct.forward bp x T = Some y
    /\ operator_matmul x (value_t P) = Some y.
Proof.
  intros Hn Ef Ec Hl Hx Hsel Hperm.
  set (mp := ButterflyProduct.super bp) in *.
  assert (Hl' : Forall (lawful (MatrixProduct.complex mp) n) (f :: fs))
    by (rewrite Ec; exact Hl).
  unfold ButterflyProduct.matrix, ButterflyProduct.forward. fold mp.
  destruct (ButterflyProduct.learn_perm bp) eqn:Elp.
  - destruct (Hperm eq_refl) as [HT Hpl].
    destruct (div_temperature_rect HT Hpl) as (lg & -> & Hlg). cbn [obind].
    destruct (sinkhorn_of_rect 5 Hlg) as (perm & -> & Hp). cbn [obind].
    rewrite Ec. cbn [negb].
    pose proof Hx as Hx0. apply input_of_real in Hx0.
    destruct Hx0 as (a & -> & Ha).
    unfold operator_matmul at 2.
    rewrite (matmul_mmulT RTheory Ha Hp Hn Hn). cbn [obind].
    pose proof (mmulT_rect 0 Rplus Rmult Ha Hp) as Ha'.
    assert (Hx' : input_of (MatrixProduct.complex mp) (Z.of_nat n)
                    (VReal (mmulT 0 Rplus Rmult a perm))).
    { rewrite Ec. apply real_input. apply Ha'. }
    destruct (@MatrixProduct_forward_matmul Butterfly.t _ mp f fs _ n T Hn Ef Hl' Hx' Hsel)
      as (P & y & EP & SP & Ey & _ & Ez).
    rewrite Ec in SP, Ez. apply real_square in SP. destruct SP as (P' & -> & HP).
    rewrite EP, Ey. cbn [obind].
    unfold operator_matmul at 1.
    rewrite (matmul_mmul RTheory HP Hp Hn). cbn [obind].
    exists (VReal (mmul 0 Rplus Rmult P' perm)), y.
    split; [reflexivity|]. split; [reflexivity|].
    unfold vmatmul, operator_matmul, value_t in Ez.
    rewrite (matmul_mmulT RTheory Ha' HP Hn Hn) in Ez. cbn [obind] in Ez.
    rewrite <- Ez. unfold operator_matmul, value_t.
    pose proof (mmul_rect 0 Rplus Rmult HP Hp Hn) as HPp.
    rewrite (matmul_mmulT RTheory Ha HPp Hn Hn). cbn [obind].
    rewrite (mmulT_mmul RTheory Ha HP Hp Hn). reflexivity.
  - rewrite Ec in Hl'.
    assert (Hx' : input_of (MatrixProduct.complex mp) (Z.of_nat n) x)
      by (rewrite Ec; exact Hx).
    rewrite <- Ec in Hl'.
    destruct (@MatrixProduct_forward_matmul Butterfly.t _ mp f fs x n T Hn Ef Hl' Hx' Hsel)
      as (P & y & EP & _ & Ey & _ & Ez).
    cbn [obind]. rewrite EP, Ey. cbn [obind].
    exists P, y. split; [reflexivity|]. split; [reflexivity|].
    rewrite Ec in Ez. exact Ez.
Qed.

(** The complex product with a learned permutation: [forward] returns. *)
Lemma ButterflyProduct_forward_complex_Some
  (bp : ButterflyProduct.t) (f : Butterfly.t) (fs : list Butterfly.t)
  (x : value) (n : nat) (T : R) :
  (0 < n)%nat ->
  bp.(ButterflyProduct.super).(MatrixProduct.factors) = f :: fs ->
  bp.(ButterflyProduct.super).(MatrixProduct.complex) = true ->
  Forall (lawful true n) (f :: fs) ->
  input_of true (Z.of_nat n) x ->
  selection_ok bp.(ButterflyProduct.super) T ->
  bp.(ButterflyProduct.learn_perm) = true ->
  T <> 0 ->
  rect n n bp.(ButterflyProduct.perm_logit) ->
  exists y, ButterflyProduct.forward bp x T = Some y.
Proof.
  intros Hn Ef Ec Hl Hx Hsel Elp HT Hpl.
  set (mp := ButterflyProduct.super bp) in *.
  unfold ButterflyProduct.forward. fold mp. rewrite Elp.
  destruct (div_temperature_rect HT Hpl) as (lg & -> & Hlg). cbn [obind].
  destruct (sinkhorn_of_rect 5 Hlg) as (perm & -> & Hp). cbn [obind].
  rewrite Ec. cbn [negb].
  apply input_of_cplx in Hx. destruct Hx as (a & -> & Ha).
  destruct (permute_complex_Some Hn Ha Hp) as (r & -> & Hr). cbn [obind].
  assert (Hl' : Forall (lawful (MatrixProduct.complex mp) n) (f :: fs))
    by (rewrite Ec; exact Hl).
  assert (Hx' : input_of (MatrixProduct.complex mp) (Z.of_nat n) (VCplx r)).
  { rewrite Ec. apply cplx_input. apply Hr. }
  destruct (@MatrixProduct_forward_matmul Butterfly.t _ mp f fs _ n T Hn Ef Hl' Hx' Hsel)
    as (P & y & _ & _ & Ey & _).
  exists y. exact Ey.
Qed.

(** ** Products built by [__init__] *)

Lemma draw_rows_rect r c (g : rng) m g' :
  draw_rows r c g = Some (m, g') -> rect r c m.
Proof.
  revert g m g'. induction r as [|r IH]; intros g m g'; simpl.
  - unfold ret. intros E. inversion E. split; [reflexivity|constructor].
  - intros E. apply bind_Some in E. destruct E as (row & g1 & E1 & E).
    apply bind_Some in E. destruct E as (rest & g2 & E2 & E).
    unfold ret in E. inversion E; subst. unfold draw in E1. inversion E1; subst.
    destruct (IH _ _ _ E2) as [Hl Hf]. split; [simpl; lia|].
    constructor; [rewrite length_map, length_seq; reflexivity|exact Hf].
Qed.

Lemma randn2_rect r c (g : rng) m g' :
  randn2 r c g = Some (m, g') ->
  (0 <= r)%Z /\ (0 <= c)%Z /\ rect (Z.to_nat r) (Z.to_nat c) m.
Proof.
  unfold randn2. destruct (Z.ltb_spec r 0); [discriminate|].
  destruct (Z.ltb_spec c 0); [discriminate|]. cbn [orb].
  intros E. apply draw_rows_rect in E. auto.
Qed.

Lemma ButterflyProduct_init_fields
  (sparsemax : softmax_fn_t) (size : Z) (n_terms : option Z)
  (cplx fixed_order learn_perm : bool) (softmax_fn : string) (g : rng) bp g' :
  ButterflyProduct.init sparsemax size n_terms cplx fixed_order learn_perm
                        softmax_fn g = Some (bp, g') ->
  exists m : nat,
    size = (2 ^ Z.of_nat m)%Z
    /\ (map Butterfly.diagonal bp.(ButterflyProduct.super).(MatrixProduct.factors)
        = descending_offsets m
        /\ length bp.(ButterflyProduct.super).(MatrixProduct.factors) = m
        /\ Forall (fun b => b.(Butterfly.size) = size
                            /\ b.(Butterfly.complex) = cplx
                            /\ well_shaped b = true)
                  bp.(ButterflyProduct.super).(MatrixProduct.factors))
    /\ (bp.(ButterflyProduct.super).(MatrixProduct.n_terms) = default_terms n_terms m
        /\ bp.(ButterflyProduct.super).(MatrixProduct.complex) = cplx
        /\ bp.(ButterflyProduct.super).(MatrixProduct.fixed_order) = fixed_order
        /\ bp.(ButterflyProduct.learn_perm) = learn_perm)
    /\ (learn_perm = true ->
        rect (Z.to_nat size) (Z.to_nat size) bp.(ButterflyProduct.perm_logit))
    /\ (fixed_order = false ->
        known_softmax softmax_fn = true
        /\ bp.(ButterflyProduct.super).(MatrixProduct.softmax_fn)
           = (if String.eqb softmax_fn "softmax" then softmax else sparsemax)
        /\ exists lg,
            bp.(ButterflyProduct.super).(MatrixProduct.logit) = map (map Fin) lg
            /\ (0 <= default_terms n_terms m)%Z
            /\ rect (Z.to_nat (default_terms n_terms m)) m lg).
Proof.
  intros E. unfold ButterflyProduct.init in E.
  apply bind_Some in E. destruct E as (m & g0 & E0 & E).
  apply log2_int_Some in E0. destruct E0 as (-> & -> & Hs).
  apply bind_Some in E. destruct E as (u & g1 & E1 & E).
  apply assert_Some in E1. destruct E1 as (Ep & ->).
  apply Z.eqb_eq in Ep. pose proof (Z.log2_nonneg size) as Hl.
  rewrite Z.shiftl_1_l in Ep.
  assert (Es : size = (2 ^ Z.of_nat (Z.to_nat (Z.log2 size)))%Z)
    by (rewrite Z2Nat.id by lia; exact Ep).
  set (mm := Z.to_nat (Z.log2 size)) in *.
  exists mm. split; [exact Es|].
  apply bind_Some in E. destruct E as (fs & g2 & Ef & E).
  destruct (factors_spec cplx mm g Es) as (fs' & g2' & Ef' & Hd & Hlen & Hp).
  rewrite Ef in Ef'. inversion Ef'; subst fs' g2'. clear Ef'.
  apply bind_Some in E. destruct E as (base & g3 & Eb & E).
  assert (Hbp : bp.(ButterflyProduct.super) = base
                /\ bp.(ButterflyProduct.learn_perm) = learn_perm
                /\ (learn_perm = true ->
                    rect (Z.to_nat size) (Z.to_nat size) bp.(ButterflyProduct.perm_logit))).
  { destruct learn_perm.
    - apply bind_Some in E. destruct E as (pl & g4 & Epl & E).
      unfold ret in E. inversion E. cbn. split; [reflexivity|].
      split; [reflexivity|]. intros _. apply (randn2_rect _ _ _ Epl).
    - unfold ret in E. inversion E. cbn. split; [reflexivity|].
      split; [reflexivity|discriminate]. }
  destruct Hbp as (-> & Hlp & Hperm).
  unfold MatrixProduct.init in Eb. destruct fixed_order; cbn [negb] in Eb.
  - unfold ret in Eb. inversion Eb; subst base. cbn.
    rewrite Hlen. split; [auto|]. split; [destruct n_terms; auto|].
    split; [exact Hperm|discriminate].
  - apply bind_Some in Eb. destruct Eb as (u1 & g4 & Ea & Eb).
    apply assert_Some in Ea. destruct Ea as (Ea & ->).
    apply bind_Some in Eb. destruct Eb as (lg & g5 & Elg & Eb).
    unfold ret in Eb. inversion Eb; subst base. cbn.
    rewrite Hlen. split; [auto|]. split; [destruct n_terms; auto|].
    split; [exact Hperm|]. intros _. split; [exact Ea|]. split; [reflexivity|].
    exists lg. split; [reflexivity|].
    apply randn2_rect in Elg. rewrite Hlen in Elg.
    destruct Elg as (Hnt & _ & Hrect). rewrite Nat2Z.id in Hrect.
    destruct n_terms; cbn [default_terms]; auto.
Qed.

Lemma logit_div_finite (lg : list (list R)) (T : R) :
  T <> 0 ->
  logit_div (map (map Fin) lg) T = Some (map (map (fun x => Fin (x / T))) lg).
Proof.
  intros HT. unfold logit_div. rewrite mapM_map.
  apply mapM_total. intros row _. rewrite mapM_map.
  apply mapM_total. intros x _. unfold ediv.
  destruct (Req_dec_T T 0); [contradiction|reflexivity].
Qed.

Lemma softmax_finite (f : R -> R) (lg : list (list R)) t m :
  rect t m lg ->
  exists prob, softmax (map (map (fun x => Fin (f x))) lg) = Some prob
               /\ rect t m prob.
Proof.
  intros [Hl Hf]. unfold softmax. rewrite mapM_map.
  exists (map (fun row =>
            map (fun x => eexp x / fold_right Rplus 0
                                     (map eexp (map (fun x => Fin (f x)) row)))
                (map (fun x => Fin (f x)) row)) lg).
  split.
  - apply mapM_total. intros row _. destruct row as [|x row]; reflexivity.
  - split; [rewrite length_map; exact Hl|].
    apply Forall_forall. intros r Hr. apply in_map_iff in Hr.
    destruct Hr as (row & <- & Hin). rewrite !length_map.
    rewrite Forall_forall in Hf. auto.
Qed.

Lemma descending_offsets_pos (fs : list Butterfly.t) m :
  map Butterfly.diagonal fs = descending_offsets m ->
  Forall (fun b => (0 < b.(Butterfly.diagonal))%Z) fs.
Proof.
  intros E. apply Forall_forall. intros b Hb.
  assert (Hin : In (Butterfly.diagonal b) (descending_offsets m))
    by (rewrite <- E; apply in_map; exact Hb).
  unfold descending_offsets in Hin. apply in_map_iff in Hin.
  destruct Hin as (i & <- & _). apply Z.pow_pos_nonneg; lia.
Qed.

Lemma init_lawful
  (sparsemax : softmax_fn_t) (size : Z) (n_terms : option Z)
  (cplx fixed_order learn_perm : bool) (softmax_fn : string) (g : rng) bp g' :
  ButterflyProduct.init sparsemax size n_terms cplx fixed_order learn_perm
                        softmax_fn g = Some (bp, g') ->
  Forall (lawful cplx (Z.to_nat size))
         bp.(ButterflyProduct.super).(MatrixProduct.factors).
Proof.
  intros E. apply ButterflyProduct_init_fields in E.
  destruct E as (m & Es & (Hd & _ & Hf) & _).
  apply descending_offsets_pos in Hd.
  apply Forall_forall. intros b Hb. rewrite Forall_forall in Hd, Hf.
  destruct (Hf b Hb) as (Hsz & Hc & Hw). rewrite <- Hc.
  apply Butterfly_lawful; [exact Hw|apply Hd; exact Hb|].
  rewrite Hsz. assert (0 < size)%Z by (rewrite Es; apply Z.pow_pos_nonneg; lia).
  lia.
Qed.

Lemma init_selection_ok
  (sparsemax : softmax_fn_t) (size : Z) (n_terms : option Z)
  (cplx fixed_order learn_perm : bool) (softmax_fn : string) (g : rng) bp g'
  (T : R) :
  ButterflyProduct.init sparsemax size n_terms cplx fixed_order learn_perm
                        softmax_fn g = Some (bp, g') ->
  fixed_order = true
  \/ (softmax_fn = "softmax"%string
      /\ match n_terms with Some t => (1 <= t)%Z | None => (2 <= size)%Z end) ->
  T <> 0 ->
  selection_ok bp.(ButterflyProduct.super) T.
Proof.
  intros E Hmode HT. apply ButterflyProduct_init_fields in E.
  destruct E as (m & Es & (_ & Hlen & _) & (Hnt & _ & Hfo & _) & _ & Hlearn).
  unfold selection_ok. rewrite Hfo.
  destruct fixed_order; [left; reflexivity|]. right. split; [reflexivity|].
  destruct Hmode as [Hmode|(-> & Hmode)]; [discriminate|].
  destruct (Hlearn eq_refl) as (_ & Esm & lg & Elg & Hnn & Hrect).
  cbn in Esm. rewrite Elg, Esm, Hlen, Hnt.
  rewrite (logit_div_finite lg HT).
  destruct (softmax_finite (fun x => x / T) Hrect) as (prob & Eprob & [Hpl Hpf]).
  assert (Hm : (1 <= default_terms n_terms m)%Z).
  { destruct n_terms as [t|]; cbn [default_terms]; [exact Hmode|].
    destruct m as [|m']; [|lia]. rewrite Es in Hmode. simpl in Hmode. lia. }
  destruct prob as [|q prob]; [simpl in Hpl; lia|].
  exists (map (map (fun x => Fin (x / T))) lg), q, prob.
  split; [reflexivity|]. split; [exact Eprob|]. split; [exact Hpf|].
  symmetry. exact Hpl.
Qed.

(** A real product built by [__init__]: [forward] is the input times the
    transposed [matrix], with or without the learned permutation. *)
Lemma ButterflyProduct_real_forward_matmul
  (sparsemax : softmax_fn_t) (size : Z) (n_terms : option Z)
  (fixed_order learn_perm : bool) (softmax_fn : string) (g : rng) bp g'
  (x : value) (T : R) :
  ButterflyProduct.init sparsemax size n_terms false fixed_order learn_perm
                        softmax_fn g = Some (bp, g') ->
  (2 <= size)%Z ->
  fixed_order = true
  \/ (softmax_fn = "softmax"%string
      /\ match n_terms with Some t => (1 <= t)%Z | None => (2 <= size)%Z end) ->
  T <> 0 ->
  input_of false size x ->
  exists P y,
    ButterflyProduct.matrix bp T = Some P
    /\ ButterflyProduct.forward bp x T = Some y
    /\ operator_matmul x (value_t P) = Some y.
Proof.
  intros E Hs Hmode HT Hx.
  pose proof E as Hl. apply init_lawful in Hl.
  assert (Hsel : selection_ok (ButterflyProduct.super bp) T)
    by (eapply init_selection_ok; eassumption).
  apply ButterflyProduct_init_fields in E.
  destruct E as (m & Es & (_ & Hlen & _) & (_ & Hc & _ & Hlp) & Hperm & _).
  destruct (MatrixProduct.factors (ButterflyProduct.super bp)) as [|f fs] eqn:Ef.
  { simpl in Hlen. subst m. simpl in Es. lia. }
  assert (Hn : size = Z.of_nat (Z.to_nat size)) by lia.
  rewrite Hn in Hx.
  apply (@ButterflyProduct_forward_matmul_real bp f fs x (Z.to_nat size) T);
    try assumption; [lia|].
  intros Elp. rewrite Hlp in Elp. auto.
Qed.

(** A complex product with a learned permutation, built by [__init__]:
    [matrix()] fails for every size but 2. *)
Lemma ButterflyProduct_complex_perm_matrix_None
  (sparsemax : softmax_fn_t) (size : Z) (n_terms : option Z)
  (fixed_order : bool) (softmax_fn : string) (g : rng) bp g' (T : R) :
  ButterflyProduct.init sparsemax size n_terms true fixed_order true
                        softmax_fn g = Some (bp, g') ->
  size <> 2%Z ->
  ButterflyProduct.matrix bp T = None.
Proof.
  intros E Hs.
  pose proof E as Hl. apply init_lawful in Hl.
  apply ButterflyProduct_init_fields in E.
  destruct E as (m & Es & _ & (_ & Hc & _ & Hlp) & Hperm & _).
  assert (Hp : (0 < size)%Z) by (rewrite Es; apply Z.pow_pos_nonneg; lia).
  apply (@ButterflyProduct_matrix_complex_fails bp (Z.to_nat size) T);
    auto; lia.
Qed.

(** Claim C6, at the failing input [ButterflyProduct(4, complex=True,
    learn_perm=True)]: whatever the parameters drawn, the product is built,
    [matrix(temperature)] fails at every temperature ([matrix @ perm]
    multiplies over the trailing pair of the complex matrix, of size 2, and
    [perm] has 4 rows), and [forward(x, temperature)] returns on every
    complex input of size 4 at every non-zero temperature.  So [forward(x)]
    cannot equal [x @ matrix().transpose()] for the complex variant. *)
Theorem ButterflyProduct_complex_perm_mismatch (sparsemax : softmax_fn_t) (g : rng) :
  exists bp g',
    ButterflyProduct.init sparsemax 4 None true false true "softmax" g = Some (bp, g')
    /\ (forall T, ButterflyProduct.matrix bp T = None)
    /\ (forall T x, T <> 0 -> input_of true 4 x ->
                    exists y, ButterflyProduct.forward bp x T = Some y).
Proof.
  destruct (@ButterflyProduct_init_succeeds sparsemax 2%nat None true false true
              "softmax"%string g) as (bp & g' & E);
    [right; reflexivity|cbn; lia|].
  change (2 ^ Z.of_nat 2)%Z with 4%Z in E.
  exists bp, g'. split; [exact E|]. split.
  - intros T. eapply ButterflyProduct_complex_perm_matrix_None; [exact E|lia].
  - intros T x HT Hx.
    pose proof E as Hl. apply init_lawful in Hl.
    assert (Hsel : selection_ok (ButterflyProduct.super bp) T).
    { eapply init_selection_ok; [exact E| |exact HT].
      right. split; [reflexivity|lia]. }
    apply ButterflyProduct_init_fields in E.
    destruct E as (m & Es & (_ & Hlen & _) & (_ & Hc & _ & Hlp) & Hperm & _).
    destruct (MatrixProduct.factors (ButterflyProduct.super bp)) as [|f fs] eqn:Ef.
    { simpl in Hlen. subst m. simpl in Es. lia. }
    apply (@ButterflyProduct_forward_complex_Some bp f fs x (Z.to_nat 4) T);
      auto; lia.
Qed.

(** ** Instances of the theorems *)

Lemma Butterfly_init_succeeds_iff_witness :
  exists b g',
    Butterfly.init 4 1 true (Some (TCplx test_diag)) (Some (TCplx test_subdiag))
                   (Some (TCplx test_subdiag)) (fun _ => 0) = Some (b, g').
Proof.
  apply (proj2 (proj1 (Butterfly_init_succeeds_iff 4 1 true (Some (TCplx test_diag))
                         (Some (TCplx test_subdiag)) (Some (TCplx test_subdiag))
                         (fun _ => 0)))).
  split; [lia|]. split; [reflexivity|]. split; reflexivity.
Defined.

Lemma ButterflyProduct_init_spec_witness :
  exists bp g' m,
    ButterflyProduct.init (fun _ => None) 4 None false false false "softmax"
                          (fun _ => 0) = Some (bp, g')
    /\ 4%Z = (2 ^ Z.of_nat m)%Z
    /\ map Butterfly.diagonal bp.(ButterflyProduct.super).(MatrixProduct.factors)
       = descending_offsets m
    /\ bp.(ButterflyProduct.super).(MatrixProduct.n_terms) = Z.of_nat m.
Proof.
  destruct (@ButterflyProduct_init_succeeds (fun _ => None) 2%nat None false false
              false "softmax"%string (fun _ => 0)) as (bp & g' & E);
    [right; reflexivity|cbn; lia|].
  change (2 ^ Z.of_nat 2)%Z with 4%Z in E.
  destruct (proj2 (ButterflyProduct_init_spec (fun _ => None) 4 None false false
                     false "softmax" (fun _ => 0)) bp g' E)
    as (m & Es & Hd & _ & _ & Ht).
  exists bp, g', m. auto.
Defined.

Lemma sinkhorn_in_place_witness :
  map (map ln) (map (map exp) (sinkhorn_loop 5 0%nat (fun _ => [[1]]) 0%nat))
  = sinkhorn_loop 5 0%nat (fun _ => [[1]]) 0%nat
  /\ forall l, l <> 0%nat -> sinkhorn_loop 5 0%nat (fun _ => [[1]]) l = [[1]].
Proof.
  destruct (@sinkhorn_in_place 0%nat 5 (fun _ => [[1]])
              (sinkhorn_loop 5 0%nat (fun _ => [[1]]))
              (map (map exp) (sinkhorn_loop 5 0%nat (fun _ => [[1]]) 0%nat))
              eq_refl) as (_ & H1 & H2 & _).
  split; [exact H1|exact H2].
Defined.


(** ** More on [sinkhorn] *)

Lemma fold_right_Rplus_sum_n (l : list R) :
  fold_right Rplus 0 l = sum_n 0 Rplus (fun i => nth i l 0) (length l).
Proof.
  induction l as [|x l IH]; [reflexivity|].
  cbn [fold_right length]. rewrite IH.
  rewrite (sum_n_shift RTheory). cbn [nth]. ring.
Qed.

Lemma fold_right_map_seq (g : nat -> R) n :
  fold_right Rplus 0 (map g (seq 0 n)) = sum_n 0 Rplus g n.
Proof.
  rewrite fold_right_Rplus_sum_n, length_map, length_seq.
  apply sum_n_ext. intros j Hj.
  rewrite (nth_indep _ 0 (g 0%nat)) by (rewrite length_map, length_seq; lia).
  rewrite (map_nth g (seq 0 n) 0%nat j), seq_nth by lia. reflexivity.
Qed.

Lemma row_sums_tab r c (f : nat -> nat -> R) :
  fold_right Rplus 0 (row_sums (tab r c f))
  = sum_n 0 Rplus (fun i => sum_n 0 Rplus (fun j => f i j) c) r.
Proof.
  unfold row_sums, tab. rewrite map_map.
  rewrite fold_right_map_seq. apply sum_n_ext. intros i _.
  apply fold_right_map_seq.
Qed.

(** The row sums and the column sums of a matrix add up to the same. *)
Lemma sum_rows_cols r c (m : list (list R)) :
  rect r c m -> (0 < r)%nat ->
  fold_right Rplus 0 (row_sums m) = fold_right Rplus 0 (col_sums m).
Proof.
  intros Hm Hr. unfold col_sums. rewrite (transpose_tab 0 Hm Hr).
  change (map (fold_right Rplus 0) (tab c r (fun i j => ent 0 m j i)))
    with (row_sums (tab c r (fun i j => ent 0 m j i))).
  rewrite row_sums_tab. rewrite (mat_tab 0 Hm) at 1. rewrite row_sums_tab.
  apply (sum_n_swap RTheory).
Qed.

Lemma fold_right_ones (l : list R) :
  Forall (fun s => s = 1) l -> fold_right Rplus 0 l = INR (length l).
Proof.
  induction 1 as [|x l Hx _ IH]; [reflexivity|].
  cbn [fold_right length]. rewrite IH, Hx, S_INR. ring.
Qed.

Lemma col_sums_length r c (m : list (list R)) :
  rect r c m -> (0 < r)%nat -> length (col_sums m) = c.
Proof.
  intros Hm Hr. unfold col_sums, transpose.
  rewrite !length_map, length_seq. apply (rect_ncols Hm Hr).
Qed.

(** What [sinkhorn] returns after at least one turn, in one place.  The
    entries are exponentials: positive over the reals, where a floating
    point exponential may round to 0; the statements on the entries below
    ask for non-negative entries only. *)
Lemma sinkhorn_result (logit : loc) (h : heap) (n : nat) (n_iters : Z) :
  rect n n (h logit) -> (0 < n)%nat -> (1 <= n_iters)%Z ->
  exists h' out,
    sinkhorn logit n_iters h = Some (h', out)
    /\ rect n n out
    /\ Forall (Forall (fun x => 0 < x)) out
    /\ Forall (fun s => s = 1) (col_sums out).
Proof.
  intros Hm Hn Hk. unfold sinkhorn.
  assert (Hs : is_square (h logit) = true).
  { apply is_square_rect. destruct Hm as [Hl Hf]. rewrite Hl. split; assumption. }
  rewrite Hs. do 2 eexists. split; [reflexivity|].
  pose proof (@sinkhorn_loop_rect (Z.to_nat n_iters) n logit h Hm) as Hr.
  split; [apply map_map_rect; exact Hr|].
  split; [apply Forall_Forall_exp_pos|].
  apply (col_sums_exp Hr Hn).
  apply (@sinkhorn_loop_normalised _ n logit h Hm Hn). lia.
Qed.

(** The entries of what [sinkhorn] returns add up to the side of the
    tensor: the row sums, whatever they are, average to 1. *)
Theorem sinkhorn_total_mass (logit : loc) (h : heap) (n : nat) (n_iters : Z) :
  rect n n (h logit) -> (0 < n)%nat -> (1 <= n_iters)%Z ->
  exists h' out,
    sinkhorn logit n_iters h = Some (h', out)
    /\ total_sum out = INR n.
Proof.
  intros Hm Hn Hk.
  destruct (sinkhorn_result logit h Hm Hn Hk) as (h' & out & E & Hr & _ & Hc).
  exists h', out. split; [exact E|].
  unfold total_sum. rewrite (sum_rows_cols Hr Hn).
  rewrite (fold_right_ones Hc). f_equal. apply (col_sums_length Hr Hn).
Qed.

Lemma sinkhorn_total_mass_witness :
  exists h' out,
    sinkhorn 0%nat 5 (fun _ => slow_logit) = Some (h', out)
    /\ total_sum out = INR 2.
Proof.
  apply (@sinkhorn_total_mass 0%nat (fun _ => slow_logit) 2 5).
  - split; [reflexivity|]. repeat constructor.
  - lia.
  - lia.
Defined.

Lemma le_fold_right_pos (l : list R) (x : R) :
  Forall (fun y => 0 < y) l -> In x l -> x <= fold_right Rplus 0 l.
Proof.
  induction 1 as [|y l Hy Hl IH]; intros Hin; [contradiction|].
  cbn [fold_right].
  assert (H0 : 0 <= fold_right Rplus 0 l).
  { clear IH Hin. induction Hl as [|z l Hz _ IH]; cbn [fold_right]; lra. }
  destruct Hin as [->|Hin]; [lra|]. specialize (IH Hin). lra.
Qed.

(** Every entry of what [sinkhorn] returns lies between 0 and 1, both
    included. *)
Theorem sinkhorn_entries_unit (logit : loc) (h : heap) (n : nat) (n_iters : Z) :
  rect n n (h logit) -> (0 < n)%nat -> (1 <= n_iters)%Z ->
  exists h' out,
    sinkhorn logit n_iters h = Some (h', out)
    /\ Forall (Forall (fun x => 0 <= x <= 1)) out.
Proof.
  intros Hm Hn Hk.
  destruct (sinkhorn_result logit h Hm Hn Hk) as (h' & out & E & Hr & Hp & Hc).
  exists h', out. split; [exact E|].
  rewrite Forall_forall in Hp.
  apply Forall_forall. intros row Hrow. apply Forall_forall. intros x Hx.
  pose proof (Hp row Hrow) as Hprow. rewrite Forall_forall in Hprow.
  split; [apply Rlt_le; apply Hprow; exact Hx|].
  destruct (In_nth _ _ [] Hrow) as (i & Hi & Ei).
  destruct (In_nth _ _ 0 Hx) as (j & Hj & Ej).
  pose proof Hr as [Hl Hf]. rewrite Forall_forall in Hf.
  rewrite (Hf row Hrow) in Hj. rewrite Hl in Hi.
  set (col := nth j (transpose 0 out) []).
  assert (Ecol : col = map (fun i => ent 0 out i j) (seq 0 n)).
  { unfold col. rewrite (transpose_tab 0 Hr Hn). unfold tab.
    rewrite (nth_indep _ [] (map (fun j0 => ent 0 out j0 0%nat) (seq 0 n)))
      by (rewrite length_map, length_seq; lia).
    rewrite (map_nth (fun i0 => map (fun j0 => ent 0 out j0 i0) (seq 0 n))
                     (seq 0 n) 0%nat j).
    rewrite seq_nth by lia. reflexivity. }
  assert (Hsum : fold_right Rplus 0 col = 1).
  { rewrite Forall_forall in Hc. apply Hc. unfold col_sums.
    apply in_map. unfold col. apply nth_In.
    unfold transpose. rewrite length_map, length_seq, (rect_ncols Hr Hn). exact Hj. }
  rewrite <- Hsum. apply le_fold_right_pos.
  - rewrite Ecol. apply Forall_forall. intros y Hy. apply in_map_iff in Hy.
    destruct Hy as (i' & <- & Hi'). apply in_seq in Hi'.
    unfold ent.
    assert (Hrow' : In (nth i' out []) out) by (apply nth_In; lia).
    pose proof (Hp _ Hrow') as Hq. rewrite Forall_forall in Hq. apply Hq.
    apply nth_In. rewrite (Hf _ Hrow'). exact Hj.
  - rewrite Ecol. apply in_map_iff. exists i. split.
    + unfold ent. rewrite Ei. exact Ej.
    + apply in_seq. lia.
Qed.

Lemma sinkhorn_entries_unit_witness :
  exists h' out,
    sinkhorn 0%nat 5 (fun _ => slow_logit) = Some (h', out)
    /\ Forall (Forall (fun x => 0 <= x <= 1)) out.
Proof.
  apply (@sinkhorn_entries_unit 0%nat (fun _ => slow_logit) 2 5).
  - split; [reflexivity|]. repeat constructor.
  - lia.
  - lia.
Defined.

(** *** Calls on the same tensor compose *)

Lemma sinkhorn_loop_add a b logit (h : heap) :
  sinkhorn_loop (a + b) logit h = sinkhorn_loop b logit (sinkhorn_loop a logit h).
Proof.
  revert h. induction a as [|a IH]; intros h; [reflexivity|].
  cbn [Nat.add sinkhorn_loop]. apply IH.
Qed.

(** The tensor that a call leaves behind is where the next call starts:
    a call with [a] turns followed by a call with [b] turns on the same
    tensor returns what one call with [a + b] turns returns, and leaves
    the same store. *)
Theorem sinkhorn_calls_compose (logit : loc) (h h1 : heap) (a b : Z)
        (out1 : list (list R)) :
  (0 <= a)%Z -> (0 <= b)%Z ->
  sinkhorn logit a h = Some (h1, out1) ->
  sinkhorn logit b h1 = sinkhorn logit (a + b) h.
Proof.
  intros Ha Hb. unfold sinkhorn.
  destruct (is_square (h logit)) eqn:Hs; [|discriminate].
  intros E. inversion E as [[E1 E2]]. clear E E2.
  assert (Hr : rect (length (h logit)) (length (h logit)) (h logit))
    by (apply is_square_rect; exact Hs).
  pose proof (@sinkhorn_loop_rect (Z.to_nat a) _ logit h Hr) as Hr1.
  assert (Hs1 : is_square (sinkhorn_loop (Z.to_nat a) logit h logit) = true).
  { apply is_square_rect. destruct Hr1 as [Hl Hf]. rewrite Hl. split; assumption. }
  rewrite Hs1. rewrite Z2Nat.inj_add by assumption.
  rewrite sinkhorn_loop_add. reflexivity.
Qed.

Lemma sinkhorn_calls_compose_witness :
  sinkhorn 0%nat 3 (sinkhorn_loop 2 0%nat (fun _ => slow_logit))
  = sinkhorn 0%nat (2 + 3) (fun _ => slow_logit).
Proof.
  apply (@sinkhorn_calls_compose 0%nat (fun _ => slow_logit) _ 2 3
           (map (map exp) (sinkhorn_loop 2 0%nat (fun _ => slow_logit) 0%nat))).
  - lia.
  - lia.
  - reflexivity.
Defined.

(** *** Doubly stochastic matrices are fixed *)

Lemma sub_last_zero n (m : list (list R)) (v : list R) :
  rect n n m -> length v = n -> Forall (fun c => c = 0) v -> sub_last m v = m.
Proof.
  intros [Hl Hf] Hv Hz. unfold sub_last.
  apply (nth_ext _ _ [] []).
  - rewrite length_map, length_combine. lia.
  - intros i Hi. rewrite length_map, length_combine in Hi.
    change (map (fun p => map (fun x => x - snd p) (fst p)) (combine m v))
      with (zipw (fun row c => map (fun x => x - c) row) m v).
    rewrite (zipw_nth _ m v [] 0 []) by lia.
    rewrite Forall_forall in Hz.
    rewrite (Hz (nth i v 0)) by (apply nth_In; lia).
    rewrite <- (map_id (nth i m [])) at 2. apply map_ext. intros x. lra.
Qed.

Lemma sub_first_zero n (m : list (list R)) (v : list R) :
  rect n n m -> length v = n -> Forall (fun c => c = 0) v -> sub_first m v = m.
Proof.
  intros [Hl Hf] Hv Hz. unfold sub_first.
  rewrite <- (map_id m) at 2. apply map_ext_in. intros row Hrow.
  rewrite Forall_forall in Hf. pose proof (Hf row Hrow) as Hlen.
  apply (nth_ext _ _ 0 0).
  - rewrite length_map, length_combine. lia.
  - intros j Hj. rewrite length_map, length_combine in Hj.
    change (map (fun p => fst p - snd p) (combine row v)) with (zipw Rminus row v).
    rewrite (zipw_nth Rminus row v 0 0 0) by lia.
    rewrite Forall_forall in Hz.
    rewrite (Hz (nth j v 0)) by (apply nth_In; lia). lra.
Qed.

Lemma normalise_once_fixed n (m : list (list R)) :
  rect n n m -> (0 < n)%nat ->
  doubly_stochastic (map (map exp) m) -> normalise_once m = m.
Proof.
  intros Hm Hn [Hrs Hcs]. unfold normalise_once.
  assert (Z1 : Forall (fun c => c = 0) (logsumexp_last m)).
  { unfold logsumexp_last. apply Forall_forall. intros c Hc.
    apply in_map_iff in Hc. destruct Hc as (row & <- & Hrow).
    rewrite Forall_forall in Hrs.
    replace (sumexp row) with 1; [apply ln_1|]. symmetry. apply Hrs.
    unfold row_sums. rewrite map_map.
    apply (in_map (fun r => fold_right Rplus 0 (map exp r))). exact Hrow. }
  rewrite (sub_last_zero Hm); [| unfold logsumexp_last; rewrite length_map; apply Hm | exact Z1].
  assert (Z2 : Forall (fun c => c = 0) (logsumexp_first m)).
  { unfold logsumexp_first. apply Forall_forall. intros c Hc.
    apply in_map_iff in Hc. destruct Hc as (col & <- & Hcol).
    rewrite Forall_forall in Hcs.
    replace (sumexp col) with 1; [apply ln_1|]. symmetry. apply Hcs.
    unfold col_sums. rewrite (transpose_map_exp Hm Hn), map_map.
    apply (in_map (fun r => fold_right Rplus 0 (map exp r))). exact Hcol. }
  apply (sub_first_zero Hm); [apply (logsumexp_first_length Hm Hn) | exact Z2].
Qed.

(** On the logarithm of a doubly stochastic matrix, [sinkhorn] returns that
    matrix and leaves the tensor as it was, whatever the number of turns. *)
Theorem sinkhorn_doubly_stochastic_fixed
        (logit : loc) (h : heap) (n : nat) (n_iters : Z) :
  rect n n (h logit) -> (0 < n)%nat ->
  doubly_stochastic (map (map exp) (h logit)) ->
  exists h',
    sinkhorn logit n_iters h = Some (h', map (map exp) (h logit))
    /\ forall l, h' l = h l.
Proof.
  intros Hm Hn Hd. unfold sinkhorn.
  assert (Hs : is_square (h logit) = true).
  { apply is_square_rect. destruct Hm as [Hl Hf]. rewrite Hl. split; assumption. }
  rewrite Hs.
  assert (Hfix : forall k l, sinkhorn_loop k logit h l = h l).
  { intros k l. destruct (Nat.eq_dec l logit) as [->|Hne].
    - rewrite sinkhorn_loop_iter. induction k as [|k IH]; [reflexivity|].
      cbn [Nat.iter nat_rect]. unfold Nat.iter in IH. rewrite IH.
      apply (normalise_once_fixed Hm Hn Hd).
    - apply sinkhorn_loop_frame. exact Hne. }
  eexists. split; [rewrite Hfix; reflexivity|]. intros l. apply Hfix.
Qed.

Lemma sinkhorn_doubly_stochastic_fixed_witness :
  exists h',
    sinkhorn 0%nat 5 (fun _ => [[0]]) = Some (h', map (map exp) [[0]])
    /\ forall l, h' l = [[0]].
Proof.
  apply (@sinkhorn_doubly_stochastic_fixed 0%nat (fun _ => [[0]]) 1 5).
  - split; [reflexivity|]. repeat constructor.
  - lia.
  - unfold doubly_stochastic, row_sums, col_sums. cbn.
    rewrite exp_0, Rplus_0_r. split; repeat constructor.
Defined.

(** *** Shifts of the rows *)

Lemma map_nth_lt {X Y : Type} (f : X -> Y) (l : list X) (d : X) (d' : Y) i :
  (i < length l)%nat -> nth i (map f l) d' = f (nth i l d).
Proof.
  intros Hi. rewrite (nth_indep _ d' (f d)) by (rewrite length_map; exact Hi).
  apply map_nth.
Qed.

Lemma sumexp_plus (v : list R) (c : R) :
  sumexp (map (fun x => x + c) v) = sumexp v * exp c.
Proof.
  unfold sumexp. induction v as [|x v IH]; simpl; [ring|].
  rewrite IH, exp_plus. ring.
Qed.

Lemma sub_last_shift_rows n (m : list (list R)) (a : list R) :
  rect n n m -> (0 < n)%nat -> length a = n ->
  sub_last (shift_rows m a) (logsumexp_last (shift_rows m a))
  = sub_last m (logsumexp_last m).
Proof.
  intros [Hl Hf] Hn Ha. unfold sub_last, logsumexp_last.
  apply (nth_ext _ _ [] []).
  - rewrite !length_map, !length_combine, !length_map. unfold shift_rows.
    rewrite zipw_length. lia.
  - intros i Hi. rewrite length_map, length_combine, length_map in Hi.
    unfold shift_rows in Hi. rewrite zipw_length in Hi.
    set (f := fun row c => map (fun x : R => x - c) row).
    change (map (fun p => map (fun x => x - snd p) (fst p)) ?l)
      with (map (fun p => f (fst p) (snd p)) l).
    change (map (fun p => f (fst p) (snd p)) (combine ?u ?w)) with (zipw f u w).
    rewrite !(zipw_nth f _ _ [] 0 [])
      by (rewrite ?length_map; unfold shift_rows; rewrite ?zipw_length; lia).
    unfold shift_rows.
    rewrite (zipw_nth _ m a [] 0 []) by lia.
    rewrite !(map_nth_lt (fun row => ln (sumexp row)) _ [] 0)
      by (rewrite ?zipw_length; lia).
    rewrite (zipw_nth _ m a [] 0 []) by lia.
    set (row := nth i m []). set (c := nth i a 0).
    assert (Hrow : row <> []).
    { rewrite Forall_forall in Hf.
      assert (Hlen : length row = n) by (apply Hf; apply nth_In; lia).
      destruct row; [simpl in Hlen; lia|discriminate]. }
    unfold f. rewrite map_map. apply map_ext. intros x.
    rewrite sumexp_plus.
    rewrite ln_mult by (try apply exp_pos; apply sumexp_pos; exact Hrow).
    rewrite ln_exp. ring.
Qed.

(** Adding a constant to each row of the logits (one constant per row)
    does not change what [sinkhorn] returns after at least one turn. *)
Theorem sinkhorn_row_shift (m : list (list R)) (a : list R) (n : nat) (n_iters : Z) :
  rect n n m -> (0 < n)%nat -> length a = n -> (1 <= n_iters)%Z ->
  exists out,
    sinkhorn_of m n_iters = Some out
    /\ sinkhorn_of (shift_rows m a) n_iters = Some out.
Proof.
  intros Hm Hn Ha Hk.
  assert (Hm' : rect n n (shift_rows m a)).
  { destruct Hm as [Hl Hf]. unfold shift_rows. split.
    - rewrite zipw_length. lia.
    - apply Forall_forall. intros row Hrow. unfold zipw in Hrow.
      apply in_map_iff in Hrow. destruct Hrow as ([r c] & <- & Hin).
      cbn [fst snd]. rewrite length_map. rewrite Forall_forall in Hf.
      apply Hf. eapply in_combine_l. exact Hin. }
  unfold sinkhorn_of, sinkhorn.
  assert (Hs : is_square m = true).
  { apply is_square_rect. destruct Hm as [Hl Hf]. rewrite Hl. split; assumption. }
  assert (Hs' : is_square (shift_rows m a) = true).
  { apply is_square_rect. destruct Hm' as [Hl Hf]. rewrite Hl. split; assumption. }
  rewrite Hs, Hs'. cbn [obind snd]. eexists. split; [reflexivity|].
  do 2 f_equal.
  destruct (Z.to_nat n_iters) as [|k] eqn:Ek; [lia|].
  cbn [sinkhorn_loop]. rewrite !sinkhorn_loop_iter. f_equal.
  rewrite !sinkhorn_step_normalise. unfold normalise_once.
  rewrite (@sub_last_shift_rows n m a Hm Hn Ha). reflexivity.
Qed.

Lemma sinkhorn_row_shift_witness :
  exists out,
    sinkhorn_of slow_logit 5 = Some out
    /\ sinkhorn_of (shift_rows slow_logit [3; -7]) 5 = Some out.
Proof.
  apply (@sinkhorn_row_shift slow_logit [3; -7] 2 5).
  - split; [reflexivity|]. repeat constructor.
  - lia.
  - reflexivity.
  - lia.
Defined.

(** ** The sums of the rows and of the columns of what [sinkhorn] returns *)

Lemma combine_self_map {X Y : Type} (f : X -> Y) (l : list X) :
  combine l (map f l) = map (fun x => (x, f x)) l.
Proof. induction l as [|x l IH]; simpl; [|rewrite IH]; reflexivity. Qed.

(** The first subtraction of a turn, row by row *)
Lemma sub_last_rows (m : list (list R)) :
  sub_last m (logsumexp_last m)
  = map (fun row => map (fun x => x - ln (sumexp row)) row) m.
Proof.
  unfold sub_last, logsumexp_last. rewrite combine_self_map, map_map. reflexivity.
Qed.

Lemma sumexp_row_normalised (row : list R) :
  row <> [] -> sumexp (map (fun x => x - ln (sumexp row)) row) = 1.
Proof.
  intros Hne. pose proof (sumexp_pos Hne) as Hp.
  rewrite sumexp_shift, exp_ln by exact Hp. field. lra.
Qed.

Lemma exp_le_sumexp (v : list R) (x : R) : In x v -> exp x <= sumexp v.
Proof.
  intros Hin. unfold sumexp. apply le_fold_right_pos.
  - apply Forall_forall. intros y Hy. apply in_map_iff in Hy.
    destruct Hy as (z & <- & _). apply exp_pos.
  - apply in_map. exact Hin.
Qed.

Lemma sumexp_le_length (v : list R) :
  Forall (fun x => exp x <= 1) v -> sumexp v <= INR (length v).
Proof.
  unfold sumexp. induction 1 as [|x v Hx _ IH]; [simpl; lra|].
  cbn [map fold_right length]. rewrite S_INR. lra.
Qed.

(** Dividing the entries of a row by column sums that are at most [N]
    leaves at least the [N]-th part of the sum of the row. *)
Lemma sumexp_sub_bound (N : R) (r lse : list R) :
  0 < N -> length r = length lse -> Forall (fun l => exp l <= N) lse ->
  sumexp r / N
  <= fold_right Rplus 0 (map exp (map (fun p => fst p - snd p) (combine r lse))).
Proof.
  intros HN. unfold sumexp. revert lse.
  induction r as [|x r IH]; intros [|l lse] Hlen Hl; try discriminate.
  - simpl. unfold Rdiv. rewrite Rmult_0_l. lra.
  - cbn [combine map fold_right fst snd].
    injection Hlen as Hlen. inversion Hl as [|? ? Hl0 Hl']; subst.
    specialize (IH lse Hlen Hl').
    unfold Rminus at 1. rewrite exp_plus, exp_Ropp.
    pose proof (exp_pos x) as Px. pose proof (exp_pos l) as Pl.
    assert (Hx : exp x / N <= exp x * / exp l).
    { unfold Rdiv. apply Rmult_le_compat_l; [lra|].
      apply Rinv_le_contravar; assumption. }
    replace ((exp x + fold_right Rplus 0 (map exp r)) / N)
      with (exp x / N + fold_right Rplus 0 (map exp r) / N) by (field; lra).
    lra.
Qed.

(** After one turn on a non-empty square tensor every row sums to at least
    [1 / n]: the rows are normalised first, so no column sum that the
    second subtraction divides by exceeds [n]. *)
Lemma normalise_once_rows (n : nat) (m : list (list R)) :
  rect n n m -> (0 < n)%nat ->
  Forall (fun s => / INR n <= s) (row_sums (map (map exp) (normalise_once m))).
Proof.
  intros Hm Hn. unfold normalise_once. cbv zeta.
  set (m1 := sub_last m (logsumexp_last m)).
  assert (Hm1 : rect n n m1).
  { apply sub_last_rect; [exact Hm|]. unfold logsumexp_last.
    rewrite length_map. apply Hm. }
  assert (Hrows : forall row, In row m1 -> sumexp row = 1 /\ length row = n).
  { intros row Hrow. split; [|destruct Hm1 as [_ Hf]; rewrite Forall_forall in Hf;
                               apply Hf; exact Hrow].
    unfold m1 in Hrow. rewrite sub_last_rows in Hrow. apply in_map_iff in Hrow.
    destruct Hrow as (r0 & <- & Hr0). apply sumexp_row_normalised.
    destruct Hm as [_ Hf]. rewrite Forall_forall in Hf.
    pose proof (Hf r0 Hr0) as Hlen. destruct r0; [simpl in Hlen; lia|discriminate]. }
  assert (HN : 0 < INR n) by (apply lt_0_INR; exact Hn).
  assert (Hcols : Forall (fun l => exp l <= INR n) (logsumexp_first m1)).
  { rewrite (logsumexp_first_tab Hm1 Hn). apply Forall_forall. intros l Hl.
    apply in_map_iff in Hl. destruct Hl as (j & <- & Hj). apply in_seq in Hj.
    set (col := map (fun row => nth j row 0) m1).
    assert (Hcl : length col = n) by (unfold col; rewrite length_map; apply Hm1).
    assert (Hne : col <> []) by (destruct col; [simpl in Hcl; lia|discriminate]).
    rewrite exp_ln by (apply sumexp_pos; exact Hne).
    rewrite <- Hcl. apply sumexp_le_length.
    apply Forall_forall. intros x Hx. unfold col in Hx. apply in_map_iff in Hx.
    destruct Hx as (row & <- & Hrow). destruct (Hrows row Hrow) as [Hs Hlen].
    rewrite <- Hs. apply exp_le_sumexp. apply nth_In. lia. }
  unfold row_sums, sub_first. rewrite !map_map.
  apply Forall_forall. intros s Hs. apply in_map_iff in Hs.
  destruct Hs as (row & <- & Hrow). destruct (Hrows row Hrow) as [Hsum Hlen].
  replace (/ INR n) with (sumexp row / INR n)
    by (rewrite Hsum; unfold Rdiv; apply Rmult_1_l).
  apply sumexp_sub_bound; [exact HN| |exact Hcols].
  rewrite Hlen. symmetry. apply (logsumexp_first_length Hm1 Hn).
Qed.

(** Claim C5, amended.  On every non-empty square tensor and for every
    iteration count of at least 1, [sinkhorn] returns a square matrix that
    depends on the values of the tensor and on the count only.  Every one of
    its columns sums to 1 (the last subtraction normalises the columns).
    Its rows were normalised before the columns: each of them sums to at
    least [1 / n], and together they sum to [n], so that they average to 1;
    no row is bound to sum to nearly 1 after five turns. *)
Theorem sinkhorn_row_and_column_sums
        (logit : loc) (h : heap) (n : nat) (n_iters : Z) :
  rect n n (h logit) -> (0 < n)%nat -> (1 <= n_iters)%Z ->
  exists h' out,
    sinkhorn logit n_iters h = Some (h', out)
    /\ sinkhorn_of (h logit) n_iters = Some out
    /\ rect n n out
    /\ Forall (fun s => s = 1) (col_sums out)
    /\ Forall (fun s => / INR n <= s) (row_sums out)
    /\ total_sum out = INR n.
Proof.
  intros Hm Hn Hk.
  destruct (sinkhorn_result logit h Hm Hn Hk) as (h' & out & E & Hr & _ & Hc).
  exists h', out. split; [exact E|].
  assert (Eout : out = map (map exp) (Nat.iter (Z.to_nat n_iters) normalise_once
                                               (h logit))).
  { unfold sinkhorn in E. destruct (is_square (h logit)); [|discriminate].
    inversion E. rewrite sinkhorn_loop_iter. reflexivity. }
  split.
  { unfold sinkhorn_of, sinkhorn.
    assert (Hs : is_square (h logit) = true).
    { apply is_square_rect. destruct Hm as [Hl Hf]. rewrite Hl. split; assumption. }
    rewrite Hs. cbn [obind snd]. rewrite sinkhorn_loop_iter, Eout. reflexivity. }
  split; [exact Hr|]. split; [exact Hc|]. split.
  - rewrite Eout. destruct (Z.to_nat n_iters) as [|k] eqn:Ek; [lia|].
    cbn [Nat.iter nat_rect]. apply normalise_once_rows; [|exact Hn].
    pose proof (@sinkhorn_loop_rect k n logit h Hm) as Hk'.
    rewrite sinkhorn_loop_iter in Hk'. exact Hk'.
  - unfold total_sum. rewrite (sum_rows_cols Hr Hn).
    rewrite (fold_right_ones Hc). f_equal. apply (col_sums_length Hr Hn).
Qed.

Lemma sinkhorn_row_and_column_sums_witness :
  exists h' out,
    sinkhorn 0%nat 5 (fun _ => slow_logit) = Some (h', out)
    /\ sinkhorn_of slow_logit 5 = Some out
    /\ rect 2 2 out
    /\ Forall (fun s => s = 1) (col_sums out)
    /\ Forall (fun s => / INR 2 <= s) (row_sums out)
    /\ total_sum out = INR 2.
Proof.
  apply (@sinkhorn_row_and_column_sums 0%nat (fun _ => slow_logit) 2 5).
  - split; [reflexivity|]. repeat constructor.
  - lia.
  - lia.
Defined.

(** ** More on [Butterfly] *)

(** *** Lengths through broadcasting *)

Lemma bzipM_Some_length {X : Type} (f : X -> X -> X) (a b r : list X) :
  bzipM (fun x y => Some (f x y)) a b = Some r ->
  (length a = length b /\ length r = length a)
  \/ (length a = 1%nat /\ length r = length b)
  \/ (length b = 1%nat /\ length r = length a).
Proof.
  unfold bzipM. destruct (Nat.eqb_spec (length a) (length b)) as [E|N].
  - intros H. apply mapM_length in H. rewrite length_combine in H. left. lia.
  - destruct a as [|a0 [|a1 a]].
    + destruct b as [|b0 [|b1 b]]; try discriminate.
      intros H. apply mapM_length in H. right. right. simpl in *. lia.
    + intros H. apply mapM_length in H. right. left. simpl in *. lia.
    + destruct b as [|b0 [|b1 b]]; try discriminate.
      intros H. apply mapM_length in H. right. right. simpl in *. lia.
Qed.

Lemma iaddM_Some_length {X : Type} (f : X -> X -> X) (tgt rhs r : list X) :
  iaddM (fun x y => Some (f x y)) tgt rhs = Some r ->
  length tgt = length rhs \/ length rhs = 1%nat.
Proof.
  unfold iaddM. destruct (Nat.eqb_spec (length tgt) (length rhs)) as [E|N].
  - intros _. left. exact E.
  - destruct rhs as [|r0 [|r1 rhs]]; try discriminate. intros _. right. reflexivity.
Qed.

Section BandEdge.

Variable A : Type.
Variables (zero : A) (add mul : A -> A -> A).

(** With an offset that is not positive the first in-place addition cannot
    be carried out: the slice [input_[..., :-k]] is too short for
    [subdiag]. *)
Lemma band_forward_row_nonpositive (d s u x : list A) (n : nat) (k : Z) :
  (k <= 0)%Z -> (1 <= n)%nat ->
  length d = n -> Z.of_nat (length s) = (Z.of_nat n - k)%Z -> length x = n ->
  band_forward_row add mul d s u k x = None.
Proof.
  intros Hk Hn Hd Hs Hx. unfold band_forward_row.
  destruct (vmul mul d x) as [output|] eqn:E1; [|reflexivity]. cbn [obind].
  destruct (vmul mul s (slice_to (- k) x)) as [lo|] eqn:E2; [|reflexivity].
  cbn [obind].
  destruct (iadd_from add k output lo) as [o2|] eqn:E3; [|reflexivity].
  exfalso.
  unfold vmul in E1, E2. apply bzipM_Some_length in E1, E2.
  unfold iadd_from in E3.
  destruct (iaddM (total2 add) (skipn (py_bound (length output) k) output) lo)
    as [t|] eqn:E4; [|discriminate].
  apply iaddM_Some_length in E4. rewrite length_skipn in E4.
  unfold slice_to in E2. rewrite length_firstn in E2.
  assert (Ho : length output = n) by lia. rewrite Ho in E4.
  rewrite Hx in E2. unfold py_bound in E2, E4.
  destruct (Z.ltb_spec (- k) 0); destruct (Z.ltb_spec k 0); lia.
Qed.

End BandEdge.

Lemma well_shaped_inv (b : Butterfly.t) :
  well_shaped b = true ->
  (b.(Butterfly.diagonal) < b.(Butterfly.size))%Z
  /\ shape_eqb (shape b.(Butterfly.diag))
               (diag_shape b.(Butterfly.size) b.(Butterfly.complex)) = true
  /\ shape_eqb (shape b.(Butterfly.subdiag))
               (diag_shape (b.(Butterfly.size) - b.(Butterfly.diagonal))
                           b.(Butterfly.complex)) = true
  /\ shape_eqb (shape b.(Butterfly.superdiag))
               (diag_shape (b.(Butterfly.size) - b.(Butterfly.diagonal))
                           b.(Butterfly.complex)) = true.
Proof.
  unfold well_shaped, diag_shape. intros Hw.
  apply andb_prop in Hw; destruct Hw as [Hw H3].
  apply andb_prop in Hw; destruct Hw as [Hw H2].
  apply andb_prop in Hw; destruct Hw as [H0 H1].
  apply Z.ltb_lt in H0. auto.
Qed.

(** A factor whose offset is zero or negative is accepted by [__init__],
    but it cannot be applied: on every batch with at least one row of the
    factor's size, [forward] fails at
    [output[..., k:] += subdiag * input_[..., :-k]]. *)
Theorem Butterfly_forward_nonpositive_diagonal (b : Butterfly.t) (x : value) :
  well_shaped b = true ->
  (b.(Butterfly.diagonal) <= 0)%Z ->
  (1 <= b.(Butterfly.size))%Z ->
  input_of b.(Butterfly.complex) b.(Butterfly.size) x ->
  has_rows x ->
  Butterfly.forward b x = None.
Proof.
  intros Hw Hk Hn Hx Hr. apply well_shaped_inv in Hw.
  destruct b as [sz k cplx dg sb sp].
  cbn [Butterfly.size Butterfly.diagonal Butterfly.complex Butterfly.diag
       Butterfly.subdiag Butterfly.superdiag] in *.
  destruct Hw as (_ & H1 & H2 & _). unfold diag_shape in H1, H2.
  unfold Butterfly.forward.
  cbn [Butterfly.size Butterfly.diagonal Butterfly.complex Butterfly.diag
       Butterfly.subdiag Butterfly.superdiag].
  destruct cplx; cbn [negb].
  - apply shape_cplx in H1, H2.
    destruct H1 as (d & -> & Hd), H2 as (s & -> & Hs).
    destruct sp as [u|u]; [reflexivity|].
    destruct x as [a|a]; [reflexivity|]. destruct Hx as [_ Hx].
    destruct a as [|row a]; [exfalso; apply Hr; reflexivity|].
    rewrite (mapM_None _ (row :: a) row); [reflexivity|left; reflexivity|].
    apply (@band_forward_row_nonpositive C cadd cmul d s u row (Z.to_nat sz) k);
      try lia.
    apply Forall_inv in Hx. lia.
  - apply shape_real in H1, H2.
    destruct H1 as (d & -> & Hd), H2 as (s & -> & Hs).
    destruct sp as [u|u]; [|reflexivity].
    destruct x as [a|a]; [|reflexivity]. destruct Hx as [_ Hx].
    destruct a as [|row a]; [exfalso; apply Hr; reflexivity|].
    rewrite (mapM_None _ (row :: a) row); [reflexivity|left; reflexivity|].
    apply (@band_forward_row_nonpositive R Rplus Rmult d s u row (Z.to_nat sz) k);
      try lia.
    apply Forall_inv in Hx. lia.
Qed.

Lemma Butterfly_forward_nonpositive_diagonal_witness :
  Butterfly.forward
    (Butterfly.mk 2 0 false (TReal [1; 2]) (TReal [3; 4]) (TReal [5; 6]))
    (VReal [[1; 1]]) = None.
Proof.
  apply (@Butterfly_forward_nonpositive_diagonal
           (Butterfly.mk 2 0 false (TReal [1; 2]) (TReal [3; 4]) (TReal [5; 6]))
           (VReal [[1; 1]])).
  - reflexivity.
  - cbn. lia.
  - cbn. lia.
  - split; [reflexivity|]. constructor; [reflexivity|constructor].
  - cbn. discriminate.
Defined.

(** *** The matrix, entry by entry *)

Section BandEntries.

Variable A : Type.
Variables (zero one : A) (add mul sub : A -> A -> A) (opp : A -> A).
Hypothesis Ath : ring_theory zero one add mul sub opp eq.

Add Ring Aring2 : Ath.

Lemma band_ent_at (d s u : list A) (k i j : nat) :
  (0 < k)%nat -> band_ent zero add d s u k i j = band_at zero d s u k i j.
Proof.
  intros Hk. unfold band_ent, band_at.
  destruct (Nat.eqb_spec j i), (Nat.eqb_spec i (j + k)), (Nat.eqb_spec j (i + k));
    try lia; ring.
Qed.

Lemma band_matrix_entries (d s u : list A) (n k : nat) :
  (0 < k)%nat -> (k < n)%nat ->
  length d = n -> length s = (n - k)%nat -> length u = (n - k)%nat ->
  exists m,
    band_matrix zero add d s u (Z.of_nat k) = Some m
    /\ rect n n m
    /\ forall i j, (i < n)%nat -> (j < n)%nat ->
                   ent zero m i j = band_at zero d s u k i j.
Proof.
  intros Hk Hkn Hd Hs Hu. eexists. split; [apply (@band_matrix_tab A zero add d s u n k); assumption|].
  split; [apply tab_rect|]. intros i j Hi Hj.
  rewrite tab_ent by assumption. apply band_ent_at. exact Hk.
Qed.

(** Exchanging [s] and [u] transposes the band matrix. *)
Lemma band_matrix_swap (d s u : list A) (n k : nat) :
  (0 < k)%nat -> (k < n)%nat ->
  length d = n -> length s = (n - k)%nat -> length u = (n - k)%nat ->
  exists m,
    band_matrix zero add d s u (Z.of_nat k) = Some m
    /\ band_matrix zero add d u s (Z.of_nat k) = Some (transpose zero m).
Proof.
  intros Hk Hkn Hd Hs Hu. eexists. split; [apply (@band_matrix_tab A zero add d s u n k); assumption|].
  rewrite (@band_matrix_tab A zero add d u s n k) by assumption. f_equal.
  rewrite (transpose_tab zero (tab_rect n n _)) by lia.
  apply tab_ext. intros i j Hi Hj. rewrite tab_ent by assumption.
  unfold band_ent.
  destruct (Nat.eqb_spec j i), (Nat.eqb_spec i j), (Nat.eqb_spec i (j + k)),
    (Nat.eqb_spec j (i + k)); try lia; subst; ring.
Qed.

End BandEntries.

Lemma Butterfly_matrix_real (sz k : Z) (d s u : list R) :
  Butterfly.matrix (Butterfly.mk sz k false (TReal d) (TReal s) (TReal u))
  = (m <- band_matrix 0 Rplus d s u k ;; Some (VReal m)).
Proof.
  unfold Butterfly.matrix, band_matrix.
  cbn [negb Butterfly.complex Butterfly.diag Butterfly.subdiag Butterfly.superdiag
       Butterfly.diagonal].
  destruct (madd Rplus (torch_diag 0 d 0) (torch_diag 0 s (- k))); reflexivity.
Qed.

Lemma Butterfly_matrix_cplx (sz k : Z) (d s u : list C) :
  Butterfly.matrix (Butterfly.mk sz k true (TCplx d) (TCplx s) (TCplx u))
  = (m <- band_matrix c0 cadd d s u k ;; Some (VCplx m)).
Proof.
  unfold Butterfly.matrix, band_matrix.
  cbn [negb Butterfly.complex Butterfly.diag Butterfly.subdiag Butterfly.superdiag
       Butterfly.diagonal].
  rewrite !diag_embed_t_diag.
  destruct (madd cadd (torch_diag c0 d 0) (torch_diag c0 s (- k))); reflexivity.
Qed.

(** The tensors of a well-shaped factor, by kind *)
Lemma well_shaped_tensors (b : Butterfly.t) (n : nat) (k : Z) :
  well_shaped b = true ->
  b.(Butterfly.size) = Z.of_nat n -> b.(Butterfly.diagonal) = k ->
  (exists d s u,
      b = Butterfly.mk (Z.of_nat n) k false (TReal d) (TReal s) (TReal u)
      /\ length d = n
      /\ Z.of_nat (length s) = (Z.of_nat n - k)%Z
      /\ Z.of_nat (length u) = (Z.of_nat n - k)%Z)
  \/ (exists d s u,
      b = Butterfly.mk (Z.of_nat n) k true (TCplx d) (TCplx s) (TCplx u)
      /\ length d = n
      /\ Z.of_nat (length s) = (Z.of_nat n - k)%Z
      /\ Z.of_nat (length u) = (Z.of_nat n - k)%Z).
Proof.
  intros Hw En Ek. apply well_shaped_inv in Hw.
  destruct b as [sz k' cplx dg sb sp].
  cbn [Butterfly.size Butterfly.diagonal Butterfly.complex Butterfly.diag
       Butterfly.subdiag Butterfly.superdiag] in *.
  subst sz k'. destruct Hw as (_ & H1 & H2 & H3). unfold diag_shape in *.
  destruct cplx.
  - right. apply shape_cplx in H1, H2, H3.
    destruct H1 as (d & -> & Hd), H2 as (s & -> & Hs), H3 as (u & -> & Hu).
    exists d, s, u. repeat split; try assumption; lia.
  - left. apply shape_real in H1, H2, H3.
    destruct H1 as (d & -> & Hd), H2 as (s & -> & Hs), H3 as (u & -> & Hu).
    exists d, s, u. repeat split; try assumption; lia.
Qed.

(** For a factor of size [n] with offset [0 < k], [matrix()] is the [n] by
    [n] matrix that holds [diag] on its diagonal, [subdiag] on its [k]-th
    subdiagonal, [superdiag] on its [k]-th superdiagonal, and zero
    elsewhere. *)
Theorem Butterfly_matrix_entries (b : Butterfly.t) (n k : nat) :
  well_shaped b = true ->
  b.(Butterfly.size) = Z.of_nat n -> b.(Butterfly.diagonal) = Z.of_nat k ->
  (0 < k)%nat ->
  (exists d s u m,
      b.(Butterfly.diag) = TReal d /\ b.(Butterfly.subdiag) = TReal s
      /\ b.(Butterfly.superdiag) = TReal u
      /\ Butterfly.matrix b = Some (VReal m)
      /\ rect n n m
      /\ forall i j, (i < n)%nat -> (j < n)%nat ->
                     ent 0 m i j = band_at 0 d s u k i j)
  \/ (exists d s u m,
      b.(Butterfly.diag) = TCplx d /\ b.(Butterfly.subdiag) = TCplx s
      /\ b.(Butterfly.superdiag) = TCplx u
      /\ Butterfly.matrix b = Some (VCplx m)
      /\ rect n n m
      /\ forall i j, (i < n)%nat -> (j < n)%nat ->
                     ent c0 m i j = band_at c0 d s u k i j).
Proof.
  intros Hw En Ek Hk.
  assert (Hkn : (k < n)%nat).
  { apply well_shaped_inv in Hw. destruct Hw as (Hlt & _). lia. }
  destruct (@well_shaped_tensors b n (Z.of_nat k) Hw En Ek)
    as [(d & s & u & -> & Hd & Hs & Hu)|(d & s & u & -> & Hd & Hs & Hu)].
  - left.
    destruct (@band_matrix_entries R 0 1 Rplus Rmult Rminus Ropp RTheory d s u n k)
      as (m & Em & Hm & He); try lia.
    exists d, s, u, m. rewrite Butterfly_matrix_real, Em. cbn [obind].
    repeat split; try reflexivity; try apply Hm. exact He.
  - right.
    destruct (@band_matrix_entries C c0 c1 cadd cmul csub copp Cth d s u n k)
      as (m & Em & Hm & He); try lia.
    exists d, s, u, m. rewrite Butterfly_matrix_cplx, Em. cbn [obind].
    repeat split; try reflexivity; try apply Hm. exact He.
Qed.

Lemma Butterfly_matrix_entries_witness :
  (exists d s u m,
      example_f1.(Butterfly.diag) = TReal d /\ example_f1.(Butterfly.subdiag) = TReal s
      /\ example_f1.(Butterfly.superdiag) = TReal u
      /\ Butterfly.matrix example_f1 = Some (VReal m)
      /\ rect 2 2 m
      /\ forall i j, (i < 2)%nat -> (j < 2)%nat ->
                     ent 0 m i j = band_at 0 d s u 1 i j)
  \/ (exists d s u m,
      example_f1.(Butterfly.diag) = TCplx d /\ example_f1.(Butterfly.subdiag) = TCplx s
      /\ example_f1.(Butterfly.superdiag) = TCplx u
      /\ Butterfly.matrix example_f1 = Some (VCplx m)
      /\ rect 2 2 m
      /\ forall i j, (i < 2)%nat -> (j < 2)%nat ->
                     ent c0 m i j = band_at c0 d s u 1 i j).
Proof.
  apply (@Butterfly_matrix_entries example_f1 2 1).
  - reflexivity.
  - reflexivity.
  - reflexivity.
  - lia.
Defined.

(** Exchanging [subdiag] and [superdiag] transposes the matrix of a factor
    (offset [0 < k]); with [subdiag = superdiag], as in [test_butterfly],
    the matrix is symmetric. *)
Theorem Butterfly_matrix_swap_transpose (b : Butterfly.t) :
  well_shaped b = true ->
  (0 < b.(Butterfly.diagonal))%Z ->
  exists m,
    Butterfly.matrix b = Some m
    /\ Butterfly.matrix (swap_diagonals b) = Some (value_t m).
Proof.
  intros Hw Hk.
  assert (Hkn : (b.(Butterfly.diagonal) < b.(Butterfly.size))%Z).
  { apply well_shaped_inv in Hw. destruct Hw as (Hlt & _). exact Hlt. }
  remember (Z.to_nat b.(Butterfly.size)) as n eqn:En.
  remember (Z.to_nat b.(Butterfly.diagonal)) as k eqn:Ek.
  assert (En' : b.(Butterfly.size) = Z.of_nat n) by lia.
  assert (Ek' : b.(Butterfly.diagonal) = Z.of_nat k) by lia.
  assert (Hk0 : (0 < k)%nat) by lia. assert (Hkn0 : (k < n)%nat) by lia.
  clear En Ek Hk Hkn.
  destruct (@well_shaped_tensors b n (Z.of_nat k) Hw En' Ek')
    as [(d & s & u & Eb & Hd & Hs & Hu)|(d & s & u & Eb & Hd & Hs & Hu)];
    clear Hw En' Ek'; subst b; unfold swap_diagonals;
    cbn [Butterfly.size Butterfly.diagonal Butterfly.complex Butterfly.diag
         Butterfly.subdiag Butterfly.superdiag].
  - destruct (@band_matrix_swap R 0 1 Rplus Rmult Rminus Ropp RTheory d s u n k)
      as (m & Em & Es); try lia.
    exists (VReal m). rewrite !Butterfly_matrix_real, Em, Es. split; reflexivity.
  - destruct (@band_matrix_swap C c0 c1 cadd cmul csub copp Cth d s u n k)
      as (m & Em & Es); try lia.
    exists (VCplx m). rewrite !Butterfly_matrix_cplx, Em, Es. split; reflexivity.
Qed.

Lemma Butterfly_matrix_swap_transpose_witness :
  exists m,
    Butterfly.matrix example_f1 = Some m
    /\ Butterfly.matrix (swap_diagonals example_f1) = Some (value_t m).
Proof.
  apply (@Butterfly_matrix_swap_transpose example_f1).
  - reflexivity.
  - reflexivity.
Defined.

(** *** Offsets that are not positive *)

Section BandMatrixEdge.

Variable A : Type.
Variables (zero one : A) (add mul sub : A -> A -> A) (opp : A -> A).
Hypothesis Ath : ring_theory zero one add mul sub opp eq.

Add Ring Aring3 : Ath.

Lemma torch_diag_length (v : list A) (k : Z) :
  length (torch_diag zero v k) = (length v + Z.abs_nat k)%nat.
Proof. unfold torch_diag. rewrite length_map, length_seq. reflexivity. Qed.

Lemma bzipM_None_length {X : Type} (f : X -> X -> option X) (a b : list X) :
  length a <> length b -> length a <> 1%nat -> length b <> 1%nat ->
  bzipM f a b = None.
Proof.
  intros N Na Nb. unfold bzipM.
  destruct (Nat.eqb_spec (length a) (length b)); [contradiction|].
  destruct a as [|a0 [|a1 a]]; destruct b as [|b0 [|b1 b]];
    simpl in *; try reflexivity; congruence.
Qed.

(** With a negative offset the three summands of [matrix()] do not have
    one size. *)
Lemma band_matrix_negative (d s u : list A) (n : nat) (k : Z) :
  (k < 0)%Z -> (2 <= n)%nat ->
  length d = n -> Z.of_nat (length s) = (Z.of_nat n - k)%Z ->
  band_matrix zero add d s u k = None.
Proof.
  intros Hk Hn Hd Hs. unfold band_matrix, madd.
  rewrite bzipM_None_length; [reflexivity| | |]; rewrite !torch_diag_length; lia.
Qed.

Lemma torch_diag_zero (v : list A) (n : nat) :
  length v = n ->
  torch_diag zero v 0 = tab n n (fun i j => if (j =? i)%nat then nth i v zero else zero).
Proof.
  intros Hv. unfold torch_diag. rewrite Hv. simpl Z.abs_nat. rewrite Nat.add_0_r.
  apply tab_ext. intros i j Hi Hj.
  destruct (Z.eqb_spec (Z.of_nat j - Z.of_nat i) 0), (Nat.eqb_spec j i);
    try lia; reflexivity.
Qed.

(** With offset zero the three tensors all lie on the diagonal. *)
Lemma band_matrix_zero (d s u : list A) (n : nat) :
  length d = n -> length s = n -> length u = n ->
  exists m,
    band_matrix zero add d s u 0 = Some m
    /\ rect n n m
    /\ forall i j, (i < n)%nat -> (j < n)%nat ->
         ent zero m i j
         = if (j =? i)%nat
           then add (add (nth i d zero) (nth i s zero)) (nth i u zero)
           else zero.
Proof.
  intros Hd Hs Hu. unfold band_matrix. change (- 0)%Z with 0%Z.
  rewrite (torch_diag_zero d Hd), (torch_diag_zero s Hs), (torch_diag_zero u Hu).
  rewrite (madd_tab zero add (tab_rect n n _) (tab_rect n n _)). cbn [obind].
  rewrite (madd_tab zero add (tab_rect n n _) (tab_rect n n _)).
  eexists. split; [reflexivity|]. split; [apply tab_rect|].
  intros i j Hi Hj. rewrite !(tab_ent zero) by assumption.
  destruct (Nat.eqb_spec j i); [reflexivity|ring].
Qed.

End BandMatrixEdge.

(** A factor with a negative offset, which [__init__] accepts, has no
    matrix when its size is at least 2: [torch.diag(subdiag, -k)] is larger
    than [torch.diag(diag)], and the sum fails. *)
Theorem Butterfly_matrix_negative_diagonal (b : Butterfly.t) :
  well_shaped b = true ->
  (b.(Butterfly.diagonal) < 0)%Z ->
  (2 <= b.(Butterfly.size))%Z ->
  Butterfly.matrix b = None.
Proof.
  intros Hw Hk Hn.
  remember (Z.to_nat b.(Butterfly.size)) as n eqn:En.
  remember (b.(Butterfly.diagonal)) as k eqn:Ek.
  assert (En' : b.(Butterfly.size) = Z.of_nat n) by lia.
  assert (Hn' : (2 <= n)%nat) by lia. symmetry in Ek.
  clear En Hn.
  destruct (@well_shaped_tensors b n k Hw En' Ek)
    as [(d & s & u & Eb & Hd & Hs & Hu)|(d & s & u & Eb & Hd & Hs & Hu)];
    clear Hw En' Ek; subst b.
  - rewrite Butterfly_matrix_real.
    rewrite (@band_matrix_negative R 0 Rplus d s u n k); auto.
  - rewrite Butterfly_matrix_cplx.
    rewrite (@band_matrix_negative C c0 cadd d s u n k); auto.
Qed.

Lemma Butterfly_matrix_negative_diagonal_witness :
  Butterfly.matrix
    (Butterfly.mk 2 (-1) false (TReal [1; 2]) (TReal [3; 4; 5]) (TReal [6; 7; 8]))
  = None.
Proof.
  apply (@Butterfly_matrix_negative_diagonal
           (Butterfly.mk 2 (-1) false (TReal [1; 2]) (TReal [3; 4; 5])
                         (TReal [6; 7; 8]))).
  - reflexivity.
  - cbn. lia.
  - cbn. lia.
Defined.

(** A factor with offset zero, which [__init__] accepts, has the diagonal
    matrix of [diag + subdiag + superdiag] as its matrix. *)
Theorem Butterfly_matrix_zero_diagonal (b : Butterfly.t) (n : nat) :
  well_shaped b = true ->
  b.(Butterfly.size) = Z.of_nat n -> b.(Butterfly.diagonal) = 0%Z ->
  (exists d s u m,
      b.(Butterfly.diag) = TReal d /\ b.(Butterfly.subdiag) = TReal s
      /\ b.(Butterfly.superdiag) = TReal u
      /\ Butterfly.matrix b = Some (VReal m)
      /\ rect n n m
      /\ forall i j, (i < n)%nat -> (j < n)%nat ->
           ent 0 m i j
           = if (j =? i)%nat then nth i d 0 + nth i s 0 + nth i u 0 else 0)
  \/ (exists d s u m,
      b.(Butterfly.diag) = TCplx d /\ b.(Butterfly.subdiag) = TCplx s
      /\ b.(Butterfly.superdiag) = TCplx u
      /\ Butterfly.matrix b = Some (VCplx m)
      /\ rect n n m
      /\ forall i j, (i < n)%nat -> (j < n)%nat ->
           ent c0 m i j
           = if (j =? i)%nat
             then cadd (cadd (nth i d c0) (nth i s c0)) (nth i u c0)
             else c0).
Proof.
  intros Hw En Ek.
  destruct (@well_shaped_tensors b n 0%Z Hw En Ek)
    as [(d & s & u & -> & Hd & Hs & Hu)|(d & s & u & -> & Hd & Hs & Hu)].
  - left.
    destruct (@band_matrix_zero R 0 1 Rplus Rmult Rminus Ropp RTheory d s u n)
      as (m & Em & Hm & He); try lia.
    exists d, s, u, m. rewrite Butterfly_matrix_real, Em. cbn [obind].
    repeat split; try reflexivity; try apply Hm. exact He.
  - right.
    destruct (@band_matrix_zero C c0 c1 cadd cmul csub copp Cth d s u n)
      as (m & Em & Hm & He); try lia.
    exists d, s, u, m. rewrite Butterfly_matrix_cplx, Em. cbn [obind].
    repeat split; try reflexivity; try apply Hm. exact He.
Qed.

Lemma Butterfly_matrix_zero_diagonal_witness :
  let b := Butterfly.mk 2 0 false (TReal [1; 2]) (TReal [3; 4]) (TReal [5; 6]) in
  (exists d s u m,
      b.(Butterfly.diag) = TReal d /\ b.(Butterfly.subdiag) = TReal s
      /\ b.(Butterfly.superdiag) = TReal u
      /\ Butterfly.matrix b = Some (VReal m)
      /\ rect 2 2 m
      /\ forall i j, (i < 2)%nat -> (j < 2)%nat ->
           ent 0 m i j
           = if (j =? i)%nat then nth i d 0 + nth i s 0 + nth i u 0 else 0)
  \/ (exists d s u m,
      b.(Butterfly.diag) = TCplx d /\ b.(Butterfly.subdiag) = TCplx s
      /\ b.(Butterfly.superdiag) = TCplx u
      /\ Butterfly.matrix b = Some (VCplx m)
      /\ rect 2 2 m
      /\ forall i j, (i < 2)%nat -> (j < 2)%nat ->
           ent c0 m i j
           = if (j =? i)%nat
             then cadd (cadd (nth i d c0) (nth i s c0)) (nth i u c0)
             else c0).
Proof.
  apply (@Butterfly_matrix_zero_diagonal
           (Butterfly.mk 2 0 false (TReal [1; 2]) (TReal [3; 4]) (TReal [5; 6])) 2).
  - reflexivity.
  - reflexivity.
  - reflexivity.
Defined.

(** *** The number of entries a factor holds *)

Lemma numel_shape (t : tensor) (n : Z) (cplx : bool) :
  shape_eqb (shape t) (diag_shape n cplx) = true ->
  numel t = ((if cplx then 2 else 1) * n)%Z.
Proof.
  unfold diag_shape. destruct cplx; intros H.
  - apply shape_cplx in H. destruct H as (v & -> & Hv). unfold numel. cbn [shape fold_right]. lia.
  - apply shape_real in H. destruct H as (v & -> & Hv). unfold numel. cbn [shape fold_right]. lia.
Qed.

(** A factor of size [n] with offset [k] holds [3n - 2k] numbers when it is
    real and twice as many when it is complex, whether its tensors were
    given or drawn. *)
Theorem Butterfly_init_numel size k cplx dg sb sp (g : rng) b g' :
  Butterfly.init size k cplx dg sb sp g = Some (b, g') ->
  factor_numel b = ((if cplx then 2 else 1) * (3 * size - 2 * k))%Z.
Proof.
  intros E. pose proof (Butterfly_init_spec size k cplx dg sb sp g) as H.
  rewrite E in H. destruct H as (_ & (Es & Ek & Ec) & Hw & _).
  apply well_shaped_inv in Hw. destruct Hw as (_ & H1 & H2 & H3).
  rewrite Es, Ek, Ec in *.
  unfold factor_numel.
  rewrite (numel_shape _ _ _ H1), (numel_shape _ _ _ H2), (numel_shape _ _ _ H3).
  destruct cplx; lia.
Qed.

Lemma Butterfly_init_numel_witness :
  factor_numel
    (Butterfly.mk 4 1 true (TCplx test_diag) (TCplx test_subdiag) (TCplx test_subdiag))
  = (2 * (3 * 4 - 2 * 1))%Z.
Proof.
  apply (@Butterfly_init_numel 4 1 true (Some (TCplx test_diag))
           (Some (TCplx test_subdiag)) (Some (TCplx test_subdiag)) (fun _ => 0) _
           (fun _ => 0)).
  reflexivity.
Defined.

(** *** Inputs of another size *)

Section BandWrongSize.

Variable A : Type.
Variables (zero : A) (add mul : A -> A -> A).

Lemma band_forward_row_wrong_size (d s u x : list A) (n : nat) (k : Z) :
  (0 < k)%Z -> (k < Z.of_nat n)%Z ->
  length d = n -> Z.of_nat (length s) = (Z.of_nat n - k)%Z ->
  length x <> n ->
  band_forward_row add mul d s u k x = None.
Proof.
  intros Hk Hkn Hd Hs Hx. unfold band_forward_row.
  destruct (vmul mul d x) as [output|] eqn:E1; [|reflexivity]. cbn [obind].
  destruct (vmul mul s (slice_to (- k) x)) as [lo|] eqn:E2; [|reflexivity].
  cbn [obind].
  destruct (iadd_from add k output lo) as [o2|] eqn:E3; [|reflexivity].
  exfalso.
  unfold vmul in E1, E2. apply bzipM_Some_length in E1, E2.
  unfold iadd_from in E3.
  destruct (iaddM (total2 add) (skipn (py_bound (length output) k) output) lo)
    as [t|] eqn:E4; [|discriminate].
  apply iaddM_Some_length in E4. rewrite length_skipn in E4.
  unfold slice_to in E2. rewrite length_firstn in E2.
  unfold py_bound in E2, E4.
  destruct (Z.ltb_spec (- k) 0); destruct (Z.ltb_spec k 0); lia.
Qed.

End BandWrongSize.

(** A factor with a positive offset can only be applied to rows of its own
    size: on a non-empty batch of its own kind whose rows all have one
    length [L] other than the size of the factor, a length of 1 included,
    [forward] fails. *)
Theorem Butterfly_forward_wrong_size (b : Butterfly.t) (x : value) (L : Z) :
  well_shaped b = true ->
  (0 < b.(Butterfly.diagonal))%Z ->
  input_of b.(Butterfly.complex) L x ->
  has_rows x ->
  L <> b.(Butterfly.size) ->
  Butterfly.forward b x = None.
Proof.
  intros Hw Hk Hx Hne HL. pose proof (well_shaped_inv b Hw) as (Hkn & H1 & H2 & _).
  destruct b as [sz k cplx dg sb sp].
  cbn [Butterfly.size Butterfly.diagonal Butterfly.complex Butterfly.diag
       Butterfly.subdiag Butterfly.superdiag] in *.
  unfold diag_shape in H1, H2. unfold Butterfly.forward.
  cbn [Butterfly.size Butterfly.diagonal Butterfly.complex Butterfly.diag
       Butterfly.subdiag Butterfly.superdiag].
  destruct x as [a|a]; cbn [input_of has_rows] in Hx, Hne;
    destruct Hx as [-> Hrows]; cbn [negb].
  - apply shape_real in H1, H2.
    destruct H1 as (d & -> & Hd), H2 as (s & -> & Hs).
    destruct sp as [u|u]; [|reflexivity].
    destruct a as [|row a]; [contradiction|].
    pose proof (Forall_inv Hrows) as Hrow. cbv beta in Hrow.
    rewrite (mapM_None _ (row :: a) row (or_introl eq_refl)); [reflexivity|].
    apply (@band_forward_row_wrong_size R Rplus Rmult d s u row (Z.to_nat sz) k);
      lia.
  - apply shape_cplx in H1, H2.
    destruct H1 as (d & -> & Hd), H2 as (s & -> & Hs).
    destruct sp as [u|u]; [reflexivity|].
    destruct a as [|row a]; [contradiction|].
    pose proof (Forall_inv Hrows) as Hrow. cbv beta in Hrow.
    rewrite (mapM_None _ (row :: a) row (or_introl eq_refl)); [reflexivity|].
    apply (@band_forward_row_wrong_size C cadd cmul d s u row (Z.to_nat sz) k);
      lia.
Qed.

Lemma Butterfly_forward_wrong_size_witness :
  Butterfly.forward example_f1 (VReal [[1; 2; 3]; [4; 5; 6]]) = None.
Proof.
  apply (@Butterfly_forward_wrong_size example_f1 (VReal [[1; 2; 3]; [4; 5; 6]]) 3%Z).
  - reflexivity.
  - reflexivity.
  - split; [reflexivity|]. repeat constructor.
  - discriminate.
  - discriminate.
Defined.

(** ** More on [MatrixProduct] *)

(** *** Construction *)

Lemma MatrixProduct_init_inv
  (F : Type) (sparsemax : softmax_fn_t) (factors : list F)
  (n_terms : option Z) (cplx fixed_order : bool) (softmax_fn : string)
  (g : rng) mp g' :
  MatrixProduct.init sparsemax factors n_terms cplx fixed_order softmax_fn g
  = Some (mp, g') ->
  mp.(MatrixProduct.factors) = factors
  /\ mp.(MatrixProduct.n_terms) = default_terms n_terms (length factors)
  /\ mp.(MatrixProduct.complex) = cplx
  /\ mp.(MatrixProduct.fixed_order) = fixed_order
  /\ (fixed_order = false ->
      known_softmax softmax_fn = true
      /\ (0 <= default_terms n_terms (length factors))%Z
      /\ mp.(MatrixProduct.softmax_fn)
         = (if String.eqb softmax_fn "softmax" then softmax else sparsemax)
      /\ exists lg,
          mp.(MatrixProduct.logit) = map (map Fin) lg
          /\ rect (Z.to_nat (default_terms n_terms (length factors)))
                  (length factors) lg).
Proof.
  unfold MatrixProduct.init.
  change (match n_terms with
          | Some n => n
          | None => Z.of_nat (length factors)
          end) with (default_terms n_terms (length factors)).
  destruct fixed_order; cbn [negb].
  - unfold ret. intros E. inversion E. cbn. repeat split; try reflexivity.
    all: discriminate.
  - intros E. apply bind_Some in E. destruct E as (u & g1 & Ea & E).
    apply assert_Some in Ea. destruct Ea as (Ea & ->).
    apply bind_Some in E. destruct E as (lg & g2 & El & E).
    unfold ret in E. inversion E. cbn.
    apply randn2_rect in El. destruct El as (Ht & _ & Hr).
    rewrite Nat2Z.id in Hr.
    repeat split; try reflexivity; try assumption.
    exists lg. split; [reflexivity|exact Hr].
Qed.

Lemma MatrixProduct_init_Some
  (F : Type) (sparsemax : softmax_fn_t) (factors : list F)
  (n_terms : option Z) (cplx fixed_order : bool) (softmax_fn : string)
  (g : rng) :
  fixed_order = true
  \/ (known_softmax softmax_fn = true
      /\ (0 <= default_terms n_terms (length factors))%Z) ->
  exists mp g',
    MatrixProduct.init sparsemax factors n_terms cplx fixed_order softmax_fn g
    = Some (mp, g').
Proof.
  intros H. unfold MatrixProduct.init.
  change (match n_terms with
          | Some n => n
          | None => Z.of_nat (length factors)
          end) with (default_terms n_terms (length factors)).
  destruct fixed_order; cbn [negb]; [eexists; eexists; reflexivity|].
  destruct H as [H|(Hk & Ht)]; [discriminate|].
  unfold bind at 1. fold (known_softmax softmax_fn). rewrite Hk.
  cbn [assert]. unfold ret at 1.
  destruct (@randn2_Some (default_terms n_terms (length factors))
                         (Z.of_nat (length factors)) g) as (lg & g1 & El);
    [exact Ht|lia|].
  unfold bind. rewrite El. eexists; eexists; reflexivity.
Qed.

(** [MatrixProduct.__init__] succeeds exactly in fixed-order mode, or in
    learned-order mode with a known [softmax_fn] and a term count that is
    not negative.  It keeps the factors given, takes their number as the
    term count when none is given, and in learned-order mode draws
    [n_terms] rows of logits, one logit per factor. *)
Theorem MatrixProduct_init_spec
  (F : Type) (sparsemax : softmax_fn_t) (factors : list F)
  (n_terms : option Z) (cplx fixed_order : bool) (softmax_fn : string)
  (g : rng) :
  ((exists mp g',
       MatrixProduct.init sparsemax factors n_terms cplx fixed_order softmax_fn g
       = Some (mp, g'))
   <-> (fixed_order = true
        \/ (known_softmax softmax_fn = true
            /\ (0 <= default_terms n_terms (length factors))%Z)))
  /\ (forall mp g',
        MatrixProduct.init sparsemax factors n_terms cplx fixed_order softmax_fn g
        = Some (mp, g') ->
        mp.(MatrixProduct.factors) = factors
        /\ mp.(MatrixProduct.n_terms) = default_terms n_terms (length factors)
        /\ mp.(MatrixProduct.complex) = cplx
        /\ mp.(MatrixProduct.fixed_order) = fixed_order
        /\ (fixed_order = false ->
            mp.(MatrixProduct.softmax_fn)
            = (if String.eqb softmax_fn "softmax" then softmax else sparsemax)
            /\ exists lg,
                mp.(MatrixProduct.logit) = map (map Fin) lg
                /\ rect (Z.to_nat (default_terms n_terms (length factors)))
                        (length factors) lg)).
Proof.
  split; [split|].
  - intros (mp & g' & E). apply MatrixProduct_init_inv in E.
    destruct E as (_ & _ & _ & _ & H).
    destruct fixed_order; [left; reflexivity|right].
    destruct (H eq_refl) as (Hk & Ht & _). split; assumption.
  - apply MatrixProduct_init_Some.
  - intros mp g' E. apply MatrixProduct_init_inv in E.
    destruct E as (H1 & H2 & H3 & H4 & H5). repeat split; try assumption.
    all: destruct (H5 H) as (_ & _ & Hsf & Hlg); assumption.
Qed.

(** *** Composers with nothing to multiply *)

(** A composer with no factors in fixed order, or with no terms in
    learned order, applies nothing: [forward] returns its input as it is,
    for every input and temperature, while [matrix()] fails
    ([functools.reduce] has nothing to start from). *)
Theorem MatrixProduct_nothing_to_multiply
  (F : Type) (HF : Factor F) (sparsemax : softmax_fn_t) (factors : list F)
  (n_terms : option Z) (cplx fixed_order : bool) (g : rng) mp g' :
  MatrixProduct.init sparsemax factors n_terms cplx fixed_order "softmax" g
  = Some (mp, g') ->
  (if fixed_order then factors = []
   else default_terms n_terms (length factors) = 0%Z) ->
  forall (x : value) (T : R),
    MatrixProduct.forward mp x T = Some x
    /\ MatrixProduct.matrix mp T = None.
Proof.
  intros E Hd x T. apply MatrixProduct_init_inv in E.
  destruct E as (Ef & Et & _ & Eo & Hl).
  unfold MatrixProduct.forward, MatrixProduct.matrix. rewrite Eo, Ef, Et.
  destruct fixed_order.
  - rewrite Hd. split; reflexivity.
  - destruct (Hl eq_refl) as (_ & _ & Esf & lg & Elg & Hr).
    rewrite Hd in Hr |- *. destruct Hr as [Hlen _].
    destruct lg as [|row lg]; [|discriminate].
    rewrite Elg, Esf. cbn [map logit_div mapM obind String.eqb Ascii.eqb Bool.eqb].
    cbn. split; [reflexivity|].
    destruct (mapM factor_matrix factors) as [ms|]; [|reflexivity]. cbn [obind].
    destruct (stack_flat ms) as [stack|]; reflexivity.
Qed.

Lemma MatrixProduct_nothing_to_multiply_witness :
  MatrixProduct.forward
    (MatrixProduct.mk [example_f1; example_f2] 0 false false [] softmax)
    (VReal [[9; 10]]) 1
  = Some (VReal [[9; 10]])
  /\ MatrixProduct.matrix
       (MatrixProduct.mk [example_f1; example_f2] 0 false false [] softmax) 1
     = None.
Proof.
  apply (@MatrixProduct_nothing_to_multiply Butterfly.t _ (fun _ => None)
           [example_f1; example_f2] (Some 0%Z) false false (fun _ => 0) _
           (fun _ => 0)).
  - reflexivity.
  - reflexivity.
Defined.

(** *** Fixed order: composers compose *)

Lemma fold_left_call_bind {F : Type} {HF : Factor F} (l : list F) (o : option value) :
  fold_left (fun out factor => o <- out ;; factor_call factor o) l o
  = (y <- o ;; fold_left (fun out factor => o <- out ;; factor_call factor o)
                         l (Some y)).
Proof.
  destruct o as [y|]; [reflexivity|]. cbn [obind].
  induction l as [|f l IH]; [reflexivity|]. cbn [fold_left obind]. exact IH.
Qed.

(** In fixed order, applying the composer of a concatenated list of
    factors is applying the composer of the second part and then that of
    the first part; a failure of either is a failure of the whole. *)
Theorem MatrixProduct_forward_fixed_app
  (F : Type) (HF : Factor F) (mp mp1 mp2 : MatrixProduct.t F)
  (x : value) (T T1 T2 : R) :
  mp.(MatrixProduct.fixed_order) = true ->
  mp1.(MatrixProduct.fixed_order) = true ->
  mp2.(MatrixProduct.fixed_order) = true ->
  mp.(MatrixProduct.factors)
  = mp1.(MatrixProduct.factors) ++ mp2.(MatrixProduct.factors) ->
  MatrixProduct.forward mp x T
  = (y <- MatrixProduct.forward mp2 x T2 ;; MatrixProduct.forward mp1 y T1).
Proof.
  intros H H1 H2 Ef. unfold MatrixProduct.forward. rewrite H, H1, H2, Ef.
  unfold MatrixProduct.forward_fixed. rewrite rev_app_distr, fold_left_app.
  apply fold_left_call_bind.
Qed.

Lemma MatrixProduct_forward_fixed_app_witness :
  MatrixProduct.forward
    (MatrixProduct.mk [example_f1; example_f2] 2 false true [] softmax)
    (VReal [[1; 2]]) 1
  = (y <- MatrixProduct.forward
            (MatrixProduct.mk [example_f2] 1 false true [] softmax)
            (VReal [[1; 2]]) 1 ;;
     MatrixProduct.forward
       (MatrixProduct.mk [example_f1] 1 false true [] softmax) y 1).
Proof.
  apply (@MatrixProduct_forward_fixed_app Butterfly.t _
           (MatrixProduct.mk [example_f1; example_f2] 2 false true [] softmax)
           (MatrixProduct.mk [example_f1] 1 false true [] softmax)
           (MatrixProduct.mk [example_f2] 1 false true [] softmax)
           (VReal [[1; 2]]) 1 1 1); reflexivity.
Defined.

(** *** Any number of Butterfly factors *)

(** For a composer over any non-empty list of Butterfly factors of one
    size [n] and of the composer's kind, with positive offsets, in fixed
    order or with a selection of at least one term: [matrix()] is an [n] by
    [n] matrix, and [forward(x)] is [x @ matrix().t()] (the complex product
    for a complex composer). *)
Theorem MatrixProduct_butterfly_forward_matmul
  (mp : MatrixProduct.t Butterfly.t) (n : nat) (x : value) (T : R) :
  (0 < n)%nat ->
  mp.(MatrixProduct.factors) <> [] ->
  Forall (fun b => well_shaped b = true
                   /\ (0 < b.(Butterfly.diagonal))%Z
                   /\ b.(Butterfly.size) = Z.of_nat n
                   /\ b.(Butterfly.complex) = mp.(MatrixProduct.complex))
         mp.(MatrixProduct.factors) ->
  input_of mp.(MatrixProduct.complex) (Z.of_nat n) x ->
  selection_ok mp T ->
  exists P y,
    MatrixProduct.matrix mp T = Some P
    /\ square_value mp.(MatrixProduct.complex) n P
    /\ MatrixProduct.forward mp x T = Some y
    /\ input_of mp.(MatrixProduct.complex) (Z.of_nat n) y
    /\ vmatmul mp.(MatrixProduct.complex) x (value_t P) = Some y.
Proof.
  intros Hn Hne Hfs Hx Hsel.
  destruct (MatrixProduct.factors mp) as [|f fs] eqn:Ef; [congruence|].
  apply (@MatrixProduct_forward_matmul Butterfly.t _ mp f fs x n T Hn Ef);
    [|exact Hx|exact Hsel].
  eapply Forall_impl; [|exact Hfs]. intros b (Hw & Hk & Hs & Hc).
  rewrite <- Hc. apply Butterfly_lawful; assumption.
Qed.

Lemma MatrixProduct_butterfly_forward_matmul_witness :
  let mp := MatrixProduct.mk [example_f1; example_f2; example_f1] 3 false true []
                             softmax in
  exists P y,
    MatrixProduct.matrix mp 1 = Some P
    /\ square_value false 2 P
    /\ MatrixProduct.forward mp (VReal [[9; 10]]) 1 = Some y
    /\ input_of false (Z.of_nat 2) y
    /\ vmatmul false (VReal [[9; 10]]) (value_t P) = Some y.
Proof.
  apply (@MatrixProduct_butterfly_forward_matmul
           (MatrixProduct.mk [example_f1; example_f2; example_f1] 3 false true []
                             softmax) 2 (VReal [[9; 10]]) 1).
  - lia.
  - discriminate.
  - repeat constructor; cbn; lia.
  - split; [reflexivity|]. constructor; [reflexivity|constructor].
  - left. reflexivity.
Defined.

(** ** What [MatrixProduct.matrix] returns *)

Section MatrixValue.

Context {F : Type} {HF : Factor F}.

Variable E : Type.
Variables (zero one : E) (add mul sub : E -> E -> E) (opp : E -> E).
Hypothesis Eth : ring_theory zero one add mul sub opp eq.
Variable inj : list (list E) -> value.
Variable cplx : bool.
Variable emb : list R -> list E.

Hypothesis K_matmul : forall a b,
    vmatmul cplx (inj a) (inj b) = (r <- matmul zero add mul a b ;; Some (inj r)).
Hypothesis K_stack : forall v vs r c,
    Forall (rect r c) (v :: vs) ->
    exists sh flats,
      stack_flat (map inj (v :: vs)) = Some (sh, flats)
      /\ length flats = S (length vs)
      /\ (forall q, length q = S (length vs) ->
                    unflat sh (map (dot 0%R Rplus Rmult q) (transpose 0%R flats))
                    = Some (inj (lincomb zero add mul r c (emb q) (v :: vs))))
      /\ (forall l w, unflat sh l = Some w -> exists a, w = inj a /\ rect r c a).

Variable n : nat.
Hypothesis n_pos : (0 < n)%nat.

Lemma matrix_value (mp : MatrixProduct.t F) (m : list (list E))
      (ms : list (list (list E))) (T : R) :
  mp.(MatrixProduct.complex) = cplx ->
  mapM factor_matrix mp.(MatrixProduct.factors) = Some (map inj (m :: ms)) ->
  Forall (rect n n) (m :: ms) ->
  (mp.(MatrixProduct.fixed_order) = true ->
   MatrixProduct.matrix mp T = Some (inj (fold_left (mmul zero add mul) ms m)))
  /\ (forall lg q prob,
        mp.(MatrixProduct.fixed_order) = false ->
        logit_div mp.(MatrixProduct.logit) T = Some lg ->
        mp.(MatrixProduct.softmax_fn) lg = Some (q :: prob) ->
        Forall (fun r => length r = S (length ms)) (q :: prob) ->
        MatrixProduct.matrix mp T
        = Some (inj (fold_left (mmul zero add mul)
                               (map (mixed_matrix zero add mul emb n (m :: ms)) prob)
                               (mixed_matrix zero add mul emb n (m :: ms) q)))).
Proof.
  intros Ec Em Hr.
  unfold MatrixProduct.matrix, MatrixProduct.matmul_op. rewrite Ec, Em.
  fold (vmatmul cplx). split.
  - intros ->. cbn [obind].
    apply (reduce_matmul Eth inj cplx K_matmul n_pos (Forall_inv Hr)
             (Forall_inv_tail Hr)).
  - intros lg q prob -> Elg Eprob Hp. rewrite Elg. cbn [obind].
    rewrite Eprob. cbn [obind].
    pose proof (mix_matrices zero add mul inj emb K_stack Hr Hp) as Emix.
    destruct (stack_flat (map inj (m :: ms))) as [stack|]; [|discriminate].
    cbn [obind] in Emix |- *. rewrite Emix. cbn [obind map].
    apply (reduce_matmul Eth inj cplx K_matmul n_pos).
    + apply tab_rect.
    + apply Forall_forall. intros a Ha. apply in_map_iff in Ha.
      destruct Ha as (q' & <- & _). apply tab_rect.
Qed.

End MatrixValue.

(** The matrix of a real composer whose factors have the [n] by [n]
    matrices [m_0, m_1, ...]: in fixed order it is the product
    [m_0 @ m_1 @ ...], and in learned order it is the product over the
    terms [i] of the mixtures [sum_j prob[i][j] * m_j], where [prob] is what
    the selection function returns on [logit / temperature]. *)
Theorem MatrixProduct_matrix_real
  (F : Type) (HF : Factor F) (mp : MatrixProduct.t F) (n : nat)
  (m : list (list R)) (ms : list (list (list R))) (T : R) :
  (0 < n)%nat ->
  mp.(MatrixProduct.complex) = false ->
  mapM factor_matrix mp.(MatrixProduct.factors) = Some (map VReal (m :: ms)) ->
  Forall (rect n n) (m :: ms) ->
  (mp.(MatrixProduct.fixed_order) = true ->
   MatrixProduct.matrix mp T = Some (VReal (fold_left (mmul 0 Rplus Rmult) ms m)))
  /\ (forall lg q prob,
        mp.(MatrixProduct.fixed_order) = false ->
        logit_div mp.(MatrixProduct.logit) T = Some lg ->
        mp.(MatrixProduct.softmax_fn) lg = Some (q :: prob) ->
        Forall (fun r => length r = S (length ms)) (q :: prob) ->
        MatrixProduct.matrix mp T
        = Some (VReal (fold_left (mmul 0 Rplus Rmult)
                         (map (mixed_matrix 0 Rplus Rmult (fun w => w) n (m :: ms)) prob)
                         (mixed_matrix 0 Rplus Rmult (fun w => w) n (m :: ms) q)))).
Proof.
  intros Hn Ec Em Hr.
  apply (@matrix_value F HF R 0 1 Rplus Rmult Rminus Ropp RTheory VReal false
           (fun w => w) real_matmul real_stack n Hn mp m ms T Ec Em Hr).
Qed.

(** The same for a complex composer: the products and the mixtures are
    those of complex matrices, the weights being real. *)
Theorem MatrixProduct_matrix_complex
  (F : Type) (HF : Factor F) (mp : MatrixProduct.t F) (n : nat)
  (m : list (list C)) (ms : list (list (list C))) (T : R) :
  (0 < n)%nat ->
  mp.(MatrixProduct.complex) = true ->
  mapM factor_matrix mp.(MatrixProduct.factors) = Some (map VCplx (m :: ms)) ->
  Forall (rect n n) (m :: ms) ->
  (mp.(MatrixProduct.fixed_order) = true ->
   MatrixProduct.matrix mp T = Some (VCplx (fold_left (mmul c0 cadd cmul) ms m)))
  /\ (forall lg q prob,
        mp.(MatrixProduct.fixed_order) = false ->
        logit_div mp.(MatrixProduct.logit) T = Some lg ->
        mp.(MatrixProduct.softmax_fn) lg = Some (q :: prob) ->
        Forall (fun r => length r = S (length ms)) (q :: prob) ->
        MatrixProduct.matrix mp T
        = Some (VCplx (fold_left (mmul c0 cadd cmul)
                         (map (mixed_matrix c0 cadd cmul cweights n (m :: ms)) prob)
                         (mixed_matrix c0 cadd cmul cweights n (m :: ms) q)))).
Proof.
  intros Hn Ec Em Hr.
  apply (@matrix_value F HF C c0 c1 cadd cmul csub copp Cth VCplx true
           cweights cplx_matmul cplx_stack n Hn mp m ms T Ec Em Hr).
Qed.

Lemma MatrixProduct_matrix_real_witness :
  exists m1 m2,
    mapM factor_matrix [example_f1; example_f2] = Some [VReal m1; VReal m2]
    /\ MatrixProduct.matrix
         (MatrixProduct.mk [example_f1; example_f2] 2 false true [] softmax) 1
       = Some (VReal (fold_left (mmul 0 Rplus Rmult) [m2] m1)).
Proof.
  eexists. eexists. split; [cbv -[Rplus Rmult IZR]; reflexivity|].
  refine (proj1 (@MatrixProduct_matrix_real Butterfly.t _
            (MatrixProduct.mk [example_f1; example_f2] 2 false true [] softmax)
            2 _ [_] 1 _ eq_refl _ _) eq_refl).
  - lia.
  - cbv -[Rplus Rmult IZR]. reflexivity.
  - repeat constructor.
Defined.

Lemma MatrixProduct_matrix_complex_witness :
  exists m1,
    mapM factor_matrix [example_cf] = Some [VCplx m1]
    /\ MatrixProduct.matrix
         (MatrixProduct.mk [example_cf] 1 true true [] softmax) 1
       = Some (VCplx (fold_left (mmul c0 cadd cmul) [] m1)).
Proof.
  eexists. split; [cbv -[Rplus Rmult IZR]; reflexivity|].
  refine (proj1 (@MatrixProduct_matrix_complex Butterfly.t _
            (MatrixProduct.mk [example_cf] 1 true true [] softmax)
            4 _ [] 1 _ eq_refl _ _) eq_refl).
  - lia.
  - cbv -[Rplus Rmult IZR]. reflexivity.
  - repeat constructor.
Defined.

(** ** More on [ButterflyProduct] *)

(** *** Size 1 *)

(** [ButterflyProduct(1)] is built with no factor at all ([log2(1) = 0]):
    [forward] returns its input as it is, and [matrix()] fails. *)
Theorem ButterflyProduct_size_one
  (sparsemax : softmax_fn_t) (cplx fixed_order : bool) (g : rng) :
  exists bp,
    ButterflyProduct.init sparsemax 1 None cplx fixed_order false "softmax" g
    = Some (bp, g)
    /\ bp.(ButterflyProduct.super).(MatrixProduct.factors) = []
    /\ forall (x : value) (T : R),
         ButterflyProduct.forward bp x T = Some x
         /\ ButterflyProduct.matrix bp T = None.
Proof.
  destruct cplx, fixed_order; eexists; (split; [reflexivity|]);
    (split; [reflexivity|]); intros x T; split; reflexivity.
Qed.

(** *** Products built by [__init__] *)

(** A product built by [__init__] for a size of at least 2, without the
    learned permutation when it is complex: [matrix()] returns, and
    [forward(x)] is [x @ matrix().t()] (the complex product for a complex
    product), in fixed order and in learned order under softmax with at
    least one term, at any temperature but zero. *)
Theorem ButterflyProduct_init_forward_matmul
  (sparsemax : softmax_fn_t) (size : Z) (n_terms : option Z)
  (cplx fixed_order learn_perm : bool) (softmax_fn : string) (g : rng) bp g'
  (x : value) (T : R) :
  ButterflyProduct.init sparsemax size n_terms cplx fixed_order learn_perm
                        softmax_fn g = Some (bp, g') ->
  (2 <= size)%Z ->
  cplx && learn_perm = false ->
  fixed_order = true
  \/ (softmax_fn = "softmax"%string
      /\ match n_terms with Some t => (1 <= t)%Z | None => True end) ->
  T <> 0 ->
  input_of cplx size x ->
  exists P y,
    ButterflyProduct.matrix bp T = Some P
    /\ ButterflyProduct.forward bp x T = Some y
    /\ vmatmul cplx x (value_t P) = Some y.
Proof.
  intros E Hs Hcl Hmode HT Hx.
  assert (Hmode' : fixed_order = true
                   \/ (softmax_fn = "softmax"%string
                       /\ match n_terms with
                          | Some t => (1 <= t)%Z
                          | None => (2 <= size)%Z
                          end)).
  { destruct Hmode as [H|(H1 & H2)]; [left; exact H|right].
    split; [exact H1|]. destruct n_terms; [exact H2|exact Hs]. }
  destruct cplx.
  - cbn [andb] in Hcl. subst learn_perm.
    pose proof E as Hl. apply init_lawful in Hl.
    assert (Hsel : selection_ok (ButterflyProduct.super bp) T)
      by (eapply init_selection_ok; eassumption).
    apply ButterflyProduct_init_fields in E.
    destruct E as (m & Es & (_ & Hlen & _) & (_ & Hc & _ & Hlp) & _ & _).
    destruct (MatrixProduct.factors (ButterflyProduct.super bp)) as [|f fs] eqn:Ef.
    { simpl in Hlen. subst m. simpl in Es. lia. }
    assert (Hn : size = Z.of_nat (Z.to_nat size)) by lia.
    rewrite Hn in Hx. rewrite <- Hc in Hl, Hx.
    destruct (@MatrixProduct_forward_matmul Butterfly.t _
                (ButterflyProduct.super bp) f fs x (Z.to_nat size) T)
      as (P & y & EP & _ & Ey & _ & Ez); try assumption; [lia|].
    exists P, y. unfold ButterflyProduct.matrix, ButterflyProduct.forward.
    rewrite Hlp, EP. cbn [obind]. rewrite Hc in Ez. auto.
  - destruct (@ButterflyProduct_real_forward_matmul sparsemax size n_terms
                fixed_order learn_perm softmax_fn g bp g' x T E Hs Hmode' HT Hx)
      as (P & y & H).
    exists P, y. exact H.
Qed.

Lemma ButterflyProduct_init_forward_matmul_witness :
  exists bp g',
    ButterflyProduct.init (fun _ => None) 2 None true true false "softmax"
                          (fun _ => 0) = Some (bp, g')
    /\ exists P y,
        ButterflyProduct.matrix bp 1 = Some P
        /\ ButterflyProduct.forward bp (VCplx [[(1, 2); (3, 4)]]) 1 = Some y
        /\ vmatmul true (VCplx [[(1, 2); (3, 4)]]) (value_t P) = Some y.
Proof.
  eexists. eexists. split; [cbv -[Rplus Rmult IZR]; reflexivity|].
  eapply (@ButterflyProduct_init_forward_matmul (fun _ => None) 2 None true true
            false "softmax" (fun _ => 0) _ _ (VCplx [[(1, 2); (3, 4)]]) 1).
  - cbv -[Rplus Rmult IZR]. reflexivity.
  - lia.
  - reflexivity.
  - left. reflexivity.
  - lra.
  - split; [reflexivity|]. constructor; [reflexivity|constructor].
Defined.

(** *** The number of entries held by the factors *)

Lemma well_shaped_numel (b : Butterfly.t) :
  well_shaped b = true ->
  factor_numel b
  = ((if b.(Butterfly.complex) then 2 else 1)
     * (3 * b.(Butterfly.size) - 2 * b.(Butterfly.diagonal)))%Z.
Proof.
  intros Hw. apply well_shaped_inv in Hw. destruct Hw as (_ & H1 & H2 & H3).
  unfold factor_numel.
  rewrite (numel_shape _ _ _ H1), (numel_shape _ _ _ H2), (numel_shape _ _ _ H3).
  destruct (Butterfly.complex b); lia.
Qed.

Lemma sum_factor_numel (fs : list Butterfly.t) (n : Z) (cplx : bool) :
  Forall (fun b => b.(Butterfly.size) = n /\ b.(Butterfly.complex) = cplx
                   /\ well_shaped b = true) fs ->
  fold_right Z.add 0%Z (map factor_numel fs)
  = ((if cplx then 2 else 1)
     * (3 * n * Z.of_nat (length fs)
        - 2 * fold_right Z.add 0%Z (map Butterfly.diagonal fs)))%Z.
Proof.
  induction 1 as [|b fs (Hs & Hc & Hw) _ IH]; [cbn; lia|].
  cbn [map fold_right length]. rewrite IH, (well_shaped_numel b Hw), Hs, Hc.
  destruct cplx; lia.
Qed.

Lemma sum_descending_offsets (m : nat) :
  fold_right Z.add 0%Z (descending_offsets m) = (2 ^ Z.of_nat m - 1)%Z.
Proof.
  unfold descending_offsets. induction m as [|m IH]; [reflexivity|].
  rewrite seq_S, rev_app_distr. cbn [rev app map fold_right Nat.add].
  rewrite IH. rewrite Nat2Z.inj_succ, Z.pow_succ_r by lia. lia.
Qed.

(** The factors of a product of size [n = 2^m] hold [(3m - 2) n + 2]
    numbers between them when the product is real, and twice as many when
    it is complex. *)
Theorem ButterflyProduct_factor_numel
  (sparsemax : softmax_fn_t) (size : Z) (n_terms : option Z)
  (cplx fixed_order learn_perm : bool) (softmax_fn : string) (g : rng) bp g' :
  ButterflyProduct.init sparsemax size n_terms cplx fixed_order learn_perm
                        softmax_fn g = Some (bp, g') ->
  exists m : nat,
    size = (2 ^ Z.of_nat m)%Z
    /\ product_numel bp
       = ((if cplx then 2 else 1) * ((3 * Z.of_nat m - 2) * size + 2))%Z.
Proof.
  intros E. apply ButterflyProduct_init_fields in E.
  destruct E as (m & Es & (Hd & Hlen & Hf) & _).
  exists m. split; [exact Es|]. unfold product_numel.
  rewrite (sum_factor_numel Hf), Hd, Hlen, sum_descending_offsets, <- Es.
  destruct cplx; lia.
Qed.

Lemma ButterflyProduct_factor_numel_witness :
  exists bp g',
    ButterflyProduct.init (fun _ => None) 4 None false true false "softmax"
                          (fun _ => 0) = Some (bp, g')
    /\ exists m : nat,
        4%Z = (2 ^ Z.of_nat m)%Z
        /\ product_numel bp = (1 * ((3 * Z.of_nat m - 2) * 4 + 2))%Z.
Proof.
  eexists. eexists. split; [cbv -[Rplus Rmult IZR]; reflexivity|].
  eapply (@ButterflyProduct_factor_numel (fun _ => None) 4 None false true false
            "softmax" (fun _ => 0)).
  cbv -[Rplus Rmult IZR]. reflexivity.
Defined.

(** *** When construction succeeds *)

(** [ButterflyProduct.__init__] succeeds exactly when the size is a power
    of two and, in learned-order mode, [softmax_fn] is known and the term
    count (the number of factors when none is given) is not negative. *)
Theorem ButterflyProduct_init_succeeds_iff
  (sparsemax : softmax_fn_t) (size : Z) (n_terms : option Z)
  (cplx fixed_order learn_perm : bool) (softmax_fn : string) (g : rng) :
  (exists bp g',
      ButterflyProduct.init sparsemax size n_terms cplx fixed_order learn_perm
                            softmax_fn g = Some (bp, g'))
  <-> exists m : nat,
        size = (2 ^ Z.of_nat m)%Z
        /\ (fixed_order = true
            \/ (known_softmax softmax_fn = true
                /\ (0 <= default_terms n_terms m)%Z)).
Proof.
  split.
  - intros (bp & g' & E). apply ButterflyProduct_init_fields in E.
    destruct E as (m & Es & _ & _ & _ & Hl). exists m. split; [exact Es|].
    destruct fixed_order; [left; reflexivity|right].
    destruct (Hl eq_refl) as (Hk & _ & lg & _ & Ht & _). split; assumption.
  - intros (m & -> & Hmode). unfold ButterflyProduct.init.
    assert (Hp : (0 < 2 ^ Z.of_nat m)%Z) by (apply Z.pow_pos_nonneg; lia).
    unfold bind at 1. unfold ButterflyProduct.log2_int.
    destruct (Z.leb_spec (2 ^ Z.of_nat m) 0); [lia|]. unfold ret at 1.
    rewrite Z.log2_pow2 by lia. unfold bind at 1.
    rewrite Z.shiftl_1_l, Z.eqb_refl. cbn [assert]. unfold ret at 1.
    rewrite Nat2Z.id.
    destruct (factors_spec cplx m g (eq_refl (2 ^ Z.of_nat m)%Z))
      as (fs & g2 & Ef & Hd & Hlen & Hpp).
    unfold bind at 1. rewrite Ef.
    assert (Hb : exists base g3,
               MatrixProduct.init sparsemax fs n_terms cplx fixed_order softmax_fn g2
               = Some (base, g3)).
    { apply MatrixProduct_init_Some. rewrite Hlen. exact Hmode. }
    destruct Hb as (base & g3 & Eb). unfold bind at 1. rewrite Eb.
    destruct learn_perm.
    + destruct (@randn2_Some (2 ^ Z.of_nat m) (2 ^ Z.of_nat m) g3) as (pl & g4 & El);
        [lia|lia|].
      unfold bind. rewrite El. eexists; eexists; reflexivity.
    + eexists; eexists; reflexivity.
Qed.

(** ** The tests of the module *)

Lemma in_combine_same {X : Type} (a : list X) (p : X * X) :
  In p (combine a a) -> fst p = snd p.
Proof.
  induction a as [|x a IH]; simpl; [tauto|].
  intros [<-|H]; [reflexivity|auto].
Qed.

Lemma bzipM2_same (f : R -> R -> R) (a : list (list R)) :
  bzipM (bzipM (total2 f)) a a
  = Some (map (fun p => zipw f (fst p) (snd p)) (combine a a)).
Proof.
  unfold bzipM at 1. rewrite Nat.eqb_refl. apply mapM_total.
  intros p Hp. apply bzipM_total. rewrite (in_combine_same a p Hp). reflexivity.
Qed.

Lemma close_to_same (x : R) : close_to (x - x) x = true.
Proof.
  unfold close_to. destruct (Rle_dec _ _) as [_|N]; [reflexivity|].
  exfalso. apply N. replace (x - x) with 0 by ring. rewrite Rabs_R0.
  pose proof (Rabs_pos x). lra.
Qed.

(** A tensor is close to itself. *)
Lemma allclose_refl (a : list (list R)) : allclose a a = Some true.
Proof.
  unfold allclose. rewrite !bzipM2_same. cbn [obind]. f_equal.
  rewrite combine_map. apply forallb_forall. intros p Hp.
  apply in_map_iff in Hp. destruct Hp as (q & <- & Hq). cbn [fst snd].
  rewrite (in_combine_same a q Hq). generalize (snd q). intros row.
  apply forallb_forall. intros z Hz. unfold zipw in Hz. rewrite combine_map in Hz.
  apply in_map_iff in Hz. destruct Hz as (w & <- & Hw). cbn [fst snd].
  rewrite (in_combine_same row w Hw). apply close_to_same.
Qed.

Lemma allclose_value_refl (v : value) : allclose_value v v = Some true.
Proof. destruct v; apply allclose_refl. Qed.

(** *** Running a test *)

Lemma bind_run {X Y : Type} (c : M X) (f : X -> M Y) (g g1 : rng) (x : X) :
  c g = Some (x, g1) -> bind c f g = f x g1.
Proof. intros E. unfold bind. rewrite E. reflexivity. Qed.

Ltac run E := rewrite (@bind_run _ _ _ _ _ _ _ E).

Lemma bind_lift_Some {X Y : Type} (x : X) (f : X -> M Y) (g : rng) :
  bind (lift (Some x)) f g = f x g.
Proof. reflexivity. Qed.

Lemma bind_ret {X Y : Type} (x : X) (f : X -> M Y) (g : rng) :
  bind (ret x) f g = f x g.
Proof. reflexivity. Qed.

Lemma randn3_rect (b n : nat) (g : rng) :
  exists x g', randn3 (Z.of_nat b) (Z.of_nat n) g = Some (x, g') /\ rect b n x.
Proof.
  unfold randn3.
  destruct (@randn2_Some (Z.of_nat b) (2 * Z.of_nat n) g) as (m & g' & E); try lia.
  exists (map pair_up m), g'. split; [rewrite (@bind_run _ _ _ _ g g' m E); reflexivity|].
  apply randn2_rect in E. destruct E as (_ & _ & [Hl Hf]).
  split; [rewrite length_map; lia|].
  apply Forall_forall. intros row Hrow. apply in_map_iff in Hrow.
  destruct Hrow as (r & <- & Hr). apply pair_up_length.
  rewrite Forall_forall in Hf. rewrite (Hf r Hr). lia.
Qed.

Lemma bzipM2_rect (f : R -> R -> R) r c (a b : list (list R)) :
  rect r c a -> rect r c b ->
  exists m, bzipM (bzipM (total2 f)) a b = Some m /\ rect r c m.
Proof.
  intros [La Fa] [Lb Fb].
  exists (map (fun p => zipw f (fst p) (snd p)) (combine a b)). split.
  - unfold bzipM at 1. rewrite La, Lb, Nat.eqb_refl. apply mapM_total.
    intros [x y] Hp. apply bzipM_total. cbn [fst snd].
    rewrite Forall_forall in Fa, Fb.
    rewrite (Fa x (in_combine_l _ _ _ _ Hp)), (Fb y (in_combine_r _ _ _ _ Hp)).
    reflexivity.
  - split; [rewrite length_map, length_combine; lia|].
    apply Forall_forall. intros row Hrow. apply in_map_iff in Hrow.
    destruct Hrow as ([x y] & <- & Hp). cbn [fst snd]. rewrite zipw_length.
    rewrite Forall_forall in Fa, Fb.
    rewrite (Fa x (in_combine_l _ _ _ _ Hp)), (Fb y (in_combine_r _ _ _ _ Hp)).
    lia.
Qed.

Lemma stack_last_rect r c (a b : list (list R)) :
  rect r c a -> rect r c b -> exists m, stack_last a b = Some m.
Proof.
  intros [La Fa] [Lb Fb]. unfold stack_last. rewrite La, Lb, Nat.eqb_refl.
  cbn [andb].
  replace (forallb _ (combine a b)) with true; [eexists; reflexivity|].
  symmetry. apply forallb_forall. intros [x y] Hp. cbn [fst snd].
  rewrite Forall_forall in Fa, Fb.
  rewrite (Fa x (in_combine_l _ _ _ _ Hp)), (Fb y (in_combine_r _ _ _ _ Hp)).
  apply Nat.eqb_refl.
Qed.

Lemma test_matrices_rect : rect 4 4 test_matrix_real /\ rect 4 4 test_matrix_imag.
Proof. split; (split; [reflexivity|repeat constructor]). Qed.

(** The matrix of the factor of [test_butterfly] *)
Lemma example_cf_matrix :
  exists m,
    Butterfly.matrix example_cf = Some (VCplx m)
    /\ slab_re m = test_matrix_real /\ slab_im m = test_matrix_imag.
Proof.
  eexists. split; [cbv -[Rplus Rmult Rminus Ropp IZR]; reflexivity|].
  cbv -[Rplus Rmult Rminus Ropp IZR]. split; repeat f_equal; ring.
Qed.

(** The dead computation of [prod] in [test_butterfly] goes through. *)
Lemma test_prod_Some (x : list (list C)) :
  rect 3 4 x ->
  exists prod,
    (rr <- matmul 0 Rplus Rmult (slab_re x) (transpose 0 test_matrix_real) ;;
     ii <- matmul 0 Rplus Rmult (slab_im x) (transpose 0 test_matrix_imag) ;;
     re <- bzipM (bzipM (total2 Rminus)) rr ii ;;
     ri <- matmul 0 Rplus Rmult (slab_re x) (transpose 0 test_matrix_imag) ;;
     ir <- matmul 0 Rplus Rmult (slab_im x) (transpose 0 test_matrix_real) ;;
     im <- madd Rplus ri ir ;;
     stack_last re im) = Some prod.
Proof.
  intros Hx. destruct test_matrices_rect as [Hr Hi].
  assert (Hxr : rect 3 4 (slab_re x)) by (apply map_map_rect; exact Hx).
  assert (Hxi : rect 3 4 (slab_im x)) by (apply map_map_rect; exact Hx).
  rewrite (matmul_mmulT RTheory Hxr Hr), (matmul_mmulT RTheory Hxi Hi) by lia.
  cbn [obind].
  destruct (@bzipM2_rect Rminus 3 4 _ _ (mmulT_rect 0 Rplus Rmult Hxr Hr)
              (mmulT_rect 0 Rplus Rmult Hxi Hi)) as (re & -> & Hre).
  cbn [obind].
  rewrite (matmul_mmulT RTheory Hxr Hi), (matmul_mmulT RTheory Hxi Hr) by lia.
  cbn [obind].
  destruct (@bzipM2_rect Rplus 3 4 _ _ (mmulT_rect 0 Rplus Rmult Hxr Hi)
              (mmulT_rect 0 Rplus Rmult Hxi Hr)) as (im & Eim & Him).
  change (madd Rplus ?a ?b) with (bzipM (bzipM (total2 Rplus)) a b).
  rewrite Eim. cbn [obind]. apply (stack_last_rect Hre Him).
Qed.

(** [test_butterfly] passes whatever input it draws: the constructor
    accepts the tensors, the two slabs of [matrix()] are the matrices of
    the test, and [forward(x)] is [complex_matmul(x, matrix().transpose(0,
    1))]. *)
Theorem test_butterfly_passes (g : rng) :
  exists g', test_butterfly g = Some (tt, g').
Proof.
  unfold test_butterfly.
  assert (E0 : Butterfly.init 4 1 true (Some (TCplx test_diag))
                 (Some (TCplx test_subdiag)) (Some (TCplx test_subdiag)) g
               = Some (example_cf, g))
    by (cbv -[Rplus Rmult Rminus Ropp IZR]; reflexivity).
  run E0.
  destruct example_cf_matrix as (m & Em & Ere & Eim).
  rewrite Em. cbn [obind as_cplx]. rewrite bind_lift_Some.
  rewrite Ere, allclose_refl, bind_lift_Some. cbn [assert]. rewrite bind_ret.
  rewrite bind_lift_Some.
  rewrite Eim, allclose_refl, bind_lift_Some. cbn [assert]. rewrite bind_ret.
  destruct (randn3_rect 3 4 g) as (x & g' & Ex & Hx).
  change (Z.of_nat 3) with 3%Z in Ex. change (Z.of_nat 4) with 4%Z in Ex.
  run Ex.
  destruct (test_prod_Some Hx) as (prod & Eprod).
  rewrite Eprod, bind_lift_Some.
  assert (L : lawful true 4 example_cf)
    by (apply (Butterfly_lawful example_cf 4); reflexivity).
  destruct L as (m' & Em' & _ & Hc).
  change (Butterfly.matrix example_cf = Some m') in Em'.
  destruct (Hc (VCplx x)) as (y & Ey & Ez).
  { apply cplx_input. apply Hx. }
  change (Butterfly.forward example_cf (VCplx x) = Some y) in Ey.
  change (complex_matmul_value (VCplx x) (value_t m') = Some y) in Ez.
  rewrite Ey, bind_lift_Some.
  rewrite Em in Em'. inversion Em'; subst m'.
  rewrite bind_lift_Some.
  rewrite Ez, bind_lift_Some.
  rewrite allclose_value_refl, bind_lift_Some.
  exists g'. reflexivity.
Qed.

(** [test_butterfly_product] passes whatever parameters and input it
    draws: with the logits [[1, -inf], [-inf, 1]] the matrix of the product
    of size 4 is the complex product of the matrices of its two factors,
    and [forward(x)] is [complex_matmul(x, matrix().transpose(0, 1))]. *)
Theorem test_butterfly_product_passes (sparsemax : softmax_fn_t) (g : rng) :
  exists g', test_butterfly_product sparsemax g = Some (tt, g').
Proof.
  unfold test_butterfly_product.
  destruct (@ButterflyProduct_init_succeeds sparsemax 2%nat None true false false
              "softmax"%string g) as (bp & g1 & E);
    [right; reflexivity|cbn; lia|].
  change (2 ^ Z.of_nat 2)%Z with 4%Z in E. run E.
  pose proof (init_lawful _ _ _ _ _ _ _ _ E) as Hl.
  apply ButterflyProduct_init_fields in E.
  destruct E as (m & Es & (_ & Hlen & _) & (Hnt & Hc & Hfo & Hlp) & _ & Hlearn).
  assert (Hm : m = 2%nat).
  { destruct m as [|[|[|m]]]; try reflexivity; try (cbn in Es; lia).
    exfalso.
    assert (2 ^ 3 <= 2 ^ Z.of_nat (S (S (S m))))%Z
      by (apply Z.pow_le_mono_r; lia).
    change (2 ^ 3)%Z with 8%Z in H. lia. }
  subst m. cbn [default_terms] in Hnt.
  destruct (Hlearn eq_refl) as (_ & Esm & _). cbn in Esm.
  destruct (MatrixProduct.factors (ButterflyProduct.super bp))
    as [|f0 [|f1 [|f2 fs]]] eqn:Ef; try discriminate.
  pose proof (Forall_inv Hl) as L0.
  pose proof (Forall_inv (Forall_inv_tail Hl)) as L1.
  change (Z.to_nat 4) with 4%nat in L0, L1.
  pose proof L0 as (M0 & E0 & _). pose proof L1 as (M1 & E1 & _).
  change (Butterfly.matrix f0 = Some M0) in E0.
  change (Butterfly.matrix f1 = Some M1) in E1.
  destruct (randn3_rect 3 4 g1) as (x & g' & Ex & Hx).
  change (Z.of_nat 3) with 3%Z in Ex. change (Z.of_nat 4) with 4%Z in Ex.
  set (model := set_logit bp [[Fin 1; NegInf]; [NegInf; Fin 1]]).
  set (mp := ButterflyProduct.super model).
  assert (Hmode :
    mp.(MatrixProduct.fixed_order) = true
    \/ (mp.(MatrixProduct.fixed_order) = false
        /\ mp.(MatrixProduct.n_terms) = 2%Z
        /\ exists lg,
            logit_div mp.(MatrixProduct.logit) 1 = Some lg
            /\ mp.(MatrixProduct.softmax_fn) lg = Some [[1; 0]; [0; 1]])).
  { right. split; [exact Hfo|]. split; [exact Hnt|].
    pose proof (@softmax_one_hot 1 1 1 ltac:(lra)) as S.
    unfold mp, model, set_logit. cbn [ButterflyProduct.super MatrixProduct.logit
      MatrixProduct.softmax_fn]. rewrite Esm.
    destruct (logit_div [[Fin 1; NegInf]; [NegInf; Fin 1]] 1) as [lg|];
      [|discriminate].
    exists lg. split; [reflexivity|exact S]. }
  assert (Ef' : mp.(MatrixProduct.factors) = [f0; f1]) by exact Ef.
  assert (Ec' : mp.(MatrixProduct.complex) = true) by exact Hc.
  destruct Hx as [Hxl Hxf].
  assert (Hx' : rect (length x) 4 x) by (split; [reflexivity|exact Hxf]).
  destruct (@composer_two_factors Butterfly.t _ C c0 c1 cadd cmul csub copp Cth VCplx
              true cweights (conj eq_refl eq_refl) cplx_matmul (fun m => eq_refl)
              cplx_square cplx_input cplx_stack 4 ltac:(lia) mp f0 f1 M0 M1
              (length x) x 1 Ef' L0 L1 E0 E1 Ec' Hx' Hmode)
    as (P & Q1 & Q2 & Q3 & Q4).
  change (vmatmul true M0 M1) with (complex_matmul_value M0 M1) in Q1.
  change (vmatmul true (VCplx x) (value_t (VCplx P)))
    with (complex_matmul_value (VCplx x) (value_t (VCplx P))) in Q4.
  assert (EM : ButterflyProduct.matrix model 1 = Some (VCplx P)).
  { unfold ButterflyProduct.matrix. fold mp. rewrite Q2. cbn [obind].
    unfold model, set_logit. cbn [ButterflyProduct.learn_perm]. rewrite Hlp.
    reflexivity. }
  assert (EF : ButterflyProduct.forward model (VCplx x) 1
               = Some (VCplx (mmulT c0 cadd cmul x P))).
  { unfold ButterflyProduct.forward. fold mp.
    unfold model at 1, set_logit. cbn [ButterflyProduct.learn_perm]. rewrite Hlp.
    cbn [obind]. exact Q3. }
  rewrite EM, bind_lift_Some.
  fold mp. rewrite Ef'. cbn [nth_error obind]. rewrite E0, E1. cbn [obind].
  rewrite Q1, bind_lift_Some.
  rewrite allclose_value_refl, bind_lift_Some. cbn [assert]. rewrite bind_ret.
  run Ex. rewrite EF, bind_lift_Some. rewrite bind_lift_Some.
  rewrite Q4, bind_lift_Some.
  rewrite allclose_value_refl, bind_lift_Some.
  exists g'. reflexivity.
Qed.

Local Open Scope Z_scope.

(** * Wide residual networks *)

Import WideResNet.

(** ** One block *)

(** A block takes [in_planes] channels and returns [planes], and its
    layers fit one another. *)
Lemma wide_basic_fits (in_planes planes : Z) (dropout_rate : R)
      (stride : Z) (structure_type : option string) (kw : kwargs) :
  let b := wide_basic_init in_planes planes dropout_rate stride structure_type kw in
  block_in b = in_planes /\ block_out b = planes /\ block_fits b.
Proof.
  cbv zeta. unfold wide_basic_init, block_in, block_out, block_fits, structured.
  cbn [conv1 conv2 bn1 bn2 shortcut].
  destruct structure_type as [s|];
    [destruct (String.eqb s "B"); [|destruct (String.eqb s "LR")]|];
    cbn [in_channels out_channels];
    destruct (negb (stride =? 1) || negb (in_planes =? planes))%bool;
    repeat split; try reflexivity; repeat constructor; try reflexivity.
Qed.


(** ** One layer *)

Lemma wide_layer_loop_ones (planes : Z) (dropout_rate : R)
      (structure_type : option string) (kw : kwargs) (m : nat)
      (acc : list wide_basic) :
  wide_layer_loop planes dropout_rate structure_type kw (repeat 1 m) planes acc
  = (acc ++ repeat (wide_basic_init planes planes dropout_rate 1 structure_type kw) m,
     planes).
Proof.
  revert acc. induction m as [|m IH]; intros acc; cbn [repeat wide_layer_loop].
  - rewrite app_nil_r. reflexivity.
  - rewrite IH, <- app_assoc. reflexivity.
Qed.

(** [_wide_layer] returns one block that takes the current [in_planes] and
    has the stride given, followed by [num_blocks - 1] blocks from [planes]
    to [planes] with stride 1, and leaves [planes] in [self.in_planes].
    There is always a first block: with [num_blocks] zero or negative the
    layer has one block, not none. *)
Theorem wide_layer_blocks (planes num_blocks : Z) (dropout_rate : R) (stride : Z)
        (structure_type : option string) (kw : kwargs) (in_planes : Z) :
  _wide_layer planes num_blocks dropout_rate stride structure_type kw in_planes
  = (wide_basic_init in_planes planes dropout_rate stride structure_type kw
       :: repeat (wide_basic_init planes planes dropout_rate 1 structure_type kw)
                 (Z.to_nat (num_blocks - 1)),
     planes).
Proof.
  unfold _wide_layer, py_repeat. cbn [wide_layer_loop app].
  apply wide_layer_loop_ones.
Qed.

(** ** The network *)

(** The network that [__init__] builds, layer by layer *)
Lemma init_eq (depth k : Z) (p : R) (num_classes : Z)
      (st : option string) (kw : kwargs) :
  (depth - 4) mod 6 = 0 ->
  Wide_ResNet_init depth k p num_classes st kw
  = let m := Z.to_nat ((depth - 4) / 6 - 1) in
    Some (mk_net (64 * k)
             (conv3x3 3 16 1)
             (wide_basic_init 16 (16 * k) p 1 None []
                :: repeat (wide_basic_init (16 * k) (16 * k) p 1 None []) m)
             (wide_basic_init (16 * k) (32 * k) p 2 None []
                :: repeat (wide_basic_init (32 * k) (32 * k) p 1 None []) m)
             (wide_basic_init (32 * k) (64 * k) p 2 st kw
                :: repeat (wide_basic_init (64 * k) (64 * k) p 1 st kw) m)
             (64 * k) (64 * k, num_classes)).
Proof.
  intros Hd. unfold Wide_ResNet_init. rewrite Hd. cbn [Z.eqb negb nth].
  unfold _wide_layer, py_repeat. cbn [wide_layer_loop app].
  rewrite !wide_layer_loop_ones. reflexivity.
Qed.

Lemma init_inv (depth k : Z) (p : R) (num_classes : Z)
      (st : option string) (kw : kwargs) (net : Wide_ResNet) :
  Wide_ResNet_init depth k p num_classes st kw = Some net ->
  (depth - 4) mod 6 = 0
  /\ net
     = mk_net (64 * k)
          (conv3x3 3 16 1)
          (wide_basic_init 16 (16 * k) p 1 None []
             :: repeat (wide_basic_init (16 * k) (16 * k) p 1 None [])
                       (Z.to_nat ((depth - 4) / 6 - 1)))
          (wide_basic_init (16 * k) (32 * k) p 2 None []
             :: repeat (wide_basic_init (32 * k) (32 * k) p 1 None [])
                       (Z.to_nat ((depth - 4) / 6 - 1)))
          (wide_basic_init (32 * k) (64 * k) p 2 st kw
             :: repeat (wide_basic_init (64 * k) (64 * k) p 1 st kw)
                       (Z.to_nat ((depth - 4) / 6 - 1)))
          (64 * k) (64 * k, num_classes).
Proof.
  intros E.
  assert (Hd : (depth - 4) mod 6 = 0).
  { unfold Wide_ResNet_init in E. destruct (Z.eqb_spec ((depth - 4) mod 6) 0); [assumption|].
    discriminate. }
  split; [exact Hd|]. rewrite (init_eq _ _ _ _ _ _ Hd) in E. cbv zeta in E.
  apply (f_equal (fun o => match o with Some x => x | None => net end)) in E.
  symmetry. exact E.
Qed.

Lemma chained_app (c1 c2 c3 : Z) (a b : list wide_basic) :
  chained c1 a c2 -> chained c2 b c3 -> chained c1 (a ++ b) c3.
Proof.
  revert c1. induction a as [|x a IH]; intros c1; cbn [chained app].
  - intros ->. auto.
  - intros (H1 & H2 & H3) Hb. split; [exact H1|]. split; [exact H2|].
    apply IH; assumption.
Qed.

Lemma chained_repeat (c : Z) (p : R) (st : option string) (kw : kwargs) (m : nat) :
  chained c (repeat (wide_basic_init c c p 1 st kw) m) c.
Proof.
  induction m as [|m IH]; cbn [repeat chained]; [reflexivity|].
  destruct (wide_basic_fits c c p 1 st kw) as (H1 & H2 & H3).
  rewrite H2. auto.
Qed.

(** [Wide_ResNet.__init__] fails when [depth - 4] is not a multiple of 6.
    Whenever it builds a network, [depth - 4] is a multiple of 6 and, with
    [n = (depth - 4) // 6], each of the three layers has [n] blocks, and one
    block when [n] is zero or negative; the blocks are chained from the 16
    channels that [conv1] returns to [64 * widen_factor] channels, which is
    what the final batch norm and the linear layer take. *)
Theorem Wide_ResNet_init_spec (depth widen_factor : Z) (dropout_rate : R)
        (num_classes : Z) (structure_type : option string) (kw : kwargs) :
  ((depth - 4) mod 6 <> 0 ->
   Wide_ResNet_init depth widen_factor dropout_rate num_classes structure_type kw = None)
  /\ forall net,
      Wide_ResNet_init depth widen_factor dropout_rate num_classes structure_type kw = Some net ->
      let blocks_per_layer := Z.to_nat (Z.max 1 ((depth - 4) / 6)) in
      (depth - 4) mod 6 = 0
      /\ length net.(layer1) = blocks_per_layer
      /\ length net.(layer2) = blocks_per_layer
      /\ length net.(layer3) = blocks_per_layer
      /\ net.(net_conv1).(out_channels) = 16
      /\ chained 16 (blocks net) (64 * widen_factor)
      /\ net.(net_bn1) = 64 * widen_factor
      /\ net.(linear) = (64 * widen_factor, num_classes).
Proof.
  split.
  - intros N. unfold Wide_ResNet_init. rewrite (proj2 (Z.eqb_neq _ _) N).
    reflexivity.
  - intros net E.
    apply init_inv in E. destruct E as (Hd & ->).
    cbv zeta. split; [exact Hd|].
    unfold blocks. cbn [layer1 layer2 layer3 net_conv1 net_bn1 linear length].
    rewrite !repeat_length.
    assert (Hl : S (Z.to_nat ((depth - 4) / 6 - 1))
                 = Z.to_nat (Z.max 1 ((depth - 4) / 6))) by lia.
    split; [exact Hl|]. split; [exact Hl|]. split; [exact Hl|].
    split; [reflexivity|]. split; [|split; reflexivity]. clear Hl.
    set (m := Z.to_nat ((depth - 4) / 6 - 1)).
    set (k := widen_factor).
    assert (C1 : chained 16 (wide_basic_init 16 (16 * k) dropout_rate 1 None []
                   :: repeat (wide_basic_init (16 * k) (16 * k) dropout_rate 1 None []) m)
                   (16 * k)).
    { destruct (wide_basic_fits 16 (16 * k) dropout_rate 1 None []) as (H1 & H2 & H3).
      cbn [chained]. rewrite H2. split; [exact H1|]. split; [exact H3|].
      apply chained_repeat. }
    assert (C2 : chained (16 * k) (wide_basic_init (16 * k) (32 * k) dropout_rate 2 None []
                   :: repeat (wide_basic_init (32 * k) (32 * k) dropout_rate 1 None []) m)
                   (32 * k)).
    { destruct (wide_basic_fits (16 * k) (32 * k) dropout_rate 2 None [])
        as (H1 & H2 & H3).
      cbn [chained]. rewrite H2. split; [exact H1|]. split; [exact H3|].
      apply chained_repeat. }
    assert (C3 : chained (32 * k)
                   (wide_basic_init (32 * k) (64 * k) dropout_rate 2 structure_type kw
                   :: repeat (wide_basic_init (64 * k) (64 * k) dropout_rate 1
                                              structure_type kw) m)
                   (64 * k)).
    { destruct (wide_basic_fits (32 * k) (64 * k) dropout_rate 2 structure_type kw)
        as (H1 & H2 & H3).
      cbn [chained]. rewrite H2. split; [exact H1|]. split; [exact H3|].
      apply chained_repeat. }
    eapply chained_app; [exact C1|]. eapply chained_app; [exact C2|exact C3].
Qed.

Lemma Wide_ResNet_init_spec_witness :
  exists net,
    WideResNet28 (Some "B"%string) [] = Some net
    /\ (28 - 4) mod 6 = 0
    /\ length net.(layer1) = 4%nat
    /\ length net.(layer2) = 4%nat
    /\ length net.(layer3) = 4%nat
    /\ net.(net_conv1).(out_channels) = 16
    /\ chained 16 (blocks net) (64 * 2)
    /\ net.(net_bn1) = 64 * 2
    /\ net.(linear) = (64 * 2, 10).
Proof.
  eexists. split; [reflexivity|].
  apply (proj2 (Wide_ResNet_init_spec 28 2 0%R 10 (Some "B"%string) [])).
  reflexivity.
Defined.

(** A depth of 4, or of 4 less a multiple of 6, passes the assertion on
    the depth, and [__init__] then does what it does for a depth of 10:
    whenever it builds a network, every layer holds its first block only. *)
Theorem Wide_ResNet_small_depth (depth widen_factor : Z) (dropout_rate : R)
        (num_classes : Z) (structure_type : option string) (kw : kwargs) :
  (depth - 4) mod 6 = 0 -> depth <= 10 ->
  Wide_ResNet_init depth widen_factor dropout_rate num_classes structure_type kw
  = Wide_ResNet_init 10 widen_factor dropout_rate num_classes structure_type kw
  /\ forall net,
      Wide_ResNet_init depth widen_factor dropout_rate num_classes structure_type kw = Some net ->
      length net.(layer1) = 1%nat
      /\ length net.(layer2) = 1%nat
      /\ length net.(layer3) = 1%nat
      /\ length (blocks net) = 3%nat.
Proof.
  intros Hd Hle.
  assert (E : Z.to_nat ((depth - 4) / 6 - 1) = 0%nat).
  { assert ((depth - 4) / 6 <= 1) by (apply Z.div_le_upper_bound; lia). lia. }
  split.
  - rewrite (init_eq _ _ _ _ _ _ Hd).
    rewrite (@init_eq 10 widen_factor dropout_rate num_classes structure_type kw
               eq_refl).
    cbv zeta. rewrite E. change (Z.to_nat ((10 - 4) / 6 - 1)) with 0%nat.
    reflexivity.
  - intros net En. apply init_inv in En. destruct En as (_ & ->).
    cbv zeta. rewrite E. repeat split; reflexivity.
Qed.

Lemma Wide_ResNet_small_depth_witness :
  Wide_ResNet_init (-2) 2 0%R 10 None [] = Wide_ResNet_init 10 2 0%R 10 None []
  /\ exists net,
      Wide_ResNet_init (-2) 2 0%R 10 None [] = Some net
      /\ length net.(layer1) = 1%nat
      /\ length net.(layer2) = 1%nat
      /\ length net.(layer3) = 1%nat
      /\ length (blocks net) = 3%nat.
Proof.
  destruct (@Wide_ResNet_small_depth (-2) 2 0%R 10 None [] eq_refl ltac:(lia))
    as [E H].
  split; [exact E|]. eexists. split; [reflexivity|]. apply H. reflexivity.
Defined.







Lemma structured_cls (st : option string) (b l p : conv) :
  cls b = ButterflyConv2d -> cls l = LowRankConv2d -> cls p = Conv2d ->
  cls (structured st b l p) = structure_class st.
Proof.
  intros Hb Hl Hp. unfold structured, structure_class.
  destruct st as [s|]; [|exact Hp].
  destruct (String.eqb s "B"); [exact Hb|].
  destruct (String.eqb s "LR"); [exact Hl|exact Hp].
Qed.

Lemma block_convs_cls (c d : Z) (p : R) (s : Z) (st : option string) (kw : kwargs) :
  Forall (fun cv => cls cv = structure_class st)
         (block_convs (wide_basic_init c d p s st kw)).
Proof.
  unfold block_convs, wide_basic_init. cbn [conv1 conv2 shortcut].
  constructor; [apply structured_cls; reflexivity|].
  constructor; [apply structured_cls; reflexivity|].
  destruct (negb (s =? 1) || negb (c =? d))%bool; [|constructor].
  constructor; [apply structured_cls; reflexivity|constructor].
Qed.

Lemma Forall_repeat {X : Type} (P : X -> Prop) (x : X) (m : nat) :
  P x -> Forall P (repeat x m).
Proof. intros H. induction m; cbn [repeat]; constructor; assumption. Qed.

(** [structure_type] reaches the third layer only: every convolution of
    [layer1] and [layer2] is an [nn.Conv2d] whatever the structure type,
    and every convolution of [layer3] has the class that the structure
    type selects. *)
Theorem Wide_ResNet_structure_layer3 (depth widen_factor : Z) (dropout_rate : R)
        (num_classes : Z) (structure_type : option string) (kw : kwargs) net :
  Wide_ResNet_init depth widen_factor dropout_rate num_classes structure_type kw = Some net ->
  Forall (fun b => Forall (fun cv => cls cv = Conv2d) (block_convs b))
         (net.(layer1) ++ net.(layer2))
  /\ Forall (fun b => Forall (fun cv => cls cv = structure_class structure_type)
                             (block_convs b))
            net.(layer3).
Proof.
  intros E.
  apply init_inv in E. destruct E as (Hd & ->).
  cbn [layer1 layer2 layer3]. split.
  - apply Forall_app. split; (constructor; [|apply Forall_repeat]);
      apply (block_convs_cls _ _ _ _ None []).
  - constructor; [|apply Forall_repeat]; apply block_convs_cls.
Qed.

Lemma Wide_ResNet_structure_layer3_witness :
  exists net,
    WideResNet28 (Some "B"%string) [] = Some net
    /\ Forall (fun b => Forall (fun cv => cls cv = Conv2d) (block_convs b))
              (net.(layer1) ++ net.(layer2))
    /\ Forall (fun b => Forall (fun cv => cls cv = ButterflyConv2d) (block_convs b))
              net.(layer3).
Proof.
  eexists. split; [reflexivity|].
  apply (@Wide_ResNet_structure_layer3 28 2 0%R 10 (Some "B"%string) []).
  reflexivity.
Defined.
